(** * The explorer's streaming feed and tangle visualizer

    A shallow embedding of the feed reconciler
    ([client/src/services/feedClient.ts], in two revisions) and of the
    graph maintenance code of the [Visualizer] route component, together
    with the properties their specification states about them.

    JavaScript arrays are lists, numbers that the code only uses as
    integers (counts, millisecond timestamps, ledger values, milestone
    indexes) are [Z] or [nat], objects used as dictionaries are association
    lists kept in the iteration order the language gives them, and a field
    that may be [undefined] is an [option]. *)

From Stdlib Require Import String List ZArith Lia Bool Arith PeanoNat.
From Stdlib Require Import Ascii DecimalString.
From Stdlib Require DecimalNat DecimalFacts.
From Stdlib Require Import Relations.Relation_Operators.
From Stdlib Require Import Relations.Operators_Properties.
Import ListNotations.

Set Implicit Arguments.

(** ** JavaScript array operations used by the sources *)

Module JS.

Section Arrays.
Context {A : Type}.

(** [l.slice(-k)] for a positive [k]: the last [k] elements. *)
Definition slice_neg (k : Z) (l : list A) : list A :=
  skipn (length l - Z.to_nat k) l.

(** [l.slice(0, k)] and [l.slice(k)]. *)
Definition slice_to (k : nat) (l : list A) : list A := firstn k l.
Definition slice_from (k : nat) (l : list A) : list A := skipn k l.

(** [l.find(p)]. *)
Definition find (p : A -> bool) (l : list A) : option A := List.find p l.

(** Object identity inside one array: every element of the array is a
    distinct object, so an element is identified by its position. *)
Definition indexed (l : list A) : list (nat * A) :=
  combine (seq 0 (length l)) l.

(** [refs.includes(t)] for object references. *)
Definition includes_ref (refs : list (nat * A)) (t : nat * A) : bool :=
  existsb (Nat.eqb (fst t)) (map fst refs).
End Arrays.

(** [ids.includes(s)] for strings. *)
Definition includes (l : list string) (s : string) : bool :=
  existsb (String.eqb s) l.

(** A string is truthy when it is not empty. *)
Definition truthy (s : string) : bool := negb (String.eqb s "").

(** [Math.ceil(n / d)] for a count [n] and a positive integer [d]. *)
Definition ceil_div (n d : nat) : nat := (n + d - 1) / d.

End JS.

(** ** The per-category retention sweep shared by both revisions *)

Module Retention.

Section Sweep.
Context {A : Type}.
Variable MIN_ITEMS_PER_TYPE : Z.

(** For one category, the items of the category that go:
    [cat.slice(-(cat.length - MIN_ITEMS_PER_TYPE))] when that count is
    positive, nothing otherwise. *)
Definition toRemove (p : A -> bool) (its : list (nat * A)) : list (nat * A) :=
  let cat := filter (fun t => p (snd t)) its in
  let toRemoveCount := (Z.of_nat (length cat) - MIN_ITEMS_PER_TYPE)%Z in
  if (0 <? toRemoveCount)%Z then JS.slice_neg toRemoveCount cat else [].

(** [removeItems] after the categories [cats] have been gone through. *)
Definition removeItems (cats : list (A -> bool)) (its : list (nat * A))
  : list (nat * A) :=
  flat_map (fun p => toRemove p its) cats.

(** [this._items.filter(t => !removeItems.includes(t))]. *)
Definition keep (cats : list (A -> bool)) (l : list A) : list A :=
  let its := JS.indexed l in
  map snd (filter (fun t => negb (JS.includes_ref (removeItems cats its) t)) its).

(** The categories do not overlap. *)
Definition disjoint (cats : list (A -> bool)) : Prop :=
  forall i j p q x, i <> j -> nth_error cats i = Some p ->
    nth_error cats j = Some q -> p x = true -> q x = false.

End Sweep.

End Retention.

(** ** The feed reconciler, [client/src/services/feedClient.ts] *)

Module FeedClient.

Inductive PayloadType := Transaction | Index | MS | NonePayload.

Definition PayloadType_eqb (a b : PayloadType) : bool :=
  match a, b with
  | Transaction, Transaction | Index, Index | MS, MS
  | NonePayload, NonePayload => true
  | _, _ => false
  end.

(** The values a metadata field can hold. *)
Inductive Scalar := SBool (b : bool) | SNum (z : Z) | SStr (s : string).

(** [IFeedItemMetadata]: a small record of optional fields, kept as the
    list of the fields that are set. *)
Definition IFeedItemMetadata := list (string * Scalar).

Record IFeedItem := mkItem {
  id : string;
  value : option Z;
  parents : list string;
  properties : list (string * Scalar);
  payloadType : PayloadType;
  metaData : option IFeedItemMetadata
}.

(** [{ ...a, ...b }]: the fields of [a] in place, overwritten by those of
    [b], followed by the fields only [b] has. *)
Fixpoint assign (k : string) (v : Scalar) (o : IFeedItemMetadata)
  : IFeedItemMetadata :=
  match o with
  | [] => [(k, v)]
  | (k', v') :: r =>
      if String.eqb k k' then (k, v) :: r else (k', v') :: assign k v r
  end.

Definition spread (a : option IFeedItemMetadata) (b : IFeedItemMetadata)
  : IFeedItemMetadata :=
  fold_left (fun o kv => assign (fst kv) (snd kv) o) b
            (match a with Some o => o | None => [] end).

(** What a call of a subscriber's callback does, as far as the caller
    can tell: it returns, or it throws. *)
Inductive CallResult := Returned | Threw.

Definition Callback :=
  list IFeedItem -> option (list (string * IFeedItemMetadata)) -> CallResult.

Record IFeedSubscriptionMessage := mkMessage {
  subscriptionId : string;
  items : list string;
  itemsMetadata : option (list (string * IFeedItemMetadata))
}.

(** One call made by the fan-out loop: which subscriber, with which
    arguments. *)
Record Delivery := mkDelivery {
  toSubscriber : string;
  newItems : list IFeedItem;
  metadataUpdates : option (list (string * IFeedItemMetadata))
}.

Record State := mkState {
  _items : list IFeedItem;
  _existingIds : list string;
  _subscriptionId : option string;
  _subscribers : list (string * Callback)
}.

Definition MIN_ITEMS_PER_TYPE : Z := 50.

Section Client.
(** Decoding a raw payload belongs to the ledger libraries. *)
Variable convertItem : string -> IFeedItem.
(** [this._networkConfig?.protocolVersion]. *)
Variable protocolVersion : option string.

Definition constructed : State := mkState [] [] None [].

(** [this._subscribers[subscriptionId] = callback]: a new key goes last,
    an existing key keeps its place. *)
Fixpoint setSubscriber (sid : string) (cb : Callback)
    (subs : list (string * Callback)) : list (string * Callback) :=
  match subs with
  | [] => [(sid, cb)]
  | (k, c) :: r =>
      if String.eqb sid k then (sid, cb) :: r
      else (k, c) :: setSubscriber sid cb r
  end.

(** [subscribe], given the id that [TrytesHelper.generateHash] drew. *)
Definition subscribe (sid : string) (cb : Callback) (s : State) : State :=
  mkState (_items s) (_existingIds s) (_subscriptionId s)
          (setSubscriber sid cb (_subscribers s)).

(** The handler of the socket's "subscribe" answer. *)
Definition onSubscribe (error : bool) (sid : string) (s : State) : State :=
  if error then s
  else mkState (_items s) (_existingIds s) (Some sid) (_subscribers s).

(** [unsubscribe]: the entry is deleted and the subscription id reset. *)
Definition unsubscribe (sid : string) (s : State) : State :=
  mkState (_items s) (_existingIds s) None
          (filter (fun kc => negb (String.eqb sid (fst kc)))
                  (_subscribers s)).

(** The metadata loop: the first item with the id, when there is one,
    gets the update merged into its [metaData]. *)
Fixpoint mergeInto (mid : string) (upd : IFeedItemMetadata)
    (l : list IFeedItem) : list IFeedItem :=
  match l with
  | [] => []
  | c :: r =>
      if String.eqb (id c) mid
      then mkItem (id c) (value c) (parents c) (properties c)
                  (payloadType c) (Some (spread (metaData c) upd)) :: r
      else c :: mergeInto mid upd r
  end.

Definition mergeMetadata (md : option (list (string * IFeedItemMetadata)))
    (l : list IFeedItem) : list IFeedItem :=
  match md with
  | None => l
  | Some updates =>
      fold_left (fun acc kv => mergeInto (fst kv) (snd kv) acc) updates l
  end.

(** One category of the retention sweep. *)
Definition toRemove (p : IFeedItem -> bool)
    (its : list (nat * IFeedItem)) : list (nat * IFeedItem) :=
  Retention.toRemove MIN_ITEMS_PER_TYPE p its.

Definition isPayload (ty : PayloadType) (t : IFeedItem) : bool :=
  PayloadType_eqb (payloadType t) ty.

Definition isZero (t : IFeedItem) : bool :=
  isPayload Transaction t &&
  match value t with Some v => (v =? 0)%Z | None => false end.

Definition isNonZero (t : IFeedItem) : bool :=
  isPayload Transaction t &&
  match value t with Some v => negb (v =? 0)%Z | None => false end.

Definition isOg : bool :=
  match protocolVersion with
  | Some v => String.eqb v "og"
  | None => false
  end.

(** The categories the sweep goes through, in the order of the source. *)
Definition categories : list (IFeedItem -> bool) :=
  if isOg then [isZero; isNonZero]
  else [isPayload Transaction; isPayload Index; isPayload MS;
        isPayload NonePayload].

(** The retention sweep over [this._items]. *)
Definition sweep (l : list IFeedItem) : list IFeedItem :=
  let its := JS.indexed l in
  let removeItems : list (nat * IFeedItem) := [] in
  let removeItems :=
    if isOg then
      let removeItems := removeItems ++ toRemove isZero its in
      let removeItems := removeItems ++ toRemove isNonZero its in
      removeItems
    else
      let removeItems := removeItems ++ toRemove (isPayload Transaction) its in
      let removeItems := removeItems ++ toRemove (isPayload Index) its in
      let removeItems := removeItems ++ toRemove (isPayload MS) its in
      let removeItems := removeItems ++ toRemove (isPayload NonePayload) its in
      removeItems in
  map snd (filter (fun t => negb (JS.includes_ref removeItems t)) its).

(** The fan-out loop [for (const sub in this._subscribers)]: a callback
    that throws ends the loop, since nothing catches the exception. The
    result is the list of calls made and whether the loop completed. *)
Fixpoint notify (subs : list (string * Callback)) (its : list IFeedItem)
    (md : option (list (string * IFeedItemMetadata)))
  : list Delivery * bool :=
  match subs with
  | [] => ([], true)
  | (sid, cb) :: rest =>
      match cb its md with
      | Returned =>
          let (calls, completed) := notify rest its md in
          (mkDelivery sid its md :: calls, completed)
      | Threw => ([mkDelivery sid its md], false)
      end
  end.

Definition filteredNewItems (s : State) (m : IFeedSubscriptionMessage)
  : list IFeedItem :=
  filter (fun nh => negb (JS.includes (_existingIds s) (id nh)))
         (map convertItem (items m)).

(** The handler of the socket's "transactions" messages: one ingest
    cycle. *)
Definition onTransactions (m : IFeedSubscriptionMessage) (s : State)
  : State * list Delivery :=
  match _subscriptionId s with
  | Some mine =>
      if String.eqb (subscriptionId m) mine then
        let merged := mergeMetadata (itemsMetadata m) (_items s) in
        let fresh := filteredNewItems s m in
        let s' :=
          if (0 <? length fresh)%nat then
            let kept := sweep (fresh ++ merged) in
            mkState kept (map id kept) (_subscriptionId s) (_subscribers s)
          else
            mkState merged (_existingIds s) (_subscriptionId s)
                    (_subscribers s) in
        (s', fst (notify (_subscribers s') fresh (itemsMetadata m)))
      else (s, [])
  | None => (s, [])
  end.

(** The events the client reacts to. *)
Inductive Event :=
| Subscribe (sid : string) (cb : Callback)
| SubscribeAnswer (error : bool) (sid : string)
| Unsubscribe (sid : string)
| Transactions (m : IFeedSubscriptionMessage).

Definition step (s : State) (e : Event) : State :=
  match e with
  | Subscribe sid cb => subscribe sid cb s
  | SubscribeAnswer err sid => onSubscribe err sid s
  | Unsubscribe sid => unsubscribe sid s
  | Transactions m => fst (onTransactions m s)
  end.

Definition run (es : list Event) : State := fold_left step es constructed.

End Client.

End FeedClient.


(** ** The feed item of the earlier revision

    The visualizer and the earlier revision of the feed client share this
    shape of [IFeedItem]: two parent fields, a [metaData] dictionary and a
    [confirmed] flag. *)

Module Model.

Inductive PayloadType := Transaction | Index | MS | NoPayload.

Definition PayloadType_eqb (a b : PayloadType) : bool :=
  match a, b with
  | Transaction, Transaction | Index, Index | MS, MS
  | NoPayload, NoPayload => true
  | _, _ => false
  end.

(** [metaData]: the [MS] entry, a number whenever the code writes it, and
    the remaining entries, which are strings. A missing dictionary and an
    empty one read the same through [metaData?.MS]. *)
Record MetaData := mkMeta {
  metaMS : option Z;
  metaFields : list (string * string)
}.

Definition noMeta : MetaData := mkMeta None [].

(** A field that the placeholder item leaves out is [None] (or the empty
    string for a parent, which is as falsy as [undefined]). *)
Record IFeedItem := mkItem {
  id : string;
  value : option Z;
  parent1 : string;
  parent2 : string;
  metaData : MetaData;
  payloadType : option PayloadType;
  confirmed : bool
}.

(** [{ id, confirmed: false }]. *)
Definition placeholder (i : string) : IFeedItem :=
  mkItem i None "" "" noMeta None false.

(** [item.metaData?.MS] read as a condition: a number other than zero. *)
Definition truthyMS (t : IFeedItem) : option Z :=
  match metaMS (metaData t) with
  | Some z => if (z =? 0)%Z then None else Some z
  | None => None
  end.

Definition setConfirmed (t : IFeedItem) : IFeedItem :=
  mkItem (id t) (value t) (parent1 t) (parent2 t) (metaData t)
         (payloadType t) true.

Definition setMS (z : Z) (t : IFeedItem) : IFeedItem :=
  mkItem (id t) (value t) (parent1 t) (parent2 t)
         (mkMeta (Some z) (metaFields (metaData t)))
         (payloadType t) (confirmed t).

End Model.

(** ** The earlier revision of the feed client ([unnamed/part_003]) *)

Module FeedClient003.

Import Model.

Inductive CallResult := Returned | Threw.

Definition Callback := list IFeedItem -> list string -> CallResult.

Record IFeedSubscriptionMessage := mkMessage {
  subscriptionId : string;
  items : list string;
  msgConfirmed : list string
}.

Record Delivery := mkDelivery {
  toSubscriber : string;
  newItems : list IFeedItem;
  newConfirmed : list string
}.

Record State := mkState {
  _items : list IFeedItem;
  _existingIds : list string;
  _subscriptionId : option string;
  _subscribers : list (string * Callback)
}.

Definition MIN_ITEMS_PER_TYPE : Z := 10.

Section Client.
(** [convertItem(item, confirmed)], decoding left to the ledger
    libraries. *)
Variable convertItem : string -> bool -> IFeedItem.

Definition constructed : State := mkState [] [] None [].

Fixpoint setSubscriber (sid : string) (cb : Callback)
    (subs : list (string * Callback)) : list (string * Callback) :=
  match subs with
  | [] => [(sid, cb)]
  | (k, c) :: r =>
      if String.eqb sid k then (sid, cb) :: r
      else (k, c) :: setSubscriber sid cb r
  end.

Definition subscribe (sid : string) (cb : Callback) (s : State) : State :=
  mkState (_items s) (_existingIds s) (_subscriptionId s)
          (setSubscriber sid cb (_subscribers s)).

Definition onSubscribe (error : bool) (sid : string) (s : State) : State :=
  if error then s
  else mkState (_items s) (_existingIds s) (Some sid) (_subscribers s).

Definition unsubscribe (sid : string) (s : State) : State :=
  mkState (_items s) (_existingIds s) None
          (filter (fun kc => negb (String.eqb sid (fst kc)))
                  (_subscribers s)).

(** [existing.confirmed = true] on the first item with the id. *)
Fixpoint confirmIn (cid : string) (l : list IFeedItem) : list IFeedItem :=
  match l with
  | [] => []
  | c :: r =>
      if String.eqb (id c) cid then setConfirmed c :: r
      else c :: confirmIn cid r
  end.

Definition toRemove (p : IFeedItem -> bool)
    (its : list (nat * IFeedItem)) : list (nat * IFeedItem) :=
  Retention.toRemove MIN_ITEMS_PER_TYPE p its.

Definition isPayload (ty : PayloadType) (t : IFeedItem) : bool :=
  match payloadType t with
  | Some ty' => PayloadType_eqb ty' ty
  | None => false
  end.

Definition isZero (t : IFeedItem) : bool :=
  isPayload Transaction t &&
  match value t with Some v => (v =? 0)%Z | None => false end.

(** [t.value !== 0]: an undefined value counts as not zero here. *)
Definition isNonZero (t : IFeedItem) : bool :=
  isPayload Transaction t &&
  match value t with Some v => negb (v =? 0)%Z | None => true end.

Definition categories : list (IFeedItem -> bool) :=
  [isZero; isNonZero; isPayload Index; isPayload MS].

Definition sweep (l : list IFeedItem) : list IFeedItem :=
  let its := JS.indexed l in
  let removeItems : list (nat * IFeedItem) := [] in
  let removeItems := removeItems ++ toRemove isZero its in
  let removeItems := removeItems ++ toRemove isNonZero its in
  let removeItems := removeItems ++ toRemove (isPayload Index) its in
  let removeItems := removeItems ++ toRemove (isPayload MS) its in
  map snd (filter (fun t => negb (JS.includes_ref removeItems t)) its).

Fixpoint notify (subs : list (string * Callback)) (its : list IFeedItem)
    (conf : list string) : list Delivery * bool :=
  match subs with
  | [] => ([], true)
  | (sid, cb) :: rest =>
      match cb its conf with
      | Returned =>
          let (calls, completed) := notify rest its conf in
          (mkDelivery sid its conf :: calls, completed)
      | Threw => ([mkDelivery sid its conf], false)
      end
  end.

Definition filteredNewItems (s : State) (m : IFeedSubscriptionMessage)
  : list IFeedItem :=
  filter (fun nh => negb (JS.includes (_existingIds s) (id nh)))
         (map (fun item => convertItem item (JS.includes (msgConfirmed m) item))
              (items m)).

Definition onTransactions (m : IFeedSubscriptionMessage) (s : State)
  : State * list Delivery :=
  match _subscriptionId s with
  | Some mine =>
      if String.eqb (subscriptionId m) mine then
        let marked := fold_left (fun acc c => confirmIn c acc)
                                (msgConfirmed m) (_items s) in
        let fresh := filteredNewItems s m in
        let s' :=
          if (0 <? length fresh)%nat then
            let kept := sweep (fresh ++ marked) in
            mkState kept (map id kept) (_subscriptionId s) (_subscribers s)
          else
            mkState marked (_existingIds s) (_subscriptionId s)
                    (_subscribers s) in
        (s', fst (notify (_subscribers s') fresh (msgConfirmed m)))
      else (s, [])
  | None => (s, [])
  end.

End Client.

End FeedClient003.


(** ** Binary64 arithmetic of the pruning threshold

    [count < total * 0.03] compares an integer with the product of an
    integer and the double nearest to 0.03. That double is
    [m003 * 2^-58]; the product is rounded to 53 significant bits, ties
    to even, as IEEE 754 multiplication does. Counts stay far below
    [2^53], so they are doubles themselves and nothing overflows. *)

Module Binary64.

Definition m003 : Z := 8646911284551352.
Definition e003 : Z := 58.

(** The rounded product [total * 0.03] as a numerator over [2^58]. *)
Definition times_0_03 (total : Z) : Z :=
  let p := (total * m003)%Z in
  let bits := (if (p =? 0)%Z then 0 else Z.log2 p + 1)%Z in
  if (bits <=? 53)%Z then p
  else
    let s := (bits - 53)%Z in
    let q := Z.shiftr p s in
    let r := (p - Z.shiftl q s)%Z in
    let half := Z.shiftl 1 (s - 1) in
    let q' := if (half <? r)%Z || ((r =? half)%Z && Z.odd q)
              then (q + 1)%Z else q in
    Z.shiftl q' s.

(** [count < total * 0.03]. *)
Definition lt_times_0_03 (count total : nat) : bool :=
  (Z.shiftl (Z.of_nat count) e003 <? times_0_03 (Z.of_nat total))%Z.

End Binary64.

(** ** The graph library, as far as the visualizer uses it

    [Viva.Graph.graph()] keeps the nodes in a dictionary, iterated in
    insertion order, and every link in a global array as well as in the
    [links] array of both of its end nodes. The arrays of the nodes hold
    the links that touch the node in the order of the global array (a
    self-loop twice), so they are derived from it here. Two links with
    the same ends are interchangeable, and a link is identified by its
    ends. *)

Module Viva.

Record Link := mkLink { fromId : string; toId : string }.

Definition Link_eqb (a b : Link) : bool :=
  String.eqb (fromId a) (fromId b) && String.eqb (toId a) (toId b).

Definition touches (x : string) (l : Link) : bool :=
  String.eqb (fromId l) x || String.eqb (toId l) x.

(** The node at the other end, as [forEachLinkedNode] computes it. *)
Definition otherEnd (x : string) (l : Link) : string :=
  if String.eqb (fromId l) x then toId l else fromId l.

Section Graph.
Variable D : Type.

Record Graph := mkGraph {
  nodes : list (string * D);
  links : list Link
}.

Definition empty : Graph := mkGraph [] [].

Definition nodeIds (g : Graph) : list string := map fst (nodes g).

Definition getNode (g : Graph) (x : string) : option D :=
  option_map snd (List.find (fun n => String.eqb (fst n) x) (nodes g)).

Definition hasNode (g : Graph) (x : string) : bool :=
  match getNode g x with Some _ => true | None => false end.

(** Replace the data of the node [x]. *)
Fixpoint setData (x : string) (f : D -> D) (ns : list (string * D))
  : list (string * D) :=
  match ns with
  | [] => []
  | (k, d) :: r =>
      if String.eqb k x then (k, f d) :: r else (k, d) :: setData x f r
  end.

Definition updateNode (g : Graph) (x : string) (f : D -> D) : Graph :=
  mkGraph (setData x f (nodes g)) (links g).

(** [addNode(id, data)]: a new node goes last, an existing one gets the
    data. *)
Definition addNode (g : Graph) (x : string) (d : D) : Graph :=
  if hasNode g x then updateNode g x (fun _ => d)
  else mkGraph (nodes g ++ [(x, d)]) (links g).

(** [addLink(from, to)] between two existing nodes. The visualizer makes
    sure of both ends before every call, so the library never has to
    create a missing end on its own. *)
Definition addLink (g : Graph) (f t : string) : Graph :=
  mkGraph (nodes g) (links g ++ [mkLink f t]).

Fixpoint removeFirst (l : Link) (ls : list Link) : list Link :=
  match ls with
  | [] => []
  | l' :: r => if Link_eqb l l' then r else l' :: removeFirst l r
  end.

(** [removeLink(link)]. *)
Definition removeLink (g : Graph) (l : Link) : Graph :=
  mkGraph (nodes g) (removeFirst l (links g)).

(** [removeNode(id)]: every link of the node goes, then the node; an
    unknown id changes nothing. *)
Definition removeNode (g : Graph) (x : string) : Graph :=
  if hasNode g x then
    mkGraph (filter (fun n => negb (String.eqb (fst n) x)) (nodes g))
            (filter (fun l => negb (touches x l)) (links g))
  else g.

(** [node.links] of the node [x]. *)
Definition nodeLinks (g : Graph) (x : string) : list Link :=
  flat_map (fun l =>
              if String.eqb (fromId l) x
              then if String.eqb (toId l) x then [l; l] else [l]
              else if String.eqb (toId l) x then [l] else [])
           (links g).

(** The ids [forEachLinkedNode(x, callback)] passes to a callback that
    leaves the links alone. *)
Definition linkedIds (g : Graph) (x : string) : list string :=
  match getNode g x with
  | Some _ => map (otherEnd x) (nodeLinks g x)
  | None => []
  end.

End Graph.

Arguments empty {D}.

End Viva.

(** ** The visualizer ([unnamed/part_000], class [Visualizer]) *)

Module Visualizer.

Import Model.

Definition MAX_ITEMS : nat := 5000.
Definition VERTEX_SIZE_REGULAR : Z := 20.
Definition VERTEX_SIZE_LARGE : Z := 30.
Definition COLOR_PENDING : string := "0xbbbbbb".
Definition COLOR_ZERO_CONFIRMED : string := "0x0fc1b7".
Definition COLOR_VALUE_CONFIRMED : string := "0x3f985a".
Definition COLOR_MILESTONE : string := "0xb8172d".
Definition COLOR_SEARCH_RESULT : string := "0xe79c18".

(** [INodeData]. *)
Record INodeData := mkData {
  feedItem : IFeedItem;
  added : Z;
  graphId : option nat
}.

Definition Graph := Viva.Graph INodeData.

Record MsEntry := mkEntry { msId : string; lastSeen : Z }.

(** [_msIndexToNode]: a dictionary with integer keys, which the language
    iterates in ascending order of the key. *)
Definition MsIndex := list (Z * MsEntry).

Definition ms_get (k : Z) (m : MsIndex) : option MsEntry :=
  option_map snd (List.find (fun e => (fst e =? k)%Z) m).

Fixpoint ms_set (k : Z) (v : MsEntry) (m : MsIndex) : MsIndex :=
  match m with
  | [] => [(k, v)]
  | (k', v') :: r =>
      if (k =? k')%Z then (k, v) :: r
      else if (k <? k')%Z then (k, v) :: (k', v') :: r
      else (k', v') :: ms_set k v r
  end.

Definition ms_delete (k : Z) (m : MsIndex) : MsIndex :=
  filter (fun e => negb (fst e =? k)%Z) m.

Record State := mkState {
  _graph : option Graph;
  _existingIds : list string;
  _newItems : list IFeedItem;
  _removeNodes : list string;
  _msIndexToNode : MsIndex;
  _smallNetworkInterval : nat;
  itemCount : nat;
  selectedFeedItem : option IFeedItem
}.

(** The fields the constructor sets; [setupGraph] has not run yet. *)
Definition constructed : State := mkState None [] [] [] [] 0 0 None.

(** [setupGraph] on the mounted element. *)
Definition setupGraph (s : State) : State :=
  match _graph s with
  | Some _ => s
  | None =>
      mkState (Some Viva.empty) (_existingIds s) (_newItems s)
              (_removeNodes s) (_msIndexToNode s) (_smallNetworkInterval s)
              (itemCount s) (selectedFeedItem s)
  end.

(** *** Node styling *)

Definition hasValue (t : IFeedItem) : bool :=
  match value t with Some v => negb (v =? 0)%Z | None => false end.

Definition isMilestone (t : IFeedItem) : bool :=
  match truthyMS t with Some _ => true | None => false end.

Definition calculateNodeStyle (node : option INodeData) (highlight : bool)
  : string * Z :=
  let color := COLOR_PENDING in
  let size := VERTEX_SIZE_REGULAR in
  match node with
  | Some data =>
      let color :=
        if highlight then COLOR_SEARCH_RESULT
        else if isMilestone (feedItem data) then COLOR_MILESTONE
        else if confirmed (feedItem data) then
          (if hasValue (feedItem data) then COLOR_VALUE_CONFIRMED
           else COLOR_ZERO_CONFIRMED)
        else COLOR_PENDING in
      let size :=
        if isMilestone (feedItem data) || hasValue (feedItem data)
        then VERTEX_SIZE_LARGE else VERTEX_SIZE_REGULAR in
      (color, size)
  | None => (color, size)
  end.

(** *** Folding a batch into the graph *)

(** The parent part of the loop body: a missing parent becomes a
    placeholder node, then the link is added. *)
Definition linkParent (now : Z) (parent child : string)
    (ga : Graph * list string) : Graph * list string :=
  let (g, added) := ga in
  let (g, added) :=
    match Viva.getNode g parent with
    | None =>
        (Viva.addNode g parent (mkData (placeholder parent) now None),
         added ++ [parent])
    | Some _ => (g, added)
    end in
  (Viva.addLink g parent child, added).

(** The body of [for (const item of items)]. *)
Definition drawItem (now : Z) (ga : Graph * list string) (item : IFeedItem)
  : Graph * list string :=
  let (g, added) := ga in
  match Viva.getNode g (id item) with
  | Some existingNode => (g, added)
  | None =>
      let g := Viva.addNode g (id item) (mkData item now None) in
      let added := added ++ [id item] in
      let ga :=
        if JS.truthy (parent1 item)
        then linkParent now (parent1 item) (id item) (g, added)
        else (g, added) in
      if JS.truthy (parent2 item)
         && negb (String.eqb (parent1 item) (parent2 item))
      then linkParent now (parent2 item) (id item) ga
      else ga
  end.

Definition drawItems (now : Z) (items : list IFeedItem) (g : Graph)
  : Graph * list string :=
  fold_left (drawItem now) items (g, []).

(** The eviction sweep
    [while (this._existingIds.length > Visualizer.MAX_ITEMS)]. *)
Fixpoint evict (added existingIds removeNodes : list string)
  : list string * list string :=
  match existingIds with
  | [] => ([], removeNodes)
  | nodeToRemove :: rest =>
      if (MAX_ITEMS <? length existingIds)%nat then
        evict added rest
              (if JS.truthy nodeToRemove
                  && negb (JS.includes added nodeToRemove)
               then removeNodes ++ [nodeToRemove] else removeNodes)
      else (existingIds, removeNodes)
  end.

(** *** Removing nodes *)

Definition dropMilestone (node : option INodeData) (ms : MsIndex) : MsIndex :=
  match node with
  | Some data =>
      match truthyMS (feedItem data) with
      | Some index => ms_delete index ms
      | None => ms
      end
  | None => ms
  end.

(** The callback [removeNodes] hands to [forEachLinkedNode]: the link
    goes, and a linked node left without links goes with it, together
    with its milestone entry. A link always has both of its end nodes,
    so [linkedNode] is never missing. *)
Definition unlink (nodeToRemove : string) (link : Viva.Link)
    (gm : Graph * MsIndex) : Graph * MsIndex :=
  let (g, ms) := gm in
  let linkedId := Viva.otherEnd nodeToRemove link in
  let linkedNode := Viva.getNode g linkedId in
  let g := Viva.removeLink g link in
  if (length (Viva.nodeLinks g linkedId) =? 0)%nat
  then (Viva.removeNode g linkedId, dropMilestone linkedNode ms)
  else (g, ms).

(** [forEachLinkedNode] runs [for (i = 0; i < node.links.length; ++i)]
    over the live [links] array of the node, which the callback above
    shortens while the loop advances. The number of rounds is bounded by
    the length of the array at the start. *)
Fixpoint unlinkFrom (rounds : nat) (nodeToRemove : string) (i : nat)
    (gm : Graph * MsIndex) : Graph * MsIndex :=
  match rounds with
  | O => gm
  | S rounds' =>
      match nth_error (Viva.nodeLinks (fst gm) nodeToRemove) i with
      | Some link =>
          unlinkFrom rounds' nodeToRemove (S i) (unlink nodeToRemove link gm)
      | None => gm
      end
  end.

Definition unlinkAll (nodeToRemove : string) (gm : Graph * MsIndex)
  : Graph * MsIndex :=
  match Viva.getNode (fst gm) nodeToRemove with
  | Some _ =>
      unlinkFrom (length (Viva.nodeLinks (fst gm) nodeToRemove))
                 nodeToRemove 0 gm
  | None => gm
  end.

Definition deselect (nodeToRemove : string) (sel : option IFeedItem)
  : option IFeedItem :=
  match sel with
  | Some item => if String.eqb (id item) nodeToRemove then None else sel
  | None => None
  end.

(** One round of [while (this._removeNodes.length > 0)]. The node is
    looked up again after it has been removed from the graph. *)
Definition removeOne (nodeToRemove : string)
    (st : Graph * MsIndex * option IFeedItem)
  : Graph * MsIndex * option IFeedItem :=
  let '(g, ms, sel) := st in
  if JS.truthy nodeToRemove then
    let (g, ms) := unlinkAll nodeToRemove (g, ms) in
    let g := Viva.removeNode g nodeToRemove in
    let removeNode := Viva.getNode g nodeToRemove in
    let ms := dropMilestone removeNode ms in
    (g, ms, deselect nodeToRemove sel)
  else (g, ms, sel).

Definition drain (queue : list string)
    (st : Graph * MsIndex * option IFeedItem)
  : Graph * MsIndex * option IFeedItem :=
  fold_left (fun st nodeToRemove => removeOne nodeToRemove st) queue st.

(** [removeNodes]. *)
Definition removeNodes (s : State) : State :=
  match _graph s with
  | Some g =>
      let '(g, ms, sel) :=
        drain (_removeNodes s) (g, _msIndexToNode s, selectedFeedItem s) in
      mkState (Some g) (_existingIds s) (_newItems s) [] ms
              (_smallNetworkInterval s) (itemCount s) sel
  | None => s
  end.

(** *** Small disconnected networks *)

(** [!data.graphId]: undefined, or zero. *)
Definition noGraphId (data : INodeData) : bool :=
  match graphId data with
  | Some (S _) => false
  | _ => true
  end.

Definition setGraphId (gid : option nat) (data : INodeData) : INodeData :=
  mkData (feedItem data) (added data) gid.

(** The callback of the traversal: a linked node without a graph id that
    is not waiting already is queued. *)
Definition enqueueLinked (g : Graph) (nodesToVisit : list string)
    (linkedId : string) : list string :=
  match Viva.getNode g linkedId with
  | Some data =>
      if noGraphId data && negb (JS.includes nodesToVisit linkedId)
      then nodesToVisit ++ [linkedId] else nodesToVisit
  | None => nodesToVisit
  end.

(** The loop [while (nodesToVisit.length > 0)] of [calculateSubGraph];
    [None] when it is still running after [fuel] rounds. *)
Fixpoint visit (fuel : nat) (gid : nat) (g : Graph)
    (nodesToVisit nodesVisited : list string) (mostRecentChange : Z)
  : option (Graph * list string * Z) :=
  match nodesToVisit with
  | [] => Some (g, nodesVisited, mostRecentChange)
  | nodeId :: rest =>
      match fuel with
      | O => None
      | S fuel' =>
          if JS.truthy nodeId then
            let nodesVisited := nodesVisited ++ [nodeId] in
            match Viva.getNode g nodeId with
            | Some data =>
                if noGraphId data then
                  let g := Viva.updateNode g nodeId (setGraphId (Some gid)) in
                  let mostRecentChange :=
                    if (mostRecentChange <? added data)%Z
                    then added data else mostRecentChange in
                  let rest :=
                    fold_left (enqueueLinked g) (Viva.linkedIds g nodeId) rest in
                  visit fuel' gid g rest nodesVisited mostRecentChange
                else visit fuel' gid g rest nodesVisited mostRecentChange
            | None => visit fuel' gid g rest nodesVisited mostRecentChange
            end
          else visit fuel' gid g rest nodesVisited mostRecentChange
      end
  end.

Record SubGraph := mkSub { subNodes : list string; mostRecentChange : Z }.

Definition calculateSubGraph (fuel : nat) (g : Graph) (startNodeId : string)
    (gid : nat) : option (Graph * SubGraph) :=
  match visit fuel gid g [startNodeId] [] 0 with
  | Some (g, nodesVisited, mrc) => Some (g, mkSub nodesVisited mrc)
  | None => None
  end.

(** The second [forEachNode] of a pass: every node that has no graph id
    yet starts a traversal. The sub graphs are collected in the order of
    their ids. *)
Fixpoint discover (fuel : nat) (ids : list string) (g : Graph) (gid : nat)
    (subGraphs : list SubGraph) : option (Graph * list SubGraph) :=
  match ids with
  | [] => Some (g, subGraphs)
  | x :: rest =>
      match Viva.getNode g x with
      | Some data =>
          if noGraphId data then
            match calculateSubGraph fuel g x (S gid) with
            | Some (g, sub) => discover fuel rest g (S gid) (subGraphs ++ [sub])
            | None => None
            end
          else discover fuel rest g gid subGraphs
      | None => discover fuel rest g gid subGraphs
      end
  end.

(** The first [forEachNode] of a pass. *)
Definition clearGraphIds (g : Graph) : Graph :=
  Viva.mkGraph (map (fun n => (fst n, setGraphId None (snd n))) (Viva.nodes g))
               (Viva.links g).

(** The test on one sub graph. *)
Definition isSmall (now : Z) (total : nat) (sub : SubGraph) : bool :=
  Binary64.lt_times_0_03 (length (subNodes sub)) total
  && (60000 <? now - mostRecentChange sub)%Z.

(** One round of the [do ... while (removed)] loop: the flag [removed]
    and the state after it. *)
Definition smallNetworksPass (fuel : nat) (now : Z) (g : Graph) (s : State)
  : option (bool * State) :=
  let g := clearGraphIds g in
  match discover fuel (Viva.nodeIds g) g 0 [] with
  | Some (g, subGraphs) =>
      let small := filter (isSmall now (length (_existingIds s))) subGraphs in
      let removed := (0 <? length small)%nat in
      let s := mkState (Some g) (_existingIds s) (_newItems s)
                       (_removeNodes s ++ flat_map subNodes small)
                       (_msIndexToNode s) (_smallNetworkInterval s)
                       (itemCount s) (selectedFeedItem s) in
      Some (removed, if removed then removeNodes s else s)
  | None => None
  end.

(** [removeSmallNetworks]; [None] when the loop has not come to an end
    within [fuel] rounds. *)
Fixpoint smallNetworksLoop (fuel rounds : nat) (now : Z) (s : State)
  : option State :=
  match rounds with
  | O => None
  | S rounds' =>
      match _graph s with
      | Some g =>
          match smallNetworksPass fuel now g s with
          | Some (removed, s) =>
              if removed then smallNetworksLoop fuel rounds' now s else Some s
          | None => None
          end
      | None => Some s
      end
  end.

Definition removeSmallNetworks (fuel : nat) (now : Z) (s : State)
  : option State :=
  match _graph s with
  | Some _ => smallNetworksLoop fuel fuel now s
  | None => Some s
  end.

(** *** Milestones *)

(** One round of the loop over the keys of [_msIndexToNode]. *)
Definition highlightOne (now : Z) (acc : Graph * MsIndex * list Z)
    (msIndex : Z) : Graph * MsIndex * list Z :=
  let '(g, ms, toRemove) := acc in
  match ms_get msIndex ms with
  | Some entry =>
      match Viva.getNode g (msId entry) with
      | Some node =>
          (Viva.updateNode g (msId entry)
             (fun d => mkData (setMS msIndex (feedItem d)) (added d) (graphId d)),
           ms_set msIndex (mkEntry (msId entry) now) ms,
           toRemove)
      | None =>
          if (300000 <? now - lastSeen entry)%Z
          then (g, ms, toRemove ++ [msIndex])
          else (g, ms, toRemove)
      end
  | None => acc
  end.

Definition highlightIn (now : Z) (g : Graph) (ms : MsIndex) : Graph * MsIndex :=
  let keys := map fst ms in
  let '(g, ms, toRemove) := fold_left (highlightOne now) keys (g, ms, []) in
  (g, fold_left (fun m rem => ms_delete rem m) toRemove ms).

(** [highlightMilestones]. *)
Definition highlightMilestones (now : Z) (s : State) : State :=
  match _graph s with
  | Some g =>
      let (g, ms) := highlightIn now g (_msIndexToNode s) in
      mkState (Some g) (_existingIds s) (_newItems s) (_removeNodes s) ms
              (_smallNetworkInterval s) (itemCount s) (selectedFeedItem s)
  | None => s
  end.

Section Network.
(** [this._networkConfig?.protocolVersion]. *)
Variable protocolVersion : option string.

Definition isProtocol (v : string) : bool :=
  match protocolVersion with
  | Some p => String.eqb p v
  | None => false
  end.

(** [itemsUpdated]. *)
Definition itemsUpdated (now : Z) (newItems : list IFeedItem) (s : State)
  : State :=
  let pending := _newItems s ++ newItems in
  let s := mkState (_graph s) (_existingIds s) pending (_removeNodes s)
                   (_msIndexToNode s) (_smallNetworkInterval s)
                   (itemCount s) (selectedFeedItem s) in
  if isProtocol "chrysalis" then
    let ms :=
      fold_left (fun m message =>
                   match truthyMS message with
                   | Some index => ms_set index (mkEntry (id message) now) m
                   | None => m
                   end) pending (_msIndexToNode s) in
    let changed := existsb isMilestone pending in
    let s := mkState (_graph s) (_existingIds s) pending (_removeNodes s) ms
                     (_smallNetworkInterval s) (itemCount s)
                     (selectedFeedItem s) in
    if changed then highlightMilestones now s else s
  else s.

(** [confirmedUpdated]. *)
Definition confirmedUpdated (confirmedIds : list string) (s : State) : State :=
  match _graph s with
  | Some g =>
      let g :=
        fold_left (fun g sn =>
                     Viva.updateNode g sn
                       (fun d => mkData (setConfirmed (feedItem d)) (added d)
                                        (graphId d)))
                  confirmedIds g in
      mkState (Some g) (_existingIds s) (_newItems s) (_removeNodes s)
              (_msIndexToNode s) (_smallNetworkInterval s) (itemCount s)
              (selectedFeedItem s)
  | None => s
  end.

(** [milestonesUpdated]. *)
Definition milestonesUpdated (now : Z) (milestones : list (string * Z))
    (s : State) : State :=
  if isProtocol "og" then
    let ms :=
      fold_left (fun m mi => ms_set (snd mi) (mkEntry (fst mi) now) m)
                milestones (_msIndexToNode s) in
    highlightMilestones now
      (mkState (_graph s) (_existingIds s) (_newItems s) (_removeNodes s) ms
               (_smallNetworkInterval s) (itemCount s) (selectedFeedItem s))
  else s.

End Network.

(** *** One animation frame *)

(** [drawUpdates], for a graph that has been set up; the renderer comes
    with the graph. [None] when the pruning loop does not come to an end
    within [fuel] rounds. *)
Definition drawUpdates (fuel : nat) (now : Z) (s : State) : option State :=
  match _graph s with
  | Some g =>
      if (0 <? length (_newItems s))%nat then
        let consumeLength := JS.ceil_div (length (_newItems s)) 50 in
        let items := JS.slice_to consumeLength (_newItems s) in
        let newItems := JS.slice_from consumeLength (_newItems s) in
        let (g, added) := drawItems now items g in
        let existingIds := _existingIds s ++ added in
        let (existingIds, queue) := evict added existingIds (_removeNodes s) in
        let s1 := removeNodes
                    (mkState (Some g) existingIds newItems queue
                             (_msIndexToNode s) (_smallNetworkInterval s)
                             (itemCount s) (selectedFeedItem s)) in
        let s2 := mkState (_graph s1) (_existingIds s1) (_newItems s1)
                          (_removeNodes s1) (_msIndexToNode s1)
                          (S (_smallNetworkInterval s1)) (itemCount s1)
                          (selectedFeedItem s1) in
        match
            (if (_smallNetworkInterval s mod 100 =? 0)%nat
             then removeSmallNetworks fuel now s2 else Some s2)
        with
        | Some s3 =>
            Some (mkState (_graph s3) (_existingIds s3) (_newItems s3)
                          (_removeNodes s3) (_msIndexToNode s3)
                          (_smallNetworkInterval s3) (length (_existingIds s3))
                          (selectedFeedItem s3))
        | None => None
        end
      else Some s
  | None => Some s
  end.

(** *** The animation loop *)

(** The animation loop: [drawUpdates] asks for the next frame every
    time it has run; one time stamp for every frame. *)
Fixpoint frames (fuel : nat) (times : list Z) (s : State) : option State :=
  match times with
  | [] => Some s
  | now :: rest =>
      match drawUpdates fuel now s with
      | Some s' => frames fuel rest s'
      | None => None
      end
  end.

(** *** The cones of a node *)

(** The [field] argument of [getNodeConnections]. *)
Inductive Field := FromId | ToId.

Definition fieldOf (field : Field) (link : Viva.Link) : string :=
  match field with
  | FromId => Viva.fromId link
  | ToId => Viva.toId link
  end.

(** The callback [getNodeConnections] hands to [forEachLinkedNode]; a
    link stands for its id, and [connectedNode.id] is the other end of
    the link (the graph library looks the node up by that id; in a graph
    whose links join nodes it is there). *)
Definition connectLink (field : Field) (currentNode : string)
    (acc : list string * list string * list Viva.Link) (link : Viva.Link)
  : list string * list string * list Viva.Link :=
  let '(nodesToProcess, usedNodes, connections) := acc in
  let connectedId := Viva.otherEnd currentNode link in
  if String.eqb (fieldOf field link) currentNode
     && negb (JS.includes usedNodes connectedId)
  then (nodesToProcess ++ [connectedId], usedNodes ++ [connectedId],
        connections ++ [link])
  else acc.

(** The loop [while (nodesToProcess.length > 0)]; [None] when it is
    still running after [fuel] rounds. [forEachLinkedNode] does nothing
    for an id that is not a node. *)
Fixpoint connectionsLoop (fuel : nat) (field : Field) (g : Graph)
    (nodesToProcess usedNodes : list string) (connections : list Viva.Link)
  : option (list Viva.Link) :=
  match nodesToProcess with
  | [] => Some connections
  | currentNode :: rest =>
      match fuel with
      | O => None
      | S fuel' =>
          if JS.truthy currentNode then
            let linksOfNode :=
              match Viva.getNode g currentNode with
              | Some _ => Viva.nodeLinks g currentNode
              | None => []
              end in
            let '(rest, usedNodes, connections) :=
              fold_left (connectLink field currentNode) linksOfNode
                        (rest, usedNodes, connections) in
            connectionsLoop fuel' field g rest usedNodes connections
          else connectionsLoop fuel' field g rest usedNodes connections
      end
  end.

(** [getNodeConnections(node, field)]. *)
Definition getNodeConnections (fuel : nat) (g : option Graph) (node : string)
    (field : Field) : option (list Viva.Link) :=
  match g with
  | Some g => connectionsLoop fuel field g [node] [node] []
  | None => Some []
  end.

End Visualizer.

(** ** The MAM page ([unnamed/part_000], class [Mam])

    Strings are sequences of 7-bit characters here: the upper-casing,
    the trimming and the length of the source are those of the language
    for such strings only, and the properties below ask for them. *)

Module Mam.

Definition isAscii7 (s : string) : bool :=
  forallb (fun c => (nat_of_ascii c <? 128)%nat) (list_ascii_of_string s).

(** [c.toUpperCase()] for one 7-bit character. *)
Definition upper (c : ascii) : ascii :=
  let n := nat_of_ascii c in
  if ((97 <=? n) && (n <=? 122))%nat then ascii_of_nat (n - 32) else c.

(** [s.toUpperCase()]. *)
Fixpoint toUpperCase (s : string) : string :=
  match s with
  | EmptyString => EmptyString
  | String c r => String (upper c) (toUpperCase r)
  end.

(** The class [[9A-Z]]. *)
Definition isTryte (c : ascii) : bool :=
  let n := nat_of_ascii c in
  (n =? 57)%nat || ((65 <=? n) && (n <=? 90))%nat.

(** [/^[9A-Z]*$/.test(s)]. *)
Definition allTrytes (s : string) : bool :=
  forallb isTryte (list_ascii_of_string s).

(** White space and line terminators among the 7-bit characters. *)
Definition isWhiteSpace (c : ascii) : bool :=
  let n := nat_of_ascii c in
  ((9 <=? n) && (n <=? 13))%nat || (n =? 32)%nat.

Fixpoint trimStart (s : string) : string :=
  match s with
  | EmptyString => EmptyString
  | String c r => if isWhiteSpace c then trimStart r else s
  end.

Definition reverse (s : string) : string :=
  string_of_list_ascii (rev (list_ascii_of_string s)).

(** [s.trim()]. *)
Definition trim (s : string) : string :=
  reverse (trimStart (reverse (trimStart s))).

Record State := mkState {
  root : string;
  mode : string;
  sideKey : string;
  rootValidation : string;
  sideKeyValidation : string;
  isValid : bool;
  _timeout : Z
}.

(** The constructor, for the route parameters that are given. *)
Definition constructed (hash mode key : option string) : State :=
  let orElse := fun (o : option string) (d : string) =>
    match o with
    | Some s => if String.eqb s EmptyString then d else s
    | None => d
    end in
  mkState (orElse hash EmptyString) (orElse mode "public"%string)
          (orElse key EmptyString) EmptyString EmptyString false 100.

(** [validate]: the state it sets, and what it returns. *)
Definition validate (s : State) : State * bool :=
  let rootValidation := EmptyString in
  let sideKeyValidation := EmptyString in
  let root := toUpperCase (root s) in
  let rootValidation :=
    if (0 <? String.length root)%nat then
      let rootValidation :=
        if negb (String.length root =? 81)%nat
        then ("The root must be 81 in length, it is "
              ++ NilZero.string_of_uint (Nat.to_uint (String.length root))
              ++ ".")%string
        else rootValidation in
      if negb (allTrytes root)
      then "Trytes must be characters A-Z or 9."%string
      else rootValidation
    else rootValidation in
  let sideKeyValidation :=
    if String.eqb (mode s) "restricted"%string then
      if (String.length (trim (sideKey s)) =? 0)%nat
      then "You must specify a key for restricted mode."%string
      else sideKeyValidation
    else sideKeyValidation in
  let valid := (String.length rootValidation =? 0)%nat
               && (String.length sideKeyValidation =? 0)%nat in
  (mkState (Mam.root s) (mode s) (sideKey s) rootValidation sideKeyValidation
           valid (_timeout s),
   valid).

(** What [loadNextPacket] does to the waiting time when it reads the
    channel: back to 100 ms when a packet is there, 500 ms more, as long
    as the time is below 10 s, when there is none. [findData] sets
    100 ms as well. *)
Inductive Reading := PacketFound | NoPacket | FindData.

Definition nextTimeout (timeout : Z) (r : Reading) : Z :=
  match r with
  | PacketFound => 100
  | FindData => 100
  | NoPacket => if (timeout <? 10000)%Z then timeout + 500 else timeout
  end.

End Mam.


(** ** Sample inputs

    Concrete decoders, callbacks and batches on which the models are
    run. *)

Module Samples.

(** A decimal numeral as a string. *)
Definition numeral (n : nat) : string := NilZero.string_of_uint (Nat.to_uint n).

(** [count] raw items (or ids) [tag0], [tag1], ... *)
Definition numbered (tag : string) (count : nat) : list string :=
  map (fun n => (tag ++ numeral n)%string) (seq 0 count).

(** A decoder for raw items that spell out what they are: the first
    letter gives the payload ([Z] a transaction of value zero, [V] a
    transaction of value 7, [I] an indexation, [M] a milestone, anything
    else no payload) and the whole string is the id. *)
Definition decode (raw : string) : FeedClient.IFeedItem :=
  let mk := fun v ty => FeedClient.mkItem raw v [] [] ty None in
  match raw with
  | String "Z"%char _ => mk (Some 0%Z) FeedClient.Transaction
  | String "V"%char _ => mk (Some 7%Z) FeedClient.Transaction
  | String "I"%char _ => mk None FeedClient.Index
  | String "M"%char _ => mk None FeedClient.MS
  | _ => mk None FeedClient.NonePayload
  end.

(** Feed items of the earlier shape: a transaction with one parent, and
    a milestone. *)
Definition child (i parent : string) (v : Z) : Model.IFeedItem :=
  Model.mkItem i (Some v) parent "" Model.noMeta (Some Model.Transaction) false.

Definition milestone (i : string) (index : Z) : Model.IFeedItem :=
  Model.mkItem i None "" "" (Model.mkMeta (Some index) []) (Some Model.MS) false.



(** [count] transactions [<from><tag>], [<from+1><tag>], ..., each the
    child of the one numbered before it (the one numbered 0 has no
    parent). *)
Definition chainOf (tag : string) (from count : nat) : list Model.IFeedItem :=
  map (fun n => child (numeral n ++ tag)
                      (match n with O => "" | S m => numeral m ++ tag end) 0)
      (seq from count).

Definition chain (count : nat) : list Model.IFeedItem := chainOf "c" 0 count.

(** [count] transactions without parents. *)
Definition singles (count : nat) : list Model.IFeedItem :=
  map (fun n => child (numeral n ++ "s") "" 0) (seq 0 count).

(** Two hundred frames, one item each. At time 0 a chain of sixty and
    forty items on their own are drawn; the frame at time 100000 draws
    [x] and prunes; then a chain of five, [0f] to [4f], and ninety-four
    more items of the long chain are drawn. *)
Definition twoHundredFrames : list (Z * Model.IFeedItem) :=
  map (fun it => (0%Z, it)) (chainOf "c" 0 60 ++ singles 40)
  ++ [(100000%Z, child "x" "" 0)]
  ++ map (fun it => (100000%Z, it)) (chainOf "f" 0 5 ++ chainOf "c" 60 94).

Definition returns : FeedClient.Callback := fun _ _ => FeedClient.Returned.

End Samples.

(** * Properties *)

(** ** Facts about lists and the array operations *)

Module JSFacts.

Import JS.

Section Arrays.
Context {A : Type}.

Lemma map_fst_combine_seq (l : list A) (n : nat) :
  map fst (combine (seq n (length l)) l) = seq n (length l).
Proof.
  revert n; induction l as [|a l IH]; intros n; simpl; [reflexivity|].
  now rewrite IH.
Qed.

Lemma map_snd_combine_seq (l : list A) (n : nat) :
  map snd (combine (seq n (length l)) l) = l.
Proof.
  revert n; induction l as [|a l IH]; intros n; simpl; [reflexivity|].
  now rewrite IH.
Qed.

Lemma indexed_NoDup (l : list A) : NoDup (map fst (indexed l)).
Proof. unfold indexed. rewrite map_fst_combine_seq. apply seq_NoDup. Qed.

Lemma indexed_snd (l : list A) : map snd (indexed l) = l.
Proof. apply map_snd_combine_seq. Qed.

Lemma filter_map_snd (p : A -> bool) (its : list (nat * A)) :
  map snd (filter (fun t => p (snd t)) its) = filter p (map snd its).
Proof.
  induction its as [|t its IH]; simpl; [reflexivity|].
  destruct (p (snd t)); simpl; now rewrite IH.
Qed.

Lemma filter_comm (p q : A -> bool) (l : list A) :
  filter p (filter q l) = filter q (filter p l).
Proof.
  induction l as [|a l IH]; simpl; [reflexivity|].
  destruct (p a) eqn:Hp, (q a) eqn:Hq; simpl; rewrite ?Hp, ?Hq, IH; reflexivity.
Qed.

Lemma NoDup_map_fst_filter (p : nat * A -> bool) (its : list (nat * A)) :
  NoDup (map fst its) -> NoDup (map fst (filter p its)).
Proof.
  induction its as [|t its IH]; simpl; intros H; [constructor|].
  inversion H as [|? ? Hn Hd]; subst.
  destruct (p t); simpl; [constructor|]; auto.
  intros Hin. apply Hn.
  apply in_map_iff in Hin as [u [Hu Hin]].
  apply filter_In in Hin as [Hin _].
  apply in_map_iff. now exists u.
Qed.

Lemma includes_ref_true (refs : list (nat * A)) (t : nat * A) :
  includes_ref refs t = true <-> exists u, In u refs /\ fst u = fst t.
Proof.
  unfold includes_ref. rewrite existsb_exists. split.
  - intros [i [Hi He]]. apply Nat.eqb_eq in He.
    apply in_map_iff in Hi as [u [Hu Hin]]. exists u. split; congruence.
  - intros [u [Hin He]]. exists (fst u). split.
    + now apply in_map.
    + apply Nat.eqb_eq. congruence.
Qed.

Lemma filter_all (B : Type) (p : B -> bool) (l : list B) :
  (forall t, In t l -> p t = true) -> filter p l = l.
Proof.
  induction l as [|a l IH]; simpl; intros H; [reflexivity|].
  rewrite (H a) by now left. f_equal. apply IH. intros; apply H. now right.
Qed.

Lemma filter_none (B : Type) (p : B -> bool) (l : list B) :
  (forall t, In t l -> p t = false) -> filter p l = [].
Proof.
  induction l as [|a l IH]; simpl; intros H; [reflexivity|].
  rewrite (H a) by now left. apply IH. intros; apply H. now right.
Qed.

Lemma NoDup_app_disjoint (B : Type) (l1 l2 : list B) (x : B) :
  NoDup (l1 ++ l2) -> In x l1 -> In x l2 -> False.
Proof.
  induction l1 as [|a l1 IH]; simpl; intros Hnd H1 H2; [easy|].
  inversion Hnd as [|? ? Hn Hd]; subst.
  destruct H1 as [->|H1]; [|now apply IH].
  apply Hn. apply in_or_app. now right.
Qed.

Lemma filter_not_in_suffix (l1 l2 : list (nat * A)) :
  NoDup (map fst (l1 ++ l2)) ->
  filter (fun t => negb (includes_ref l2 t)) (l1 ++ l2) = l1.
Proof.
  intros Hnd. rewrite filter_app.
  rewrite (@filter_all _ _ l1), (@filter_none _ _ l2).
  - apply app_nil_r.
  - intros t Ht. apply negb_false_iff. apply includes_ref_true. now exists t.
  - intros t Ht. apply negb_true_iff. apply not_true_is_false. intros Hc.
    apply includes_ref_true in Hc as [u [Hu He]].
    rewrite map_app in Hnd.
    apply (NoDup_app_disjoint _ _ (fst t) Hnd); [now apply in_map|].
    rewrite <- He. now apply in_map.
Qed.

(** In an array of distinct objects, throwing out the elements past
    position [n] leaves the first [n]. *)
Lemma filter_not_in_skipn (n : nat) (l : list (nat * A)) :
  NoDup (map fst l) ->
  filter (fun t => negb (includes_ref (skipn n l) t)) l = firstn n l.
Proof.
  intros Hnd.
  pose proof (filter_not_in_suffix (firstn n l) (skipn n l)) as H.
  rewrite firstn_skipn in H. now apply H.
Qed.

End Arrays.

End JSFacts.

(** ** The retention sweep keeps the newest items of every category *)

Module RetentionFacts.

Import JS JSFacts Retention.

Section Sweep.
Context {A : Type}.
Variable MIN : Z.
Hypothesis MIN_nonneg : (0 <= MIN)%Z.

Lemma toRemove_skipn (p : A -> bool) (its : list (nat * A)) :
  toRemove MIN p its
  = skipn (Z.to_nat MIN) (filter (fun t => p (snd t)) its).
Proof.
  unfold toRemove, slice_neg.
  set (cat := filter (fun t => p (snd t)) its).
  destruct (0 <? Z.of_nat (length cat) - MIN)%Z eqn:E.
  - apply Z.ltb_lt in E. f_equal. lia.
  - apply Z.ltb_ge in E. symmetry. apply skipn_all2. lia.
Qed.

Lemma toRemove_In (p : A -> bool) (its : list (nat * A)) (u : nat * A) :
  In u (toRemove MIN p its) -> In u its /\ p (snd u) = true.
Proof.
  rewrite toRemove_skipn. intros H.
  assert (Hin : In u (filter (fun t => p (snd t)) its)).
  { rewrite <- (firstn_skipn (Z.to_nat MIN)). apply in_or_app. now right. }
  now apply filter_In in Hin.
Qed.

Lemma NoDup_fst_inj (its : list (nat * A)) (u t : nat * A) :
  NoDup (map fst its) -> In u its -> In t its -> fst u = fst t -> u = t.
Proof.
  induction its as [|a its IH]; simpl; intros Hnd Hu Ht He; [easy|].
  inversion Hnd as [|? ? Hn Hd]; subst.
  destruct Hu as [->|Hu], Ht as [->|Ht]; auto.
  - exfalso. apply Hn. rewrite He. now apply in_map.
  - exfalso. apply Hn. rewrite <- He. now apply in_map.
Qed.

(** What is left of one category: its first [MIN] items, that is the
    newest ones, the array being kept newest first. *)
Theorem keep_category (cats : list (A -> bool)) (i : nat) (p : A -> bool)
    (l : list A) :
  disjoint cats -> nth_error cats i = Some p ->
  filter p (keep MIN cats l) = firstn (Z.to_nat MIN) (filter p l).
Proof.
  intros Hdis Hp. unfold keep.
  set (its := indexed l).
  assert (Hnd : NoDup (map fst its)) by apply indexed_NoDup.
  rewrite <- filter_map_snd, filter_comm.
  set (cat := filter (fun t => p (snd t)) its).
  assert (Hcat : filter (fun t => negb (includes_ref (removeItems MIN cats its) t)) cat
                 = filter (fun t => negb (includes_ref (skipn (Z.to_nat MIN) cat) t)) cat).
  { apply filter_ext_in. intros t Ht. f_equal.
    apply filter_In in Ht as [Hin Hpt].
    apply eq_true_iff_eq. rewrite !includes_ref_true. split.
    - intros [u [Hu He]]. exists u. split; [|exact He].
      unfold removeItems in Hu. apply in_flat_map in Hu as [q [Hq Hu]].
      apply In_nth_error in Hq as [j Hj].
      pose proof (toRemove_In _ _ _ Hu) as [Huin Hqu].
      assert (u = t) by (eapply NoDup_fst_inj; eauto). subst u.
      destruct (Nat.eq_dec i j) as [->|Hne].
      + assert (q = p) by congruence. subst q.
        now rewrite toRemove_skipn in Hu.
      + rewrite (Hdis i j p q (snd t) Hne Hp Hj Hpt) in Hqu. discriminate.
    - intros [u [Hu He]]. exists u. split; [|exact He].
      unfold removeItems. apply in_flat_map. exists p. split.
      + eapply nth_error_In; eauto.
      + now rewrite toRemove_skipn. }
  rewrite Hcat, filter_not_in_skipn.
  - rewrite <- firstn_map. unfold cat. rewrite filter_map_snd.
    unfold its. now rewrite indexed_snd.
  - apply NoDup_map_fst_filter. exact Hnd.
Qed.

(** An item outside every category stays. *)
Theorem keep_uncategorised (cats : list (A -> bool)) (p : A -> bool)
    (l : list A) :
  (forall q x, In q cats -> p x = true -> q x = false) ->
  filter p (keep MIN cats l) = filter p l.
Proof.
  intros Hout. unfold keep.
  set (its := indexed l).
  rewrite <- filter_map_snd, filter_comm.
  rewrite (@filter_all _ _ (filter (fun t => p (snd t)) its)).
  - rewrite filter_map_snd. unfold its. now rewrite indexed_snd.
  - intros t Ht. apply filter_In in Ht as [Hin Hpt].
    apply negb_true_iff. apply not_true_is_false. intros Hc.
    apply includes_ref_true in Hc as [u [Hu He]].
    unfold removeItems in Hu. apply in_flat_map in Hu as [q [Hq Hu]].
    pose proof (toRemove_In _ _ _ Hu) as [Huin Hqu].
    assert (u = t) by (eapply NoDup_fst_inj; eauto; apply indexed_NoDup).
    subst u. rewrite (Hout q (snd t) Hq Hpt) in Hqu. discriminate.
Qed.

(** A burst of at least [MIN] items of one category pushes every older
    item of the category out. *)
Lemma keep_burst (cats : list (A -> bool)) (i : nat) (p : A -> bool)
    (burst old : list A) :
  disjoint cats -> nth_error cats i = Some p ->
  (forall x, In x burst -> p x = true) ->
  (Z.to_nat MIN <= length burst)%nat ->
  filter p (keep MIN cats (burst ++ old)) = firstn (Z.to_nat MIN) burst.
Proof.
  intros Hdis Hp Hall Hlen.
  rewrite (@keep_category cats i p _ Hdis Hp), filter_app, (@filter_all _ _ _ Hall).
  rewrite firstn_app.
  replace (Z.to_nat MIN - length burst)%nat with 0%nat by lia.
  simpl. apply app_nil_r.
Qed.

(** A category the burst has no item of keeps what it had, up to [MIN]. *)
Lemma keep_other (cats : list (A -> bool)) (i : nat) (q : A -> bool)
    (burst old : list A) :
  disjoint cats -> nth_error cats i = Some q ->
  (forall x, In x burst -> q x = false) ->
  filter q (keep MIN cats (burst ++ old))
  = firstn (Z.to_nat MIN) (filter q old).
Proof.
  intros Hdis Hq Hnone.
  now rewrite (@keep_category cats i q _ Hdis Hq), filter_app, (@filter_none _ _ _ Hnone).
Qed.

(** The sweep only takes items away, and keeps the order. *)
Lemma keep_sublist (cats : list (A -> bool)) (l : list A) (x : A) :
  In x (keep MIN cats l) -> In x l.
Proof.
  unfold keep. intros H. apply in_map_iff in H as [t [<- Ht]].
  apply filter_In in Ht as [Ht _].
  rewrite <- (indexed_snd l). now apply in_map.
Qed.

End Sweep.

End RetentionFacts.

(** ** The feed client *)

Module FeedClientFacts.

Import JS JSFacts FeedClient.

Section Client.
Variable convertItem : string -> IFeedItem.
Variable protocolVersion : option string.

Local Abbreviation sweep := (sweep protocolVersion).
Local Abbreviation categories := (categories protocolVersion).
Local Abbreviation onTransactions := (onTransactions convertItem protocolVersion).
Local Abbreviation filteredNewItems := (filteredNewItems convertItem).
Local Abbreviation step := (step convertItem protocolVersion).
Local Abbreviation run := (run convertItem protocolVersion).

Definition MIN : nat := Z.to_nat MIN_ITEMS_PER_TYPE.

Lemma sweep_keep (l : list IFeedItem) :
  sweep l = Retention.keep MIN_ITEMS_PER_TYPE categories l.
Proof.
  unfold FeedClient.sweep, FeedClient.categories, Retention.keep,
    Retention.removeItems, toRemove.
  destruct (isOg protocolVersion); simpl; now rewrite ?app_nil_r, ?app_assoc.
Qed.

Lemma isPayload_disjoint (a b : PayloadType) (x : IFeedItem) :
  a <> b -> isPayload a x = true -> isPayload b x = false.
Proof.
  unfold isPayload. destruct a, b, (payloadType x); simpl; congruence.
Qed.

Lemma categories_disjoint : Retention.disjoint categories.
Proof.
  unfold Retention.disjoint, FeedClient.categories.
  intros i j p q x Hne Hi Hj Hp.
  destruct (isOg protocolVersion).
  - destruct i as [|[|[|i]]], j as [|[|[|j]]]; simpl in Hi, Hj;
      try congruence; try (destruct i; discriminate);
      try (destruct j; discriminate);
      injection Hi as <-; injection Hj as <-;
      unfold isZero, isNonZero in *;
      destruct (isPayload Transaction x), (value x) as [v|]; simpl in *;
      try congruence; destruct (v =? 0)%Z; simpl in *; congruence.
  - destruct i as [|[|[|[|i]]]], j as [|[|[|[|j]]]]; simpl in Hi, Hj;
      try congruence; try (destruct i; discriminate);
      try (destruct j; discriminate);
      injection Hi as <-; injection Hj as <-;
      (eapply isPayload_disjoint; [|eassumption]; congruence).
Qed.

(** Every category of the sweep is cut down to its newest
    [MIN_ITEMS_PER_TYPE] items. *)
Lemma sweep_category (p : IFeedItem -> bool) (l : list IFeedItem) :
  In p categories -> filter p (sweep l) = firstn MIN (filter p l).
Proof.
  intros Hp. apply In_nth_error in Hp as [i Hi].
  rewrite sweep_keep.
  eapply RetentionFacts.keep_category; eauto using categories_disjoint.
Qed.

Lemma sweep_In (l : list IFeedItem) (x : IFeedItem) :
  In x (sweep l) -> In x l.
Proof. rewrite sweep_keep. apply RetentionFacts.keep_sublist. Qed.

(** *** Merging metadata leaves ids, values and payload types alone *)

Definition shape (t : IFeedItem) : string * option Z * PayloadType :=
  (id t, value t, payloadType t).

Lemma mergeInto_shape (mid : string) (upd : IFeedItemMetadata)
    (l : list IFeedItem) :
  map shape (mergeInto mid upd l) = map shape l.
Proof.
  induction l as [|c l IH]; simpl; [reflexivity|].
  destruct (String.eqb (id c) mid); simpl; [reflexivity|now rewrite IH].
Qed.

Lemma mergeMetadata_shape (md : option (list (string * IFeedItemMetadata)))
    (l : list IFeedItem) :
  map shape (mergeMetadata md l) = map shape l.
Proof.
  destruct md as [u|]; simpl; [|reflexivity].
  revert l. induction u as [|kv u IH]; intros l; simpl; [reflexivity|].
  now rewrite IH, mergeInto_shape.
Qed.

Lemma mergeMetadata_ids (md : option (list (string * IFeedItemMetadata)))
    (l : list IFeedItem) :
  map id (mergeMetadata md l) = map id l.
Proof.
  pose proof (mergeMetadata_shape md l) as H.
  apply (f_equal (map (fun x => fst (fst x)))) in H.
  now rewrite !map_map in H.
Qed.

(** A test that only looks at the shape counts the same items before
    and after a merge. *)
Lemma filter_shape_length (p : IFeedItem -> bool) (l l' : list IFeedItem) :
  (forall a b, shape a = shape b -> p a = p b) ->
  map shape l = map shape l' ->
  length (filter p l) = length (filter p l').
Proof.
  intros Hp. revert l'. induction l as [|a l IH]; intros [|b l'] H;
    simpl in *; try discriminate; [reflexivity|].
  pose proof (f_equal (hd (shape a)) H) as Hab.
  pose proof (f_equal (@tl _) H) as Hl. simpl in Hab, Hl.
  rewrite (Hp a b Hab).
  destruct (p b); simpl; auto.
Qed.

Lemma category_shape (p : IFeedItem -> bool) :
  In p categories \/ p = isZero ->
  forall a b, shape a = shape b -> p a = p b.
Proof.
  intros Hp a b H. unfold shape in H. injection H as Hi Hv Ht.
  assert (Hc : forall ty, isPayload ty a = isPayload ty b)
    by (intros; unfold isPayload; now rewrite Ht).
  destruct Hp as [Hp| ->].
  - unfold FeedClient.categories in Hp.
    destruct (isOg protocolVersion); simpl in Hp;
      repeat (destruct Hp as [<-|Hp]); try easy;
      unfold isZero, isNonZero; now rewrite ?Hc, ?Hv.
  - unfold isZero. now rewrite Hc, Hv.
Qed.

(** *** The existing-id list mirrors the window *)

Lemma step_existingIds (s : State) (e : Event) :
  _existingIds s = map id (_items s) ->
  _existingIds (step s e) = map id (_items (step s e)).
Proof.
  intros H. destruct e as [sid cb|err sid|sid|m]; simpl; auto.
  - unfold onSubscribe. now destruct err.
  - unfold FeedClient.onTransactions.
    destruct (_subscriptionId s) as [mine|]; [|exact H].
    destruct (String.eqb (subscriptionId m) mine); [|exact H].
    simpl. destruct (0 <? length (filteredNewItems s m))%nat; simpl.
    + reflexivity.
    + now rewrite mergeMetadata_ids.
Qed.

Lemma run_existingIds (es : list Event) :
  _existingIds (run es) = map id (_items (run es)).
Proof.
  unfold FeedClient.run.
  assert (G : forall s, _existingIds s = map id (_items s) ->
            _existingIds (fold_left step es s)
            = map id (_items (fold_left step es s))).
  { induction es as [|e es IH]; intros s Hs; simpl; [exact Hs|].
    apply IH. now apply step_existingIds. }
  apply G. reflexivity.
Qed.

Lemma includes_In (l : list string) (x : string) :
  includes l x = true <-> In x l.
Proof.
  unfold includes. rewrite existsb_exists. split.
  - intros [y [Hy He]]. apply String.eqb_eq in He. now subst.
  - intros H. exists x. split; [exact H|apply String.eqb_refl].
Qed.




(** *** Retention *)

Lemma isZero_isTransaction (l : list IFeedItem) :
  filter isZero l = filter isZero (filter (isPayload Transaction) l).
Proof.
  induction l as [|a l IH]; simpl; [reflexivity|].
  destruct (isPayload Transaction a) eqn:E; simpl.
  - destruct (isZero a); now rewrite IH.
  - assert (Hz : isZero a = false) by (unfold isZero; now rewrite E).
    now rewrite Hz.
Qed.

Lemma firstn_app_long (B : Type) (n : nat) (l1 l2 : list B) :
  (n <= length l1)%nat -> firstn n (l1 ++ l2) = firstn n l1.
Proof.
  intros H. rewrite firstn_app.
  replace (n - length l1)%nat with 0%nat by lia. simpl. apply app_nil_r.
Qed.

(** After a burst of at least [MIN_ITEMS_PER_TYPE] zero-value
    transactions the window holds exactly that many of them. *)
Lemma sweep_zero_burst (burst old : list IFeedItem) :
  (forall x, In x burst -> isZero x = true) ->
  (MIN <= length burst)%nat ->
  filter isZero (sweep (burst ++ old)) = firstn MIN burst.
Proof.
  intros Hall Hlen.
  destruct (isOg protocolVersion) eqn:Og.
  - rewrite sweep_category
      by (unfold FeedClient.categories; rewrite Og; now left).
    now rewrite filter_app, (@filter_all _ _ _ Hall), firstn_app_long.
  - rewrite isZero_isTransaction.
    rewrite sweep_category
      by (unfold FeedClient.categories; rewrite Og; now left).
    assert (Htx : forall x, In x burst -> isPayload Transaction x = true).
    { intros x Hx. specialize (Hall x Hx). unfold isZero in Hall.
      now apply andb_true_iff in Hall. }
    rewrite filter_app, (@filter_all _ _ _ Htx), firstn_app_long by exact Hlen.
    apply filter_all. intros x Hx. apply Hall.
    rewrite <- (firstn_skipn MIN burst). apply in_or_app. now left.
Qed.

Lemma onTransactions_accepted (s : State) (m : IFeedSubscriptionMessage) :
  _subscriptionId s = Some (subscriptionId m) ->
  onTransactions m s
  = let merged := mergeMetadata (itemsMetadata m) (_items s) in
    let fresh := filteredNewItems s m in
    let s' :=
      if (0 <? length fresh)%nat then
        mkState (sweep (fresh ++ merged)) (map id (sweep (fresh ++ merged)))
                (_subscriptionId s) (_subscribers s)
      else mkState merged (_existingIds s) (_subscriptionId s)
                   (_subscribers s) in
    (s', fst (notify (_subscribers s') fresh (itemsMetadata m))).
Proof.
  intros H. unfold FeedClient.onTransactions. rewrite H, String.eqb_refl.
  reflexivity.
Qed.

Lemma onTransactions_subscribers (s : State) (m : IFeedSubscriptionMessage) :
  _subscribers (fst (onTransactions m s)) = _subscribers s.
Proof.
  unfold FeedClient.onTransactions.
  destruct (_subscriptionId s) as [mine|]; [|reflexivity].
  destruct (String.eqb (subscriptionId m) mine); [|reflexivity].
  simpl. now destruct (0 <? length (filteredNewItems s m))%nat.
Qed.

(** C5, as amended. When a message brings new items, every category of
    the sweep is cut down to its [MIN_ITEMS_PER_TYPE] newest items (all
    of them when it has fewer), and nothing else is dropped or added. In
    particular, after a burst of at least [MIN_ITEMS_PER_TYPE] (say 1000)
    new zero-value transactions the window holds exactly
    [MIN_ITEMS_PER_TYPE] zero-value transactions, and every category the
    burst has no item of holds as many items as before, up to
    [MIN_ITEMS_PER_TYPE]. *)
Theorem retention_keeps_newest_per_category
    (s : State) (m : IFeedSubscriptionMessage) :
  _subscriptionId s = Some (subscriptionId m) ->
  filteredNewItems s m <> [] ->
  let fresh := filteredNewItems s m in
  let window := fresh ++ mergeMetadata (itemsMetadata m) (_items s) in
  let s' := fst (onTransactions m s) in
  (forall p, In p categories ->
     filter p (_items s') = firstn MIN (filter p window))
  /\ (forall x, In x (_items s') -> In x window)
  /\ ((forall x, In x fresh -> isZero x = true) ->
      (MIN <= length fresh)%nat ->
      length (filter isZero (_items s')) = MIN
      /\ forall q, In q categories ->
           (forall x, In x fresh -> q x = false) ->
           length (filter q (_items s'))
           = Nat.min MIN (length (filter q (_items s)))).
Proof.
  intros Hsub Hne fresh window s'.
  assert (Hs' : _items s' = sweep window).
  { unfold s'. rewrite onTransactions_accepted by exact Hsub. simpl.
    destruct (filteredNewItems s m) eqn:E; [congruence|reflexivity]. }
  rewrite Hs'. split; [|split; [|intros Hall Hlen; split]].
  - intros p Hp. now apply sweep_category.
  - intros x. apply sweep_In.
  - unfold window. rewrite sweep_zero_burst by assumption.
    now apply firstn_length_le.
  - intros q Hq Hnone. unfold window.
    rewrite sweep_category by exact Hq.
    rewrite filter_app, (@filter_none _ _ _ Hnone), app_nil_l.
    rewrite length_firstn. f_equal.
    apply filter_shape_length.
    + apply category_shape. now left.
    + apply mergeMetadata_shape.
Qed.




End Client.

Import Samples.
Local Open Scope string_scope.


(** The state after the feed answered the subscription and one
    indexation item came in. *)
Definition oneIndexItem : State :=
  run decode (Some "chrysalis")
      [SubscribeAnswer false "feed";
       Transactions (mkMessage "feed" ["I0"%string] None)].

Definition zeroBurst : IFeedSubscriptionMessage :=
  mkMessage "feed" (numbered "Z" 1000) None.

(** C5 as stated fails: the window holds one indexation item, a burst of
    1000 new zero-value transactions arrives, and the window still holds
    that one indexation item, which is fewer than
    [MIN_ITEMS_PER_TYPE]. *)
Lemma retention_floor_counterexample :
  let s' := fst (onTransactions decode (Some "chrysalis") zeroBurst oneIndexItem) in
  length (filteredNewItems decode oneIndexItem zeroBurst) = 1000%nat
  /\ forallb isZero (filteredNewItems decode oneIndexItem zeroBurst) = true
  /\ length (filter (isPayload Index) (_items oneIndexItem)) = 1%nat
  /\ length (filter (isPayload Index) (_items s')) = 1%nat
  /\ ~ (MIN_ITEMS_PER_TYPE
        <= Z.of_nat (length (filter (isPayload Index) (_items s'))))%Z.
Proof.
  vm_compute. repeat split; try reflexivity. intros H. apply H. reflexivity.
Qed.

Lemma retention_keeps_newest_per_category_witness :
  let s' := fst (onTransactions decode (Some "chrysalis") zeroBurst oneIndexItem) in
  length (filter isZero (_items s')) = 50%nat
  /\ length (filter (isPayload Index) (_items s')) = 1%nat.
Proof.
  intros s'.
  assert (Hsub : _subscriptionId oneIndexItem = Some (subscriptionId zeroBurst))
    by reflexivity.
  assert (Hne : filteredNewItems decode oneIndexItem zeroBurst <> [])
    by (vm_compute; discriminate).
  destruct (retention_keeps_newest_per_category decode (Some "chrysalis")
              oneIndexItem zeroBurst Hsub Hne) as [_ [_ Hburst]].
  destruct Hburst as [Hzero Hother].
  - apply (proj1 (forallb_forall isZero _)). vm_compute. reflexivity.
  - vm_compute. lia.
  - fold s' in Hzero, Hother. split; [exact Hzero|].
    rewrite (Hother (isPayload Index)).
    + vm_compute. reflexivity.
    + unfold categories. right. now left.
    + intros x Hx.
      assert (Hz : isZero x = true).
      { revert x Hx. apply (proj1 (forallb_forall isZero _)).
        vm_compute. reflexivity. }
      unfold isZero in Hz. apply andb_true_iff in Hz as [Hz _].
      unfold isPayload in *. now destruct (payloadType x).
Defined.





End FeedClientFacts.

(** ** The graph library *)

Module VivaFacts.

Import Viva.

Section Graph.
Variable D : Type.
Implicit Types (g : Graph D) (x y : string) (l : Link).

Lemma getNode_In g x d : getNode g x = Some d -> In (x, d) (nodes g).
Proof.
  unfold getNode. destruct (List.find _ _) as [[k d']|] eqn:E; simpl;
    intros H; [|discriminate].
  injection H as <-. apply find_some in E as [Hin He].
  simpl in He. apply String.eqb_eq in He. now subst.
Qed.

Lemma getNode_None g x : getNode g x = None <-> ~ In x (nodeIds g).
Proof.
  unfold getNode, nodeIds. split.
  - destruct (List.find _ _) eqn:E; simpl; [discriminate|]. intros _ Hin.
    apply in_map_iff in Hin as [[k d] [Hk Hin]]. simpl in Hk. subst.
    pose proof (find_none _ _ E _ Hin) as Hf. simpl in Hf.
    now rewrite String.eqb_refl in Hf.
  - intros Hn. destruct (List.find _ _) as [[k d]|] eqn:E; [|reflexivity].
    exfalso. apply Hn. apply find_some in E as [Hin He]. simpl in He.
    apply String.eqb_eq in He. subst. apply in_map_iff. now exists (x, d).
Qed.

Lemma getNode_Some g x : (exists d, getNode g x = Some d) <-> In x (nodeIds g).
Proof.
  split.
  - intros [d Hd]. apply getNode_In in Hd. apply in_map_iff. now exists (x, d).
  - intros Hin. destruct (getNode g x) eqn:E; [eauto|].
    apply getNode_None in E. contradiction.
Qed.

Lemma hasNode_In g x : hasNode g x = true <-> In x (nodeIds g).
Proof.
  unfold hasNode. rewrite <- getNode_Some.
  destruct (getNode g x); split; eauto; try discriminate.
  intros [d Hd]. discriminate.
Qed.

Lemma setData_ids x (f : D -> D) (ns : list (string * D)) :
  map fst (setData x f ns) = map fst ns.
Proof.
  induction ns as [|[k d] r IH]; simpl; [reflexivity|].
  destruct (String.eqb k x); simpl; [reflexivity|now rewrite IH].
Qed.

Lemma find_setData_other x y (f : D -> D) (ns : list (string * D)) :
  x <> y ->
  List.find (fun n => String.eqb (fst n) y) (setData x f ns)
  = List.find (fun n => String.eqb (fst n) y) ns.
Proof.
  intros Hne. induction ns as [|[k d] r IH]; simpl; [reflexivity|].
  destruct (String.eqb k x) eqn:E; simpl.
  - apply String.eqb_eq in E. subst.
    destruct (String.eqb x y) eqn:E'; [|reflexivity].
    apply String.eqb_eq in E'. contradiction.
  - destruct (String.eqb k y); [reflexivity|exact IH].
Qed.

Lemma find_setData_same x (f : D -> D) (ns : list (string * D)) :
  List.find (fun n => String.eqb (fst n) x) (setData x f ns)
  = option_map (fun n => (fst n, f (snd n)))
               (List.find (fun n => String.eqb (fst n) x) ns).
Proof.
  induction ns as [|[k d] r IH]; simpl; [reflexivity|].
  destruct (String.eqb k x) eqn:E; simpl; rewrite E; [reflexivity|exact IH].
Qed.

Lemma getNode_updateNode_other g x y (f : D -> D) :
  x <> y -> getNode (updateNode g x f) y = getNode g y.
Proof.
  intros Hne. unfold getNode, updateNode. simpl.
  now rewrite find_setData_other.
Qed.

Lemma getNode_updateNode_same g x (f : D -> D) :
  getNode (updateNode g x f) x = option_map f (getNode g x).
Proof.
  unfold getNode, updateNode. simpl. rewrite find_setData_same.
  now destruct (List.find _ _).
Qed.

Lemma nodeIds_updateNode g x (f : D -> D) :
  nodeIds (updateNode g x f) = nodeIds g.
Proof. unfold nodeIds, updateNode. simpl. apply setData_ids. Qed.

Lemma getNode_updateNode_None g x y (f : D -> D) :
  getNode (updateNode g x f) y = None <-> getNode g y = None.
Proof. now rewrite !getNode_None, nodeIds_updateNode. Qed.

Lemma find_app_fst (B : Type) (p : B -> bool) (l1 l2 : list B) :
  List.find p (l1 ++ l2)
  = match List.find p l1 with Some b => Some b | None => List.find p l2 end.
Proof.
  induction l1 as [|a l1 IH]; simpl; [reflexivity|].
  destruct (p a); [reflexivity|exact IH].
Qed.

Lemma getNode_addNode_new g x d y :
  getNode g x = None ->
  getNode (addNode g x d) y
  = if String.eqb x y then Some d else getNode g y.
Proof.
  intros Hn. unfold addNode, hasNode. rewrite Hn.
  unfold getNode in *. simpl. rewrite find_app_fst. simpl.
  destruct (String.eqb x y) eqn:E.
  - apply String.eqb_eq in E. subst.
    destruct (List.find _ (nodes g)); [discriminate|reflexivity].
  - now destruct (List.find (fun n : string * D => String.eqb (fst n) y)
                            (nodes g)).
Qed.

Lemma nodeIds_addNode_new g x d :
  getNode g x = None -> nodeIds (addNode g x d) = nodeIds g ++ [x].
Proof.
  intros Hn. unfold addNode, hasNode. rewrite Hn.
  unfold nodeIds. simpl. now rewrite map_app.
Qed.

Lemma getNode_addLink g a b y : getNode (addLink g a b) y = getNode g y.
Proof. reflexivity. Qed.

Lemma removeNode_absent g x : getNode (removeNode g x) x = None.
Proof.
  unfold removeNode. destruct (hasNode g x) eqn:E.
  - apply getNode_None. unfold nodeIds. simpl. intros Hin.
    apply in_map_iff in Hin as [[k d] [Hk Hin]]. simpl in Hk. subst.
    apply filter_In in Hin as [_ Hf]. simpl in Hf.
    now rewrite String.eqb_refl in Hf.
  - unfold hasNode in E. now destruct (getNode g x).
Qed.

(** *** Removing links and nodes *)

Lemma Link_eqb_eq l l' : Link_eqb l l' = true <-> l = l'.
Proof.
  unfold Link_eqb. rewrite andb_true_iff, !String.eqb_eq.
  destruct l, l'; simpl. split; [intros [-> ->]; reflexivity|].
  intros H. now injection H.
Qed.

Lemma In_removeFirst l l' (ls : list Link) :
  In l' (removeFirst l ls) -> In l' ls.
Proof.
  induction ls as [|a ls IH]; simpl; [easy|].
  destruct (Link_eqb l a); [now right|].
  intros [H|H]; [now left|right; auto].
Qed.

Lemma In_removeFirst_other l l' (ls : list Link) :
  In l' ls -> l' <> l -> In l' (removeFirst l ls).
Proof.
  intros Hin Hne. induction ls as [|a ls IH]; simpl in *; [easy|].
  destruct (Link_eqb l a) eqn:E.
  - apply Link_eqb_eq in E. subst a. destruct Hin as [H|H]; [congruence|exact H].
  - destruct Hin as [H|H]; [now left|right; auto].
Qed.

Lemma length_removeFirst l (ls : list Link) :
  In l ls -> S (length (removeFirst l ls)) = length ls.
Proof.
  induction ls as [|a ls IH]; simpl; [easy|].
  destruct (Link_eqb l a) eqn:E; [reflexivity|].
  intros [H|H].
  - subst a. assert (Link_eqb l l = true) by now apply Link_eqb_eq.
    congruence.
  - simpl. now rewrite IH.
Qed.

Lemma nodes_removeLink g l : nodes (removeLink g l) = nodes g.
Proof. reflexivity. Qed.

Lemma map_fst_filter (p : string -> bool) (ns : list (string * D)) :
  map fst (filter (fun n => p (fst n)) ns) = filter p (map fst ns).
Proof.
  induction ns as [|n ns IH]; simpl; [reflexivity|].
  destruct (p (fst n)); simpl; now rewrite IH.
Qed.

Lemma nodes_removeNode g x :
  nodes (removeNode g x)
  = filter (fun n => negb (String.eqb (fst n) x)) (nodes g).
Proof.
  unfold removeNode. destruct (hasNode g x) eqn:E; [reflexivity|].
  symmetry. apply JSFacts.filter_all. intros n Hn.
  apply negb_true_iff. apply not_true_is_false. intros He.
  apply String.eqb_eq in He. subst x.
  assert (hasNode g (fst n) = true)
    by (apply hasNode_In; now apply in_map).
  congruence.
Qed.

Lemma nodeIds_removeNode g x :
  nodeIds (removeNode g x)
  = filter (fun y => negb (String.eqb y x)) (nodeIds g).
Proof.
  unfold nodeIds. rewrite nodes_removeNode.
  apply (map_fst_filter (fun y => negb (String.eqb y x))).
Qed.

Lemma links_removeNode_incl g x l :
  In l (links (removeNode g x)) -> In l (links g).
Proof.
  unfold removeNode. destruct (hasNode g x); simpl; [|auto].
  intros H. now apply filter_In in H.
Qed.

Lemma links_removeNode_keep g x l :
  In l (links g) -> touches x l = false -> In l (links (removeNode g x)).
Proof.
  intros Hin Ht. unfold removeNode. destruct (hasNode g x); simpl; [|auto].
  apply filter_In. split; [exact Hin|now rewrite Ht].
Qed.

(** The shape the library keeps: node ids are distinct and both ends of
    every link are nodes. *)
Definition wellFormed g : Prop :=
  NoDup (nodeIds g)
  /\ forall l, In l (links g) ->
       In (fromId l) (nodeIds g) /\ In (toId l) (nodeIds g).

Lemma wellFormed_removeLink g l : wellFormed g -> wellFormed (removeLink g l).
Proof.
  intros [Hnd Hl]. split; [exact Hnd|].
  intros l' Hin. apply Hl. simpl in Hin. now apply In_removeFirst in Hin.
Qed.

Lemma wellFormed_removeNode g x : wellFormed g -> wellFormed (removeNode g x).
Proof.
  intros [Hnd Hl]. split.
  - rewrite nodeIds_removeNode. now apply NoDup_filter.
  - intros l Hin. rewrite nodeIds_removeNode, !filter_In.
    unfold removeNode in Hin. destruct (hasNode g x) eqn:E; simpl in Hin.
    + apply filter_In in Hin as [Hin Ht]. destruct (Hl l Hin) as [Hf Hto].
      unfold touches in Ht. apply negb_true_iff, orb_false_iff in Ht as [H1 H2].
      repeat split; auto; now apply negb_true_iff.
    + destruct (Hl l Hin) as [Hf Hto].
      assert (Hx : ~ In x (nodeIds g)).
      { intros Hx. apply hasNode_In in Hx. congruence. }
      repeat split; auto; apply negb_true_iff, String.eqb_neq; congruence.
Qed.

Lemma wellFormed_same g g' :
  nodeIds g' = nodeIds g -> links g' = links g ->
  wellFormed g -> wellFormed g'.
Proof. unfold wellFormed. intros -> ->. auto. Qed.

Lemma nodeLinks_In g x l :
  In l (nodeLinks g x) <-> In l (links g) /\ touches x l = true.
Proof.
  unfold nodeLinks, touches. rewrite in_flat_map. split.
  - intros [l' [Hin H]].
    destruct (String.eqb (fromId l') x) eqn:E1,
      (String.eqb (toId l') x) eqn:E2; simpl in H;
      repeat (destruct H as [H|H]; subst; auto; try rewrite E1;
              try rewrite E2; auto); try easy.
    all: split; auto; rewrite ?E1, ?E2; auto using orb_true_r.
  - intros [Hin Ht]. exists l. split; [exact Hin|].
    destruct (String.eqb (fromId l) x), (String.eqb (toId l) x);
      simpl in *; auto; discriminate.
Qed.

End Graph.

End VivaFacts.

(** ** The visualizer *)

Module VisualizerFacts.

Import JS JSFacts Model Viva VivaFacts Visualizer.

(** *** Node styles *)

(** C9. The colour of a node is the first that applies of: search
    result when highlighted, milestone when [metaData.MS] is set (and
    not zero), value-confirmed when confirmed with a value other than
    zero, zero-confirmed when confirmed otherwise, pending. The size is
    large exactly when the node is a milestone or has a value other
    than zero, and regular otherwise; a missing node is pending and
    regular. *)
Theorem node_style_precedence (data : INodeData) (highlight : bool) :
  let t := feedItem data in
  let milestone := exists z, metaMS (metaData t) = Some z /\ z <> 0%Z in
  let valued := exists v, value t = Some v /\ v <> 0%Z in
  let color := fst (calculateNodeStyle (Some data) highlight) in
  let size := snd (calculateNodeStyle (Some data) highlight) in
  (color = COLOR_SEARCH_RESULT <-> highlight = true)
  /\ (color = COLOR_MILESTONE <-> highlight = false /\ milestone)
  /\ (color = COLOR_VALUE_CONFIRMED <->
      highlight = false /\ ~ milestone /\ confirmed t = true /\ valued)
  /\ (color = COLOR_ZERO_CONFIRMED <->
      highlight = false /\ ~ milestone /\ confirmed t = true /\ ~ valued)
  /\ (color = COLOR_PENDING <->
      highlight = false /\ ~ milestone /\ confirmed t = false)
  /\ (size = VERTEX_SIZE_LARGE <-> milestone \/ valued)
  /\ (size = VERTEX_SIZE_REGULAR <-> ~ (milestone \/ valued))
  /\ calculateNodeStyle None highlight = (COLOR_PENDING, VERTEX_SIZE_REGULAR).
Proof.
  intros t milestone valued color size.
  assert (Hm : isMilestone t = true <-> milestone).
  { unfold isMilestone, truthyMS, milestone.
    destruct (metaMS (metaData t)) as [z|].
    - destruct (z =? 0)%Z eqn:E.
      + apply Z.eqb_eq in E. split; [discriminate|].
        intros [z' [Hz Hne]]. congruence.
      + apply Z.eqb_neq in E. split; eauto.
    - split; [discriminate|]. intros [z [Hz _]]. discriminate. }
  assert (Hv : hasValue t = true <-> valued).
  { unfold hasValue, valued. destruct (value t) as [v|].
    - destruct (v =? 0)%Z eqn:E; simpl.
      + apply Z.eqb_eq in E. split; [discriminate|].
        intros [v' [Hz Hne]]. congruence.
      + apply Z.eqb_neq in E. split; eauto.
    - split; [discriminate|]. intros [z [Hz _]]. discriminate. }
  unfold color, size, calculateNodeStyle. fold t.
  destruct highlight, (isMilestone t) eqn:Em, (confirmed t) eqn:Ec,
    (hasValue t) eqn:Ev; simpl;
    repeat split; try discriminate; try reflexivity; try tauto;
    try (intros; intuition congruence);
    try (intros [? ?]; intuition congruence).
Qed.

(** *** Milestones *)

Lemma ms_get_set_same (k : Z) (v : MsEntry) (m : MsIndex) :
  ms_get k (ms_set k v m) = Some v.
Proof.
  unfold ms_get. induction m as [|[k' v'] r IH]; simpl.
  - now rewrite Z.eqb_refl.
  - destruct (k =? k')%Z eqn:E; simpl.
    + now rewrite Z.eqb_refl.
    + destruct (k <? k')%Z; simpl.
      * now rewrite Z.eqb_refl.
      * rewrite Z.eqb_sym, E. exact IH.
Qed.

Lemma ms_get_set_other (k k' : Z) (v : MsEntry) (m : MsIndex) :
  k <> k' -> ms_get k' (ms_set k v m) = ms_get k' m.
Proof.
  intros Hne. apply Z.eqb_neq in Hne.
  unfold ms_get. induction m as [|[j w] r IH]; simpl.
  - now rewrite Hne.
  - destruct (k =? j)%Z eqn:E; simpl.
    + apply Z.eqb_eq in E. subst j. now rewrite !Hne.
    + destruct (k <? j)%Z; simpl.
      * now rewrite Hne.
      * destruct (j =? k')%Z; [reflexivity|exact IH].
Qed.

Lemma ms_get_delete_same (k : Z) (m : MsIndex) :
  ms_get k (ms_delete k m) = None.
Proof.
  unfold ms_get, ms_delete. induction m as [|[j w] r IH]; simpl;
    [reflexivity|].
  destruct (j =? k)%Z eqn:E; simpl; [exact IH|]. now rewrite E.
Qed.

Lemma ms_get_delete_other (k k' : Z) (m : MsIndex) :
  k <> k' -> ms_get k' (ms_delete k m) = ms_get k' m.
Proof.
  intros Hne. unfold ms_get, ms_delete.
  induction m as [|[j w] r IH]; simpl; [reflexivity|].
  destruct (j =? k)%Z eqn:E; simpl.
  - apply Z.eqb_eq in E. subst j.
    apply Z.eqb_neq in Hne. now rewrite Hne.
  - destruct (j =? k')%Z; [reflexivity|exact IH].
Qed.

Lemma ms_get_In (k : Z) (e : MsEntry) (m : MsIndex) :
  ms_get k m = Some e -> In k (map fst m).
Proof.
  unfold ms_get. destruct (List.find _ _) as [[j w]|] eqn:E; simpl;
    [|discriminate].
  intros _. apply find_some in E as [Hin He]. simpl in He.
  apply Z.eqb_eq in He. subst. apply in_map_iff. now exists (k, w).
Qed.

Section Highlight.
Variable now : Z.
Variable g0 : Graph.
Variable ms0 : MsIndex.

(** What holds after the keys [done] have been gone through. *)
Record highlighted (done : list Z) (acc : Graph * MsIndex * list Z) : Prop := {
  hl_nodes : nodeIds (fst (fst acc)) = nodeIds g0;
  hl_none : forall k, ms_get k ms0 = None -> ms_get k (snd (fst acc)) = None;
  hl_gone : forall k e, ms_get k ms0 = Some e ->
    getNode g0 (msId e) = None -> ms_get k (snd (fst acc)) = Some e;
  hl_there : forall k e, ms_get k ms0 = Some e ->
    getNode g0 (msId e) <> None ->
    (In k done -> ms_get k (snd (fst acc)) = Some (mkEntry (msId e) now))
    /\ (ms_get k (snd (fst acc)) = Some e
        \/ ms_get k (snd (fst acc)) = Some (mkEntry (msId e) now));
  hl_stale : forall k, In k (snd acc) <->
    In k done /\ exists e, ms_get k ms0 = Some e
       /\ getNode g0 (msId e) = None /\ (300000 < now - lastSeen e)%Z
}.

Lemma getNode_same_ids (g g' : Graph) (x : string) :
  nodeIds g' = nodeIds g -> (getNode g' x = None <-> getNode g x = None).
Proof. intros H. now rewrite !getNode_None, H. Qed.

Lemma highlightOne_keeps (done : list Z) (acc : Graph * MsIndex * list Z)
    (k : Z) :
  highlighted done acc -> highlighted (done ++ [k]) (highlightOne now acc k).
Proof.
  intros [Hn Hnone Hgone Hthere Hstale].
  destruct acc as [[g ms] rem]. simpl in *. unfold highlightOne.
  destruct (ms_get k ms) as [entry|] eqn:Ek.
  - destruct (ms_get k ms0) as [e0|] eqn:E0;
      [|rewrite (Hnone k E0) in Ek; discriminate].
    destruct (getNode g0 (msId e0)) as [d0|] eqn:Ep.
    + (* the node is in the graph: the entry is refreshed *)
      assert (Hp : getNode g0 (msId e0) <> None) by congruence.
      assert (Hid : msId entry = msId e0).
      { destruct (Hthere k e0 E0 Hp) as [_ [H|H]]; rewrite H in Ek;
          injection Ek as <-; reflexivity. }
      rewrite Hid.
      destruct (getNode g (msId e0)) as [d|] eqn:Eg;
        [|apply (@getNode_same_ids g0 g _ Hn) in Eg; congruence].
      constructor; simpl.
      * now rewrite nodeIds_updateNode.
      * intros k' H'. destruct (Z.eq_dec k k') as [->|Hne]; [congruence|].
        rewrite ms_get_set_other by exact Hne. auto.
      * intros k' e' H' Ha. destruct (Z.eq_dec k k') as [->|Hne].
        -- congruence.
        -- rewrite ms_get_set_other by exact Hne. auto.
      * intros k' e' H' Hp'. destruct (Z.eq_dec k k') as [->|Hne].
        -- rewrite ms_get_set_same.
           assert (e' = e0) by congruence. subst. auto.
        -- rewrite ms_get_set_other by exact Hne.
           destruct (Hthere k' e' H' Hp') as [Hd Ho]. split; [|exact Ho].
           intros Hin. apply in_app_or in Hin as [Hin|[Hin|[]]]; auto.
           congruence.
      * intros k'. rewrite Hstale. split.
        -- intros [Hin He]. split; [apply in_or_app; now left|exact He].
        -- intros [Hin [e [He [Ha Hs]]]]. split; [|eauto].
           apply in_app_or in Hin as [Hin|[Hin|[]]]; [exact Hin|].
           subst k'. congruence.
    + (* the node is gone *)
      assert (entry = e0) by (rewrite (Hgone k e0 E0 Ep) in Ek; congruence).
      subst entry.
      destruct (getNode g (msId e0)) as [d|] eqn:Eg.
      { apply (@getNode_same_ids g0 g _ Hn) in Ep. congruence. }
      destruct (300000 <? now - lastSeen e0)%Z eqn:Es.
      * apply Z.ltb_lt in Es. constructor; simpl; auto.
        -- intros k' e' H' Hp'. destruct (Hthere k' e' H' Hp') as [Hd Ho].
           split; [|exact Ho]. intros Hin.
           apply in_app_or in Hin as [Hin|[Hin|[]]]; auto.
           subst k'. congruence.
        -- intros k'. rewrite in_app_iff, Hstale. simpl. split.
           ++ intros [[Hin He]|[<-|[]]].
              ** split; [apply in_or_app; now left|exact He].
              ** split; [apply in_or_app; right; now left|eauto].
           ++ intros [Hin He].
              apply in_app_or in Hin as [Hin|[Hin|[]]]; auto.
      * apply Z.ltb_ge in Es. constructor; simpl; auto.
        -- intros k' e' H' Hp'. destruct (Hthere k' e' H' Hp') as [Hd Ho].
           split; [|exact Ho]. intros Hin.
           apply in_app_or in Hin as [Hin|[Hin|[]]]; auto.
           subst k'. congruence.
        -- intros k'. rewrite Hstale. split.
           ++ intros [Hin He]. split; [apply in_or_app; now left|exact He].
           ++ intros [Hin [e [He [Ha Hs]]]]. split; [|eauto].
              apply in_app_or in Hin as [Hin|[Hin|[]]]; [exact Hin|].
              subst k'. assert (e = e0) by congruence. subst. lia.
  - (* no entry under this key *)
    constructor; simpl; auto.
    + intros k' e' H' Hp'. destruct (Hthere k' e' H' Hp') as [Hd Ho].
      split; [|exact Ho]. intros Hin.
      apply in_app_or in Hin as [Hin|[Hin|[]]]; auto.
      subst k'. destruct Ho as [Ho|Ho]; congruence.
    + intros k'. rewrite Hstale. split.
      * intros [Hin He]. split; [apply in_or_app; now left|exact He].
      * intros [Hin [e [He [Ha Hs]]]]. split; [|eauto].
        apply in_app_or in Hin as [Hin|[Hin|[]]]; [exact Hin|].
        subst k'. rewrite (Hgone k e He Ha) in Ek. discriminate.
Qed.

Lemma highlight_fold (keys done : list Z) (acc : Graph * MsIndex * list Z) :
  highlighted done acc ->
  highlighted (done ++ keys) (fold_left (highlightOne now) keys acc).
Proof.
  revert done acc. induction keys as [|k keys IH]; intros done acc H; simpl.
  - now rewrite app_nil_r.
  - replace (done ++ k :: keys) with ((done ++ [k]) ++ keys)
      by now rewrite <- app_assoc.
    apply IH. now apply highlightOne_keeps.
Qed.

Lemma ms_get_delete_all (rem : list Z) (m : MsIndex) (k : Z) :
  ms_get k (fold_left (fun m r => ms_delete r m) rem m)
  = if existsb (Z.eqb k) rem then None else ms_get k m.
Proof.
  revert m. induction rem as [|r rem IH]; intros m; simpl; [reflexivity|].
  rewrite IH. destruct (k =? r)%Z eqn:E; simpl.
  - apply Z.eqb_eq in E. subst. rewrite ms_get_delete_same.
    now destruct (existsb _ rem).
  - apply Z.eqb_neq in E. rewrite ms_get_delete_other by congruence.
    reflexivity.
Qed.

Lemma highlightIn_spec (k : Z) :
  nodeIds (fst (highlightIn now g0 ms0)) = nodeIds g0
  /\ match ms_get k ms0 with
     | None => ms_get k (snd (highlightIn now g0 ms0)) = None
     | Some e =>
         match getNode g0 (msId e) with
         | Some _ =>
             ms_get k (snd (highlightIn now g0 ms0))
             = Some (mkEntry (msId e) now)
         | None =>
             ms_get k (snd (highlightIn now g0 ms0))
             = if (300000 <? now - lastSeen e)%Z then None else Some e
         end
     end.
Proof.
  unfold highlightIn.
  assert (H0 : highlighted [] (g0, ms0, [])).
  { constructor; simpl; auto.
    - intros k' e He Hp. split; [intros []|now left].
    - intros k'. split; [intros []|intros [[] _]]. }
  pose proof (highlight_fold (map fst ms0) H0) as H. simpl in H.
  destruct (fold_left (highlightOne now) (map fst ms0) (g0, ms0, []))
    as [[g ms] rem].
  destruct H as [Hn Hnone Hgone Hthere Hstale]. simpl in *.
  split; [exact Hn|].
  rewrite ms_get_delete_all.
  assert (Hrem : existsb (Z.eqb k) rem = true <-> In k rem).
  { rewrite existsb_exists. split.
    - intros [y [Hy He]]. apply Z.eqb_eq in He. now subst.
    - intros Hin. exists k. split; [exact Hin|apply Z.eqb_refl]. }
  destruct (ms_get k ms0) as [e|] eqn:E0.
  - pose proof (ms_get_In _ _ E0) as Hk.
    destruct (getNode g0 (msId e)) as [d|] eqn:Ep.
    + assert (Hp : getNode g0 (msId e) <> None) by congruence.
      destruct (existsb (Z.eqb k) rem) eqn:Er.
      * assert (Hin : In k rem) by now apply Hrem.
        apply Hstale in Hin as [_ [e' [He' [Ha _]]]].
        assert (e' = e) by congruence. subst. congruence.
      * now apply (Hthere k e E0 Hp).
    + destruct (300000 <? now - lastSeen e)%Z eqn:Es.
      * apply Z.ltb_lt in Es.
        assert (Hin : In k rem) by (apply Hstale; eauto 6).
        apply Hrem in Hin. now rewrite Hin.
      * apply Z.ltb_ge in Es.
        destruct (existsb (Z.eqb k) rem) eqn:Er.
        -- assert (Hin : In k rem) by now apply Hrem.
           apply Hstale in Hin as [_ [e' [He' [_ Hs]]]].
           assert (e' = e) by congruence. subst. lia.
        -- now apply Hgone.
  - destruct (existsb (Z.eqb k) rem); [reflexivity|]. now apply Hnone.
Qed.

End Highlight.

(** C8. In a tracking pass over a graph that is set up, an entry whose
    node is in the graph gets [lastSeen] set to the time of the pass and
    stays; an entry whose node is not in the graph is deleted exactly
    when its [lastSeen] is more than 300000 ms before the pass, and is
    left as it is otherwise; no entry appears, and no node is added to
    or removed from the graph. *)
Theorem milestone_entry_staleness (now : Z) (s : State) (g : Graph) (k : Z) :
  _graph s = Some g ->
  let ms' := _msIndexToNode (highlightMilestones now s) in
  match ms_get k (_msIndexToNode s) with
  | None => ms_get k ms' = None
  | Some e =>
      (hasNode g (msId e) = true ->
       ms_get k ms' = Some (mkEntry (msId e) now))
      /\ (hasNode g (msId e) = false ->
          (ms_get k ms' = None <-> (300000 < now - lastSeen e)%Z)
          /\ ((now - lastSeen e <= 300000)%Z -> ms_get k ms' = Some e))
  end
  /\ option_map (@nodeIds _) (_graph (highlightMilestones now s))
     = Some (nodeIds g).
Proof.
  intros Hg ms'. unfold ms', highlightMilestones. rewrite Hg.
  destruct (highlightIn_spec now g (_msIndexToNode s) k) as [Hn Hk].
  destruct (highlightIn now g (_msIndexToNode s)) as [g' m']. simpl in *.
  split; [|now rewrite Hn].
  destruct (ms_get k (_msIndexToNode s)) as [e|]; [|exact Hk].
  unfold hasNode. destruct (getNode g (msId e)).
  - split; [auto|discriminate].
  - split; [discriminate|]. intros _. rewrite Hk.
    destruct (300000 <? now - lastSeen e)%Z eqn:Es.
    + apply Z.ltb_lt in Es. split; [tauto|lia].
    + apply Z.ltb_ge in Es. split; [|auto]. split; [discriminate|lia].
Qed.

(** *** Folding a batch into the graph *)

(** How the graph and the [added] list evolve while a batch is folded
    in: nodes are only appended, together with their ids in [added];
    links are only appended; the data of a node never changes. *)
Record grows (ga ga' : Graph * list string) : Prop := {
  gr_extra : exists extra,
    nodeIds (fst ga') = nodeIds (fst ga) ++ extra
    /\ snd ga' = snd ga ++ extra
    /\ (forall y, In y extra -> getNode (fst ga) y = None)
    /\ NoDup extra;
  gr_links : exists newLinks,
    links (fst ga') = links (fst ga) ++ newLinks
    /\ forall l, In l newLinks ->
         In (fromId l) (nodeIds (fst ga')) /\ In (toId l) (nodeIds (fst ga'));
  gr_data : forall x d,
    getNode (fst ga) x = Some d -> getNode (fst ga') x = Some d
}.

Lemma grows_refl (ga : Graph * list string) : grows ga ga.
Proof.
  constructor.
  - exists []. rewrite !app_nil_r. repeat split; [intros y []|constructor].
  - exists []. rewrite app_nil_r. split; [reflexivity|intros l []].
  - auto.
Qed.

Lemma grows_ids (ga ga' : Graph * list string) (x : string) :
  grows ga ga' -> In x (nodeIds (fst ga)) -> In x (nodeIds (fst ga')).
Proof.
  intros [[extra [Hn _]] _ _] Hin. rewrite Hn. apply in_or_app. now left.
Qed.

Lemma grows_trans (a b c : Graph * list string) :
  grows a b -> grows b c -> grows a c.
Proof.
  intros Hab Hbc.
  destruct Hab as [[e1 [Hn1 [Ha1 [Hf1 Hd1]]]] [l1 [Hl1 He1]] Hk1].
  pose proof Hbc as Hbc'.
  destruct Hbc as [[e2 [Hn2 [Ha2 [Hf2 Hd2]]]] [l2 [Hl2 He2]] Hk2].
  constructor.
  - exists (e1 ++ e2). rewrite Hn2, Hn1, Ha2, Ha1, !app_assoc.
    repeat split.
    + intros y Hy. apply in_app_or in Hy as [Hy|Hy]; [auto|].
      specialize (Hf2 y Hy). apply getNode_None in Hf2.
      apply getNode_None. intros Hin. apply Hf2. rewrite Hn1.
      apply in_or_app. now left.
    + apply NoDup_app; auto.
      intros y Hy1 Hy2. specialize (Hf2 y Hy2).
      apply getNode_None in Hf2. apply Hf2. rewrite Hn1.
      apply in_or_app. now right.
  - exists (l1 ++ l2). rewrite Hl2, Hl1, app_assoc. split; [reflexivity|].
    intros l Hl. apply in_app_or in Hl as [Hl|Hl]; [|auto].
    destruct (He1 l Hl). split; eapply grows_ids; eauto.
  - auto.
Qed.

Lemma grows_addNode (now : Z) (g : Graph) (added : list string) (x : string)
    (d : INodeData) :
  getNode g x = None -> grows (g, added) (addNode g x d, added ++ [x]).
Proof.
  intros Hn. constructor; simpl.
  - exists [x]. rewrite nodeIds_addNode_new by exact Hn. repeat split.
    + intros y [<-|[]]. exact Hn.
    + repeat constructor. intros [].
  - exists []. unfold addNode, hasNode. rewrite Hn. simpl.
    rewrite app_nil_r. split; [reflexivity|intros l []].
  - intros y d' Hy. rewrite getNode_addNode_new by exact Hn.
    destruct (String.eqb x y) eqn:E; [|exact Hy].
    apply String.eqb_eq in E. subst. congruence.
Qed.

Lemma grows_addLink (g : Graph) (added : list string) (a b : string) :
  In a (nodeIds g) -> In b (nodeIds g) ->
  grows (g, added) (addLink g a b, added).
Proof.
  intros Ha Hb. constructor; simpl.
  - exists []. rewrite !app_nil_r. repeat split; [intros y []|constructor].
  - exists [mkLink a b]. split; [reflexivity|].
    intros l [<-|[]]. simpl. auto.
  - auto.
Qed.

Lemma grows_linkParent (now : Z) (parent child : string)
    (ga : Graph * list string) :
  In child (nodeIds (fst ga)) -> grows ga (linkParent now parent child ga).
Proof.
  destruct ga as [g added]. simpl. intros Hc. unfold linkParent.
  destruct (getNode g parent) as [d|] eqn:E.
  - apply grows_addLink; [|exact Hc]. apply getNode_Some. eauto.
  - eapply grows_trans; [apply (grows_addNode now); exact E|].
    apply grows_addLink.
    + rewrite nodeIds_addNode_new by exact E. apply in_or_app. right.
      now left.
    + rewrite nodeIds_addNode_new by exact E. apply in_or_app. now left.
Qed.

Lemma drawItem_existing (now : Z) (ga : Graph * list string)
    (item : IFeedItem) (d : INodeData) :
  getNode (fst ga) (id item) = Some d -> drawItem now ga item = ga.
Proof.
  destruct ga as [g added]. simpl. intros H. unfold drawItem. now rewrite H.
Qed.

Lemma grows_drawItem (now : Z) (ga : Graph * list string) (item : IFeedItem) :
  grows ga (drawItem now ga item).
Proof.
  destruct ga as [g added]. unfold drawItem.
  destruct (getNode g (id item)) as [d|] eqn:E; [apply grows_refl|].
  assert (H1 : grows (g, added)
                 (addNode g (id item) (mkData item now None),
                  added ++ [id item]))
    by (apply (grows_addNode now); exact E).
  assert (Hin : In (id item)
                   (nodeIds (addNode g (id item) (mkData item now None)))).
  { rewrite nodeIds_addNode_new by exact E. apply in_or_app. right. now left. }
  set (ga1 := (addNode g (id item) (mkData item now None), added ++ [id item]))
    in *.
  set (ga2 := if truthy (parent1 item)
              then linkParent now (parent1 item) (id item) ga1 else ga1).
  assert (H2 : grows ga1 ga2).
  { unfold ga2. destruct (truthy (parent1 item)); [|apply grows_refl].
    now apply grows_linkParent. }
  assert (H3 : grows ga2
                 (if truthy (parent2 item)
                     && negb (String.eqb (parent1 item) (parent2 item))
                  then linkParent now (parent2 item) (id item) ga2 else ga2)).
  { destruct (truthy (parent2 item) && _); [|apply grows_refl].
    apply grows_linkParent. eapply grows_ids; eauto. }
  eapply grows_trans; [exact H1|]. eapply grows_trans; [exact H2|exact H3].
Qed.

Lemma grows_fold (now : Z) (items : list IFeedItem) (ga : Graph * list string) :
  grows ga (fold_left (drawItem now) items ga).
Proof.
  revert ga. induction items as [|item items IH]; intros ga; simpl.
  - apply grows_refl.
  - eapply grows_trans; [apply grows_drawItem|apply IH].
Qed.

Lemma drawItem_has_node (now : Z) (ga : Graph * list string)
    (item : IFeedItem) :
  In (id item) (nodeIds (fst (drawItem now ga item))).
Proof.
  destruct ga as [g added].
  destruct (getNode g (id item)) as [d|] eqn:E.
  - rewrite (@drawItem_existing now (g, added) item d E). simpl.
    apply getNode_Some. eauto.
  - unfold drawItem. rewrite E.
    set (ga1 := (addNode g (id item) (mkData item now None), added ++ [id item])).
    assert (Hin : In (id item) (nodeIds (fst ga1))).
    { simpl. rewrite nodeIds_addNode_new by exact E.
      apply in_or_app. right. now left. }
    set (ga2 := if truthy (parent1 item)
                then linkParent now (parent1 item) (id item) ga1 else ga1).
    assert (Hin2 : In (id item) (nodeIds (fst ga2))).
    { unfold ga2. destruct (truthy (parent1 item)); [|exact Hin].
      eapply grows_ids; [apply grows_linkParent|]; exact Hin. }
    destruct (truthy (parent2 item) && _); [|exact Hin2].
    eapply grows_ids; [apply grows_linkParent|]; exact Hin2.
Qed.

(** An item whose id is already a node changes nothing, wherever it
    comes in the batch. *)
Lemma drawItems_known_id (now : Z) (items : list IFeedItem)
    (ga : Graph * list string) (item : IFeedItem) :
  In (id item) (nodeIds (fst ga)) \/ In (id item) (map id items) ->
  drawItem now (fold_left (drawItem now) items ga) item
  = fold_left (drawItem now) items ga.
Proof.
  intros H.
  assert (Hin : In (id item) (nodeIds (fst (fold_left (drawItem now) items ga)))).
  { revert ga H. induction items as [|it items IH]; intros ga H; simpl.
    - destruct H as [H|[]]. exact H.
    - apply IH. destruct H as [H|[H|H]].
      + left. eapply grows_ids; [apply grows_drawItem|exact H].
      + left. rewrite <- H. apply drawItem_has_node.
      + now right. }
  apply getNode_Some in Hin as [d Hd].
  eapply drawItem_existing; eauto.
Qed.

(** C1, as amended. An item whose id is already a node of the graph, a
    placeholder or not, is skipped: the item leaves the graph and the
    [added] list as they are. Through a whole batch a node keeps the data
    it has (a placeholder stays a placeholder), it is not reported as
    added, and the links that exist stay, new ones being appended. *)
Theorem existing_node_is_left_alone (now : Z) (g : Graph) (x : string)
    (d : INodeData) (items : list IFeedItem) :
  getNode g x = Some d ->
  (forall added item, id item = x -> drawItem now (g, added) item = (g, added))
  /\ getNode (fst (drawItems now items g)) x = Some d
  /\ ~ In x (snd (drawItems now items g))
  /\ exists newLinks, links (fst (drawItems now items g)) = links g ++ newLinks.
Proof.
  intros Hx. split; [|split; [|split]].
  - intros added item Hid. subst x.
    now apply (@drawItem_existing now (g, added) item d).
  - now apply (grows_fold now items (g, [])).
  - destruct (grows_fold now items (g, [])) as [[extra [_ [Ha [Hf _]]]] _ _].
    unfold drawItems. rewrite Ha. simpl. intros Hin.
    specialize (Hf x Hin). simpl in Hf. congruence.
  - destruct (grows_fold now items (g, [])) as [_ [newLinks [Hl _]] _].
    now exists newLinks.
Qed.

(** C7. Applying an item a second time changes neither the graph nor the
    [added] list: the node of the first application is found, so no node
    and no link is created and nothing is reported as added. This holds
    for an immediate repetition and for a repetition later in the batch,
    and a graph whose node ids are distinct keeps them distinct, so the
    id names one node. *)
Theorem same_item_twice (now : Z) (g : Graph) (added : list string)
    (item : IFeedItem) (items : list IFeedItem) :
  let once := drawItem now (g, added) item in
  drawItem now once item = once
  /\ In (id item) (nodeIds (fst once))
  /\ (NoDup (nodeIds g) -> NoDup (nodeIds (fst once))
       /\ count_occ string_dec (nodeIds (fst once)) (id item) = 1%nat)
  /\ (In (id item) (map id items) ->
      drawItems now (items ++ [item]) g = drawItems now items g).
Proof.
  intros once.
  assert (Hin : In (id item) (nodeIds (fst once))) by apply drawItem_has_node.
  split; [|split; [exact Hin|split]].
  - apply getNode_Some in Hin as [d Hd]. eapply drawItem_existing; eauto.
  - intros Hnd.
    assert (Hnd' : NoDup (nodeIds (fst once))).
    { destruct (grows_drawItem now (g, added) item)
        as [[extra [Hn [_ [Hf He]]]] _ _].
      fold once in Hn. rewrite Hn. simpl. apply NoDup_app; auto.
      intros y Hy1 Hy2. specialize (Hf y Hy2). simpl in Hf.
      apply getNode_None in Hf. contradiction. }
    split; [exact Hnd'|].
    apply (proj1 (NoDup_count_occ' string_dec _) Hnd'). exact Hin.
  - intros Hid. unfold drawItems. rewrite fold_left_app. simpl.
    apply drawItems_known_id. now right.
Qed.

Import Samples.
Local Open Scope string_scope.

(** The graph after item [B], whose parent [A] has not been seen, was
    drawn at time 10: [A] is a placeholder. *)
Definition withPlaceholder : Graph :=
  fst (drawItems 10 [child "B" "A" 0] Viva.empty).

(** C1 as stated fails: the item of [A] arrives, with a value of 5 and a
    parent [Z], and the node [A] still carries the placeholder item; no
    node [Z] and no link from [Z] is made. *)
Lemma placeholder_upgrade_counterexample :
  let g := fst (drawItems 20 [child "A" "Z" 5] withPlaceholder) in
  option_map feedItem (getNode withPlaceholder "A") = Some (placeholder "A")
  /\ option_map feedItem (getNode g "A") = Some (placeholder "A")
  /\ option_map feedItem (getNode g "A") <> Some (child "A" "Z" 5)
  /\ g = withPlaceholder.
Proof.
  vm_compute. repeat split. discriminate.
Qed.

Lemma existing_node_is_left_alone_witness :
  getNode (fst (drawItems 20 [child "A" "Z" 5] withPlaceholder)) "A"
  = Some (mkData (placeholder "A") 10 None).
Proof.
  apply (@existing_node_is_left_alone 20 withPlaceholder "A"
           (mkData (placeholder "A") 10 None) [child "A" "Z" 5]).
  vm_compute. reflexivity.
Defined.

Lemma milestone_entry_staleness_witness :
  let s := mkState (Some withPlaceholder) ["B"; "A"] [] []
                   [(5, mkEntry "A" 0); (6, mkEntry "gone" 0);
                    (7, mkEntry "left" 200000)]%Z 0 2 None in
  let ms' := _msIndexToNode (highlightMilestones 400000 s) in
  ms_get 5 ms' = Some (mkEntry "A" 400000)
  /\ ms_get 6 ms' = None
  /\ ms_get 7 ms' = Some (mkEntry "left" 200000).
Proof.
  intros s ms'.
  pose proof (@milestone_entry_staleness 400000 s withPlaceholder 5 eq_refl)
    as [H5 _].
  pose proof (@milestone_entry_staleness 400000 s withPlaceholder 6 eq_refl)
    as [H6 _].
  pose proof (@milestone_entry_staleness 400000 s withPlaceholder 7 eq_refl)
    as [H7 _].
  simpl in H5, H6, H7. fold ms' in H5, H6, H7.
  split; [apply H5; vm_compute; reflexivity|].
  split; [apply H6; [vm_compute; reflexivity|lia]|].
  apply H7; [vm_compute; reflexivity|lia].
Defined.

(** *** Removing nodes *)

(** The look-up that follows the removal of the node never finds it, so
    the milestone entry of the node that is removed is never deleted by
    the lines written for it. *)
Lemma lookup_after_removal (g : Graph) (x : string) (ms : MsIndex) :
  dropMilestone (getNode (removeNode g x) x) ms = ms.
Proof. now rewrite removeNode_absent. Qed.

(** A milestone node without links, indexed under 7, waits in the
    removal queue. *)
Definition loneMilestone : State :=
  mkState (Some (fst (drawItems 10 [milestone "M" 7] Viva.empty)))
          ["M"] [] ["M"] [(7%Z, mkEntry "M" 10)] 0 1 None.

(** C4 fails on the code: the node [M] is removed from the graph, and
    its milestone entry stays in the index. *)
Theorem removeNodes_leaves_target_milestone_entry :
  let s' := removeNodes loneMilestone in
  option_map (fun g => option_map (fun d => truthyMS (feedItem d))
                                  (getNode g "M"))
             (_graph loneMilestone) = Some (Some (Some 7%Z))
  /\ ms_get 7 (_msIndexToNode loneMilestone) = Some (mkEntry "M" 10)
  /\ _removeNodes loneMilestone = ["M"]
  /\ option_map (fun g => getNode g "M") (_graph s') = Some None
  /\ _removeNodes s' = []
  /\ ms_get 7 (_msIndexToNode s') = Some (mkEntry "M" 10).
Proof. vm_compute. repeat split. Qed.

(** The graph of the items [A], [B] and [C], where [A] is the parent of
    the other two, with [A] in the removal queue. *)
Definition parentOfTwo : State :=
  mkState (Some (fst (drawItems 10 [child "A" "" 0; child "B" "A" 0;
                                    child "C" "A" 0] Viva.empty)))
          ["A"; "B"; "C"] [] ["A"] [] 0 3 None.

(** The loop over the links of [A] advances its index while the callback
    shortens the array, so it only reaches every other link: [B] is left
    without links and goes, [C] is left without links and stays. *)
Lemma removeNodes_skips_a_neighbour :
  let s' := removeNodes parentOfTwo in
  option_map (@links _) (_graph parentOfTwo)
  = Some [mkLink "A" "B"; mkLink "A" "C"]
  /\ option_map (@nodeIds _) (_graph s') = Some ["C"]
  /\ option_map (@links _) (_graph s') = Some [].
Proof. vm_compute. repeat split. Qed.

Local Close Scope string_scope.

(** *** Removal only takes away *)

(** A graph of the visualizer: well formed, and every id is a non-empty
    string. *)
Definition sound (g : Graph) : Prop :=
  wellFormed g /\ forall x, In x (nodeIds g) -> truthy x = true.

Lemma sound_removeLink (g : Graph) (l : Link) :
  sound g -> sound (removeLink g l).
Proof.
  intros [Hw Ht]. split; [now apply wellFormed_removeLink|exact Ht].
Qed.

Lemma sound_removeNode (g : Graph) (x : string) :
  sound g -> sound (removeNode g x).
Proof.
  intros [Hw Ht]. split; [now apply wellFormed_removeNode|].
  intros y Hy. rewrite nodeIds_removeNode in Hy.
  apply filter_In in Hy as [Hy _]. auto.
Qed.

Lemma sound_unlink (x : string) (l : Link) (gm : Graph * MsIndex) :
  sound (fst gm) -> sound (fst (unlink x l gm)).
Proof.
  destruct gm as [g ms]. simpl. intros H. unfold unlink.
  destruct (length _ =? 0)%nat; simpl.
  - now apply sound_removeNode, sound_removeLink.
  - now apply sound_removeLink.
Qed.

Lemma sound_unlinkFrom (rounds : nat) (x : string) (i : nat)
    (gm : Graph * MsIndex) :
  sound (fst gm) -> sound (fst (unlinkFrom rounds x i gm)).
Proof.
  revert i gm. induction rounds as [|r IH]; intros i gm H; simpl; [exact H|].
  destruct (nth_error _ i); [|exact H].
  apply IH. now apply sound_unlink.
Qed.

Lemma sound_unlinkAll (x : string) (gm : Graph * MsIndex) :
  sound (fst gm) -> sound (fst (unlinkAll x gm)).
Proof.
  intros H. unfold unlinkAll. destruct (getNode _ x); [|exact H].
  now apply sound_unlinkFrom.
Qed.

Lemma removeOne_graph (x : string) (g : Graph) (ms : MsIndex)
    (sel : option IFeedItem) :
  fst (fst (removeOne x (g, ms, sel)))
  = if truthy x then removeNode (fst (unlinkAll x (g, ms))) x else g.
Proof.
  unfold removeOne. destruct (truthy x); [|reflexivity].
  now destruct (unlinkAll x (g, ms)).
Qed.

Lemma sound_removeOne (x : string) (st : Graph * MsIndex * option IFeedItem) :
  sound (fst (fst st)) -> sound (fst (fst (removeOne x st))).
Proof.
  destruct st as [[g ms] sel]. intros H. rewrite removeOne_graph.
  simpl in H. destruct (truthy x); [|exact H].
  now apply sound_removeNode, (sound_unlinkAll x (g, ms)).
Qed.

Lemma sound_drain (queue : list string)
    (st : Graph * MsIndex * option IFeedItem) :
  sound (fst (fst st)) -> sound (fst (fst (drain queue st))).
Proof.
  unfold drain. revert st.
  induction queue as [|x queue IH]; intros st H; simpl; [exact H|].
  apply IH. now apply sound_removeOne.
Qed.

Section Removal.
(** The ids that may go, a set closed under the links of the graph
    [g0] that the removal starts from. *)
Variable P : string -> Prop.
Variable g0 : Graph.
Hypothesis closed :
  forall l, In l (links g0) -> (P (fromId l) <-> P (toId l)).

(** A graph obtained from [g0] by taking away nodes in [P] and links
    that touch [P]. *)
Record within (g : Graph) : Prop := {
  w_nodes : exists keep,
    nodes g = filter (fun n => keep (fst n)) (nodes g0)
    /\ forall x, In x (nodeIds g0) -> keep x = false -> P x;
  w_links : forall l, In l (links g) -> In l (links g0);
  w_keep : forall l, In l (links g0) ->
    ~ P (fromId l) -> ~ P (toId l) -> In l (links g)
}.

Lemma within_refl : within g0.
Proof.
  constructor; auto.
  exists (fun _ => true). split; [|discriminate].
  symmetry. now apply JSFacts.filter_all.
Qed.

Lemma within_removeLink (g : Graph) (l : Link) :
  within g -> In l (links g) -> P (fromId l) \/ P (toId l) ->
  within (removeLink g l).
Proof.
  intros [Hn Hl Hk] Hin HP. constructor.
  - exact Hn.
  - intros l' H'. apply Hl. simpl in H'. now apply In_removeFirst in H'.
  - intros l' H' Hf Ht. simpl. apply In_removeFirst_other; [auto|].
    intros ->. tauto.
Qed.

Lemma within_removeNode (g : Graph) (x : string) :
  within g -> P x -> within (removeNode g x).
Proof.
  intros [[keep [Hn Hp]] Hl Hk] HP. constructor.
  - exists (fun y => keep y && negb (String.eqb y x)). split.
    + rewrite nodes_removeNode, Hn.
      clear. induction (nodes g0) as [|n ns IH]; simpl; [reflexivity|].
      destruct (keep (fst n)); simpl; [|exact IH].
      destruct (String.eqb (fst n) x); simpl; now rewrite ?IH.
    + intros y Hy Hf. apply andb_false_iff in Hf as [Hf|Hf]; [auto|].
      apply negb_false_iff, String.eqb_eq in Hf. now subst.
  - intros l H'. apply Hl. now apply links_removeNode_incl in H'.
  - intros l H' Hf Ht. apply links_removeNode_keep; [auto|].
    unfold touches. apply orb_false_iff.
    split; apply String.eqb_neq; intros <-; tauto.
Qed.

Lemma P_otherEnd (g : Graph) (x : string) (l : Link) :
  within g -> P x -> In l (nodeLinks g x) ->
  In l (links g) /\ P (fromId l) /\ P (otherEnd x l).
Proof.
  intros Hw HP Hin. apply nodeLinks_In in Hin as [Hin Ht].
  split; [exact Hin|].
  pose proof (closed l (w_links Hw l Hin)) as Hc.
  unfold touches in Ht. unfold otherEnd.
  apply orb_true_iff in Ht as [Ht|Ht]; apply String.eqb_eq in Ht.
  - rewrite Ht, String.eqb_refl. subst x. tauto.
  - subst x. destruct (String.eqb (fromId l) (toId l)); tauto.
Qed.

Lemma within_unlink (x : string) (l : Link) (gm : Graph * MsIndex) :
  within (fst gm) -> P x -> In l (nodeLinks (fst gm) x) ->
  within (fst (unlink x l gm)).
Proof.
  destruct gm as [g ms]. simpl. intros Hw HP Hin.
  destruct (@P_otherEnd g x l Hw HP Hin) as [Hl [Hf Ho]].
  unfold unlink.
  assert (H1 : within (removeLink g l)) by (apply within_removeLink; auto).
  destruct (length _ =? 0)%nat; simpl; [|exact H1].
  now apply within_removeNode.
Qed.

Lemma within_unlinkFrom (rounds : nat) (x : string) (i : nat)
    (gm : Graph * MsIndex) :
  within (fst gm) -> P x -> within (fst (unlinkFrom rounds x i gm)).
Proof.
  revert i gm. induction rounds as [|r IH]; intros i gm Hw HP; simpl;
    [exact Hw|].
  destruct (nth_error _ i) as [l|] eqn:E; [|exact Hw].
  apply IH; [|exact HP]. apply within_unlink; auto.
  eapply nth_error_In; eauto.
Qed.

Lemma within_removeOne (x : string)
    (st : Graph * MsIndex * option IFeedItem) :
  within (fst (fst st)) -> (truthy x = true -> P x) ->
  within (fst (fst (removeOne x st))).
Proof.
  destruct st as [[g ms] sel]. intros Hw HP.
  rewrite removeOne_graph. simpl in Hw. destruct (truthy x); [|exact Hw].
  apply within_removeNode; [|auto].
  unfold unlinkAll. simpl. destruct (getNode g x); [|exact Hw].
  apply (within_unlinkFrom _ _ (g, ms)); auto.
Qed.

Lemma within_drain (queue : list string)
    (st : Graph * MsIndex * option IFeedItem) :
  within (fst (fst st)) ->
  (forall x, In x queue -> truthy x = true -> P x) ->
  within (fst (fst (drain queue st))).
Proof.
  unfold drain. revert st.
  induction queue as [|x queue IH]; intros st Hw HP; simpl; [exact Hw|].
  apply IH.
  - apply within_removeOne; [exact Hw|]. apply HP. now left.
  - intros y Hy. apply HP. now right.
Qed.

Lemma within_ids (g : Graph) (x : string) :
  within g -> In x (nodeIds g) -> In x (nodeIds g0).
Proof.
  intros [[keep [Hn _]] _ _] Hin. unfold nodeIds in *. rewrite Hn in Hin.
  apply in_map_iff in Hin as [n [<- Hin]]. apply filter_In in Hin as [Hin _].
  now apply in_map.
Qed.

End Removal.

(** Whatever is drained only shrinks the set of nodes. *)
Lemma drain_ids (queue : list string)
    (st : Graph * MsIndex * option IFeedItem) (x : string) :
  In x (nodeIds (fst (fst (drain queue st)))) -> In x (nodeIds (fst (fst st))).
Proof.
  apply (@within_ids (fun _ => True) (fst (fst st))).
  apply within_drain; [tauto|apply within_refl|auto].
Qed.

(** Every id of the queue, the empty string apart, is out of the graph
    once the queue is drained. *)
Lemma drain_removes (queue : list string)
    (st : Graph * MsIndex * option IFeedItem) (x : string) :
  In x queue -> truthy x = true ->
  ~ In x (nodeIds (fst (fst (drain queue st)))).
Proof.
  unfold drain. revert st.
  induction queue as [|y queue IH]; intros st Hin Ht; simpl; [easy|].
  destruct Hin as [->|Hin]; [|now apply IH].
  intros Hx. apply (drain_ids queue) in Hx.
  destruct st as [[g ms] sel]. rewrite removeOne_graph, Ht in Hx.
  apply getNode_Some in Hx as [d Hd]. now rewrite removeNode_absent in Hd.
Qed.

(** *** The eviction sweep *)

Definition evictable (added : list string) (x : string) : bool :=
  truthy x && negb (includes added x).

(** The sweep shifts the ids beyond the cap off the front of the list,
    oldest first, and queues those that are not empty and were not added
    by the batch. *)
Lemma evict_spec (added existingIds queue : list string) :
  evict added existingIds queue
  = (skipn (length existingIds - MAX_ITEMS) existingIds,
     queue ++ filter (evictable added)
                     (firstn (length existingIds - MAX_ITEMS) existingIds)).
Proof.
  revert queue. induction existingIds as [|x rest IH]; intros queue.
  - cbn. now rewrite app_nil_r.
  - unfold evict; fold evict.
    destruct (MAX_ITEMS <? length (x :: rest))%nat eqn:E.
    + apply Nat.ltb_lt in E. cbn [length] in E. rewrite IH.
      assert (Hk : (length (x :: rest) - MAX_ITEMS
                    = S (length rest - MAX_ITEMS))%nat)
        by (cbn [length]; lia).
      rewrite Hk. cbn [skipn firstn filter]. unfold evictable at 2.
      destruct (truthy x && negb (includes added x));
        now rewrite <- ?app_assoc.
    + apply Nat.ltb_ge in E.
      assert (Hk : (length (x :: rest) - MAX_ITEMS = 0)%nat) by lia.
      rewrite Hk. cbn [skipn firstn filter]. now rewrite app_nil_r.
Qed.

Lemma includes_iff (l : list string) (x : string) :
  includes l x = true <-> In x l.
Proof.
  unfold includes. rewrite existsb_exists. split.
  - intros [y [Hy He]]. apply String.eqb_eq in He. now subst.
  - intros H. exists x. split; [exact H|apply String.eqb_refl].
Qed.

(** *** Soundness of the graph through a batch *)

Lemma linkParent_truthy (now : Z) (parent child : string)
    (ga : Graph * list string) :
  truthy parent = true ->
  (forall y, In y (snd ga) -> truthy y = true) ->
  forall y, In y (snd (linkParent now parent child ga)) -> truthy y = true.
Proof.
  destruct ga as [g added]. simpl. intros Hp Ha y. unfold linkParent.
  destruct (getNode g parent); simpl; [auto|].
  intros Hy. apply in_app_or in Hy as [Hy|[<-|[]]]; auto.
Qed.

Lemma drawItem_truthy (now : Z) (ga : Graph * list string) (item : IFeedItem) :
  truthy (id item) = true ->
  (forall y, In y (snd ga) -> truthy y = true) ->
  forall y, In y (snd (drawItem now ga item)) -> truthy y = true.
Proof.
  destruct ga as [g added]. simpl. intros Hi Ha. unfold drawItem.
  destruct (getNode g (id item)); [exact Ha|].
  set (ga1 := (addNode g (id item) (mkData item now None), added ++ [id item])).
  assert (H1 : forall y, In y (snd ga1) -> truthy y = true).
  { simpl. intros y Hy. apply in_app_or in Hy as [Hy|[<-|[]]]; auto. }
  set (ga2 := if truthy (parent1 item)
              then linkParent now (parent1 item) (id item) ga1 else ga1).
  assert (H2 : forall y, In y (snd ga2) -> truthy y = true).
  { unfold ga2. destruct (truthy (parent1 item)) eqn:E; [|exact H1].
    now apply linkParent_truthy. }
  destruct (truthy (parent2 item)) eqn:E; simpl; [|exact H2].
  destruct (negb _); [|exact H2]. now apply linkParent_truthy.
Qed.

Lemma drawItems_truthy (now : Z) (items : list IFeedItem) (g : Graph) :
  (forall it, In it items -> truthy (id it) = true) ->
  forall y, In y (snd (drawItems now items g)) -> truthy y = true.
Proof.
  unfold drawItems. intros Hi.
  assert (G : forall ga, (forall y, In y (snd ga) -> truthy y = true) ->
            forall y, In y (snd (fold_left (drawItem now) items ga)) ->
                      truthy y = true).
  { induction items as [|it items IH]; intros ga Ha; simpl; [exact Ha|].
    apply IH.
    - intros it' H'. apply Hi. now right.
    - apply drawItem_truthy; [apply Hi; now left|exact Ha]. }
  apply G. intros y [].
Qed.

(** After a batch the nodes are the old ones followed by the added
    ones, and the graph is sound again. *)
Lemma drawItems_sound (now : Z) (items : list IFeedItem) (g : Graph) :
  sound g ->
  (forall it, In it items -> truthy (id it) = true) ->
  nodeIds (fst (drawItems now items g))
  = nodeIds g ++ snd (drawItems now items g)
  /\ sound (fst (drawItems now items g)).
Proof.
  intros [[Hnd Hl] Ht] Hi.
  pose proof (drawItems_truthy now items g Hi) as Ha.
  destruct (grows_fold now items (g, []))
    as [[extra [Hn [Hadd [Hf He]]]] [newLinks [Hnl Hends]] _].
  unfold drawItems in *. simpl in Hn, Hadd, Hf, Hnl, Hends.
  rewrite Hadd in *. split; [exact Hn|].
  split; [split|].
  - rewrite Hn. apply NoDup_app; auto.
    intros y Hy1 Hy2. specialize (Hf y Hy2). apply getNode_None in Hf.
    contradiction.
  - intros l Hin. rewrite Hnl in Hin.
    apply in_app_or in Hin as [Hin|Hin]; [|auto].
    destruct (Hl l Hin). rewrite Hn. split; apply in_or_app; now left.
  - intros y Hy. rewrite Hn in Hy. apply in_app_or in Hy as [Hy|Hy]; auto.
Qed.

(** *** Passes that only rewrite the data of the nodes *)

Definition sameShape (g g' : Graph) : Prop :=
  nodeIds g' = nodeIds g /\ links g' = links g.

Lemma sameShape_refl (g : Graph) : sameShape g g.
Proof. now split. Qed.

Lemma sameShape_trans (a b c : Graph) :
  sameShape a b -> sameShape b c -> sameShape a c.
Proof. intros [H1 H2] [H3 H4]. split; congruence. Qed.

Lemma sameShape_updateNode (g : Graph) (x : string)
    (f : INodeData -> INodeData) :
  sameShape g (updateNode g x f).
Proof. split; [apply nodeIds_updateNode|reflexivity]. Qed.

Lemma sameShape_sound (g g' : Graph) : sameShape g g' -> sound g -> sound g'.
Proof.
  intros [Hn Hl] [Hw Ht]. split.
  - eapply wellFormed_same; eauto.
  - now rewrite Hn.
Qed.

Lemma sameShape_highlightIn (now : Z) (g : Graph) (ms : MsIndex) :
  sameShape g (fst (highlightIn now g ms)).
Proof.
  unfold highlightIn.
  assert (G : forall keys acc,
            sameShape g (fst (fst acc)) ->
            sameShape g (fst (fst (fold_left (highlightOne now) keys acc)))).
  { induction keys as [|k keys IH]; intros acc H; simpl; [exact H|].
    apply IH. destruct acc as [[g1 m1] r1]. simpl in *. unfold highlightOne.
    destruct (ms_get k m1) as [e|]; [|exact H].
    destruct (getNode g1 (msId e)); simpl.
    - eapply sameShape_trans; [exact H|apply sameShape_updateNode].
    - now destruct (300000 <? now - lastSeen e)%Z. }
  specialize (G (map fst ms) (g, ms, []) (sameShape_refl g)).
  now destruct (fold_left _ _ _) as [[g1 m1] r1].
Qed.

Lemma sameShape_clearGraphIds (g : Graph) : sameShape g (clearGraphIds g).
Proof.
  split; [|reflexivity]. unfold nodeIds, clearGraphIds. simpl.
  rewrite map_map. now apply map_ext.
Qed.

Lemma sameShape_visit (fuel gid : nat) (g : Graph)
    (toVisit visited : list string) (mrc : Z)
    (g' : Graph) (visited' : list string) (mrc' : Z) :
  visit fuel gid g toVisit visited mrc = Some (g', visited', mrc') ->
  sameShape g g'.
Proof.
  revert g toVisit visited mrc.
  induction fuel as [|fuel IH]; intros g toVisit visited mrc H;
    destruct toVisit as [|x rest]; simpl in H; try discriminate.
  - injection H as <- _ _. apply sameShape_refl.
  - injection H as <- _ _. apply sameShape_refl.
  - destruct (truthy x); [|eauto].
    destruct (getNode g x) as [d|]; [|eauto].
    destruct (noGraphId d); [|eauto].
    eapply sameShape_trans; [apply sameShape_updateNode|eauto].
Qed.

Lemma sameShape_discover (fuel : nat) (ids : list string) (g : Graph)
    (gid : nat) (subs : list SubGraph) (g' : Graph) (subs' : list SubGraph) :
  discover fuel ids g gid subs = Some (g', subs') -> sameShape g g'.
Proof.
  revert g gid subs. induction ids as [|x ids IH]; intros g gid subs H;
    simpl in H.
  - injection H as <- _. apply sameShape_refl.
  - destruct (getNode g x) as [d|]; [|eauto].
    destruct (noGraphId d); [|eauto].
    unfold calculateSubGraph in H.
    destruct (visit fuel (S gid) g [x] [] 0) as [[[g1 v1] m1]|] eqn:E;
      [|discriminate].
    eapply sameShape_trans; [eapply sameShape_visit; eauto|eauto].
Qed.

Unset Implicit Arguments.

(** *** The state between two operations *)

(** Between two operations the removal queue is empty, the arrival
    sequence is within the cap, no pending item has an empty id, and the
    graph is sound with all of its nodes in the arrival sequence. *)
Record calm (s : State) : Prop := {
  calm_queue : _removeNodes s = [];
  calm_cap : (length (_existingIds s) <= MAX_ITEMS)%nat;
  calm_pending : forall it, In it (_newItems s) -> truthy (id it) = true;
  calm_graph : forall g, _graph s = Some g ->
    sound g /\ incl (nodeIds g) (_existingIds s)
}.

Lemma removeNodes_state (s : State) (g : Graph) :
  _graph s = Some g -> sound g ->
  exists g', _graph (removeNodes s) = Some g'
    /\ sound g'
    /\ incl (nodeIds g') (nodeIds g)
    /\ (forall x, In x (_removeNodes s) -> truthy x = true ->
          ~ In x (nodeIds g'))
    /\ _removeNodes (removeNodes s) = []
    /\ _existingIds (removeNodes s) = _existingIds s
    /\ _newItems (removeNodes s) = _newItems s
    /\ _smallNetworkInterval (removeNodes s) = _smallNetworkInterval s.
Proof.
  intros Hg Hs. unfold removeNodes. rewrite Hg.
  pose proof (@sound_drain (_removeNodes s)
                (g, _msIndexToNode s, selectedFeedItem s) Hs) as H1.
  pose proof (@drain_ids (_removeNodes s)
                (g, _msIndexToNode s, selectedFeedItem s)) as H2.
  pose proof (@drain_removes (_removeNodes s)
                (g, _msIndexToNode s, selectedFeedItem s)) as H3.
  destruct (drain (_removeNodes s) (g, _msIndexToNode s, selectedFeedItem s))
    as [[g' ms'] sel']. simpl in *.
  exists g'. split; [reflexivity|]. split; [exact H1|].
  split; [intros x; apply H2|]. split; [exact H3|]. repeat split.
Qed.

Lemma smallNetworksPass_calm (fuel : nat) (now : Z) (g : Graph) (s s' : State)
    (removed : bool) :
  calm s -> _graph s = Some g ->
  smallNetworksPass fuel now g s = Some (removed, s') ->
  calm s'
  /\ _existingIds s' = _existingIds s
  /\ _newItems s' = _newItems s
  /\ _smallNetworkInterval s' = _smallNetworkInterval s
  /\ exists g', _graph s' = Some g'.
Proof.
  intros [Hq Hc Hp Hgr] Hg H. unfold smallNetworksPass in H.
  destruct (discover fuel _ (clearGraphIds g) 0 []) as [[g2 subs]|] eqn:E;
    [|discriminate].
  injection H as Hrem Hs'.
  assert (Hshape : sameShape g g2).
  { eapply sameShape_trans; [apply sameShape_clearGraphIds|].
    eapply sameShape_discover; eauto. }
  destruct (Hgr g Hg) as [Hsound Hincl].
  assert (Hs2 : sound g2) by (eapply sameShape_sound; eauto).
  set (small := filter (isSmall now (length (_existingIds s))) subs) in *.
  destruct (0 <? length small)%nat eqn:El; subst removed.
  - set (mid := mkState (Some g2) (_existingIds s) (_newItems s)
                        (_removeNodes s ++ flat_map subNodes small)
                        (_msIndexToNode s) (_smallNetworkInterval s)
                        (itemCount s) (selectedFeedItem s)) in *.
    destruct (@removeNodes_state mid g2 eq_refl Hs2)
      as [g' [Hg' [Hsg' [Hi' [_ [Hq' [He' [Hn' Hv']]]]]]]].
    subst s'. split; [constructor|split; [|split; [|split]]].
    + exact Hq'.
    + now rewrite He'.
    + now rewrite Hn'.
    + intros g3 H3. rewrite Hg' in H3. injection H3 as <-.
      split; [exact Hsg'|].
      rewrite He'. simpl. intros x Hx. apply Hincl.
      destruct Hshape as [Hn _]. rewrite <- Hn. now apply Hi'.
    + exact He'.
    + exact Hn'.
    + exact Hv'.
    + eauto.
  - subst s'. simpl.
    assert (Hsm : small = []).
    { destruct small; [reflexivity|discriminate]. }
    rewrite Hsm. simpl. rewrite app_nil_r.
    split; [constructor; simpl|split; [|split; [|split]]]; auto.
    + intros g3 H3. injection H3 as <-.
      split; [exact Hs2|]. destruct Hshape as [Hn _]. now rewrite Hn.
    + eauto.
Qed.

Lemma smallNetworksLoop_calm (fuel rounds : nat) (now : Z) (s s' : State) :
  calm s -> smallNetworksLoop fuel rounds now s = Some s' ->
  calm s'
  /\ _existingIds s' = _existingIds s
  /\ _newItems s' = _newItems s
  /\ _smallNetworkInterval s' = _smallNetworkInterval s.
Proof.
  revert s. induction rounds as [|rounds IH]; intros s Hc H; simpl in H;
    [discriminate|].
  destruct (_graph s) as [g|] eqn:Hg.
  - destruct (smallNetworksPass fuel now g s) as [[removed s1]|] eqn:E;
      [|discriminate].
    destruct (@smallNetworksPass_calm fuel now g s s1 removed Hc Hg E)
      as [Hc1 [He1 [Hn1 [Hi1 _]]]].
    destruct removed.
    + destruct (IH s1 Hc1 H) as [Hc' [He' [Hn' Hi']]].
      split; [exact Hc'|]. split; [congruence|]. split; congruence.
    + injection H as <-. auto.
  - injection H as <-. auto.
Qed.

Lemma removeSmallNetworks_calm (fuel : nat) (now : Z) (s s' : State) :
  calm s -> removeSmallNetworks fuel now s = Some s' ->
  calm s'
  /\ _existingIds s' = _existingIds s
  /\ _newItems s' = _newItems s
  /\ _smallNetworkInterval s' = _smallNetworkInterval s.
Proof.
  intros Hc H. unfold removeSmallNetworks in H.
  destruct (_graph s); [now apply (@smallNetworksLoop_calm fuel fuel now s s')|].
  injection H as <-. auto.
Qed.

(** The number of nodes a frame adds to the graph. *)
Definition addedByFrame (now : Z) (s : State) : nat :=
  match _graph s with
  | Some g =>
      length (snd (drawItems now
                     (slice_to (ceil_div (length (_newItems s)) 50)
                               (_newItems s)) g))
  | None => 0
  end.

(** What is still a node after the queue of the sweep is drained is in
    the arrival sequence that the sweep leaves. *)
Lemma survivor_in_window (existing added : list string) (x : string) :
  (length added <= MAX_ITEMS)%nat ->
  In x (existing ++ added) ->
  truthy x = true ->
  ~ In x (filter (evictable added)
                 (firstn (length (existing ++ added) - MAX_ITEMS)
                         (existing ++ added))) ->
  In x (skipn (length (existing ++ added) - MAX_ITEMS) (existing ++ added)).
Proof.
  intros Hlen Hin Ht Hq.
  set (k := (length (existing ++ added) - MAX_ITEMS)%nat) in *.
  assert (Hk : (k <= length existing)%nat)
    by (unfold k; rewrite length_app; lia).
  rewrite skipn_app.
  replace (k - length existing)%nat with 0%nat by lia. cbn [skipn].
  rewrite firstn_app in Hq.
  replace (k - length existing)%nat with 0%nat in Hq by lia.
  cbn [firstn] in Hq. rewrite app_nil_r in Hq.
  apply in_or_app.
  destruct (in_dec string_dec x added) as [Ha|Ha]; [now right|left].
  apply in_app_or in Hin as [Hin|Hin]; [|contradiction].
  rewrite <- (firstn_skipn k existing) in Hin.
  apply in_app_or in Hin as [Hin|Hin]; [|exact Hin].
  exfalso. apply Hq. apply filter_In. split; [exact Hin|].
  unfold evictable. rewrite Ht. simpl. apply negb_true_iff.
  apply not_true_is_false. intros Hc. now apply includes_iff in Hc.
Qed.

Lemma length_skipn_cap (l : list string) :
  (length (skipn (length l - MAX_ITEMS) l) <= MAX_ITEMS)%nat.
Proof. rewrite length_skipn. lia. Qed.

Lemma drawUpdates_calm (fuel : nat) (now : Z) (s s' : State) :
  calm s -> (addedByFrame now s <= MAX_ITEMS)%nat ->
  drawUpdates fuel now s = Some s' -> calm s'.
Proof.
  intros Hc Hadd H. pose proof Hc as [Hq Hcap Hp Hgr].
  unfold drawUpdates in H. unfold addedByFrame in Hadd.
  destruct (_graph s) as [g|] eqn:Hg; [|now injection H as <-].
  destruct (0 <? length (_newItems s))%nat; [|now injection H as <-].
  destruct (Hgr g eq_refl) as [Hsound Hincl].
  set (items := slice_to (ceil_div (length (_newItems s)) 50) (_newItems s))
    in *.
  assert (Hitems : forall it, In it items -> truthy (id it) = true).
  { intros it Hit. apply Hp. unfold items, slice_to in Hit.
    rewrite <- (firstn_skipn (ceil_div (length (_newItems s)) 50)).
    apply in_or_app. now left. }
  destruct (@drawItems_sound now items g Hsound Hitems) as [Hn1 Hs1].
  destruct (drawItems now items g) as [g1 added] eqn:Ed.
  cbn [fst snd] in Hn1, Hs1, Hadd. cbv beta iota in H.
  rewrite evict_spec, Hq in H. cbn [app] in H. cbv beta iota in H.
  set (E1 := _existingIds s ++ added) in *.
  set (k := (length E1 - MAX_ITEMS)%nat) in *.
  set (queue := filter (evictable added) (firstn k E1)) in *.
  set (mid := mkState (Some g1) (skipn k E1) _ queue _ _ _ _) in *.
  destruct (@removeNodes_state mid g1 eq_refl Hs1)
    as [g2 [Hg2 [Hs2 [Hi2 [Hrem2 [Hq2 [He2 [Hn2 Hv2]]]]]]]].
  set (s2 := mkState (_graph (removeNodes mid)) _ _ _ _ _ _ _) in *.
  assert (Hc2 : calm s2).
  { constructor; simpl.
    - exact Hq2.
    - rewrite He2. simpl. apply length_skipn_cap.
    - rewrite Hn2. simpl. intros it Hit. apply Hp.
      unfold slice_from in Hit.
      rewrite <- (firstn_skipn (ceil_div (length (_newItems s)) 50)).
      apply in_or_app. now right.
    - intros g3 H3. rewrite Hg2 in H3. injection H3 as <-.
      split; [exact Hs2|]. rewrite He2. simpl.
      intros x Hx. apply survivor_in_window.
      + exact Hadd.
      + apply Hi2 in Hx. rewrite Hn1 in Hx. unfold E1.
        apply in_app_or in Hx as [Hx|Hx]; apply in_or_app; auto.
      + destruct Hs2 as [_ Ht2]. auto.
      + intros Hin. apply (Hrem2 x); auto. destruct Hs2 as [_ Ht2]. auto. }
  assert (Hfinal : forall s3, calm s3 ->
            calm (mkState (_graph s3) (_existingIds s3) (_newItems s3)
                          (_removeNodes s3) (_msIndexToNode s3)
                          (_smallNetworkInterval s3)
                          (length (_existingIds s3)) (selectedFeedItem s3))).
  { intros s3 [A B C D]. constructor; auto. }
  destruct (_smallNetworkInterval s mod 100 =? 0)%nat.
  - destruct (removeSmallNetworks fuel now s2) as [s3|] eqn:E3;
      [|discriminate].
    injection H as <-. apply Hfinal.
    now destruct (@removeSmallNetworks_calm fuel now s2 s3 Hc2 E3).
  - injection H as <-. exact (Hfinal s2 Hc2).
Qed.

(** An operation that only rewrites node data, the milestone index or
    the counters leaves the state calm. *)
Lemma calm_reshape (s s' : State) :
  calm s ->
  _removeNodes s' = _removeNodes s ->
  _existingIds s' = _existingIds s ->
  _newItems s' = _newItems s ->
  match _graph s, _graph s' with
  | Some g, Some g' => sameShape g g'
  | None, None => True
  | _, _ => False
  end ->
  calm s'.
Proof.
  intros [Hq Hc Hp Hg] Eq Ee En Eg. constructor.
  - congruence.
  - now rewrite Ee.
  - now rewrite En.
  - intros g' Hg'. rewrite Hg' in Eg. rewrite Ee.
    destruct (_graph s) as [g|]; [|contradiction].
    destruct (Hg g eq_refl) as [Hs Hi]. split.
    + eapply sameShape_sound; eauto.
    + destruct Eg as [Hn _]. now rewrite Hn.
Qed.

Lemma calm_highlightMilestones (now : Z) (s : State) :
  calm s -> calm (highlightMilestones now s).
Proof.
  intros Hc. unfold highlightMilestones.
  destruct (_graph s) as [g|] eqn:Hg; [|exact Hc].
  pose proof (sameShape_highlightIn now g (_msIndexToNode s)) as H.
  destruct (highlightIn now g (_msIndexToNode s)) as [g' ms'].
  apply (calm_reshape s _ Hc); simpl; try reflexivity.
  rewrite Hg. exact H.
Qed.

Lemma calm_setupGraph (s : State) : calm s -> calm (setupGraph s).
Proof.
  intros Hc. unfold setupGraph. destruct (_graph s) eqn:Hg; [exact Hc|].
  destruct Hc as [Hq Hcap Hp _]. constructor; auto.
  simpl. intros g H. injection H as <-. split.
  - split; [split|]; simpl; [constructor|intros l []|intros x []].
  - intros x [].
Qed.

Section Network.
Variable protocolVersion : option string.

Lemma calm_itemsUpdated (now : Z) (newItems : list IFeedItem) (s : State) :
  calm s -> (forall it, In it newItems -> truthy (id it) = true) ->
  calm (itemsUpdated protocolVersion now newItems s).
Proof.
  intros Hc Hn. unfold itemsUpdated.
  set (s1 := mkState (_graph s) (_existingIds s) (_newItems s ++ newItems)
                     (_removeNodes s) (_msIndexToNode s)
                     (_smallNetworkInterval s) (itemCount s)
                     (selectedFeedItem s)).
  assert (H1 : forall ms, calm (mkState (_graph s) (_existingIds s)
                     (_newItems s ++ newItems) (_removeNodes s) ms
                     (_smallNetworkInterval s) (itemCount s)
                     (selectedFeedItem s))).
  { intros ms. destruct Hc as [Hq Hcap Hp Hg]. constructor; simpl; auto.
    intros it Hit. apply in_app_or in Hit as [Hit|Hit]; auto. }
  destruct (isProtocol protocolVersion "chrysalis"); [|apply H1].
  cbn [_graph _existingIds _newItems _removeNodes _msIndexToNode
       _smallNetworkInterval itemCount selectedFeedItem].
  destruct (existsb isMilestone (_newItems s ++ newItems)); [|apply H1].
  apply calm_highlightMilestones, H1.
Qed.

Lemma sameShape_confirm (ids : list string) (g : Graph) :
  sameShape g
    (fold_left (fun g sn =>
                  updateNode g sn
                    (fun d => mkData (setConfirmed (feedItem d)) (added d)
                                     (graphId d))) ids g).
Proof.
  revert g. induction ids as [|x ids IH]; intros g; simpl.
  - apply sameShape_refl.
  - eapply sameShape_trans; [apply sameShape_updateNode|apply IH].
Qed.

Lemma calm_confirmedUpdated (ids : list string) (s : State) :
  calm s -> calm (confirmedUpdated ids s).
Proof.
  intros Hc. unfold confirmedUpdated.
  destruct (_graph s) as [g|] eqn:Hg; [|exact Hc].
  apply (calm_reshape s _ Hc); simpl; try reflexivity.
  rewrite Hg. apply sameShape_confirm.
Qed.

Lemma calm_milestonesUpdated (now : Z) (milestones : list (string * Z))
    (s : State) :
  calm s -> calm (milestonesUpdated protocolVersion now milestones s).
Proof.
  intros Hc. unfold milestonesUpdated.
  destruct (isProtocol protocolVersion "og"); [|exact Hc].
  apply calm_highlightMilestones.
  destruct Hc as [Hq Hcap Hp Hg]. constructor; auto.
Qed.

(** The states the component goes through: it is constructed, the
    graph is set up, items, confirmations and milestones come in, and
    frames are drawn. The items of the feed have non-empty ids, and a
    frame is only followed here when it adds no more nodes than the cap
    allows for. *)
Inductive reach : State -> Prop :=
| reach_constructed : reach constructed
| reach_setupGraph s : reach s -> reach (setupGraph s)
| reach_itemsUpdated s now newItems :
    reach s -> (forall it, In it newItems -> truthy (id it) = true) ->
    reach (itemsUpdated protocolVersion now newItems s)
| reach_confirmedUpdated s ids : reach s -> reach (confirmedUpdated ids s)
| reach_milestonesUpdated s now milestones :
    reach s -> reach (milestonesUpdated protocolVersion now milestones s)
| reach_drawUpdates s fuel now s' :
    reach s -> (addedByFrame now s <= MAX_ITEMS)%nat ->
    drawUpdates fuel now s = Some s' -> reach s'.

Lemma reach_calm (s : State) : reach s -> calm s.
Proof.
  induction 1.
  - constructor; simpl.
    + reflexivity.
    + apply Nat.le_0_l.
    + intros it [].
    + discriminate.
  - now apply calm_setupGraph.
  - now apply calm_itemsUpdated.
  - now apply calm_confirmedUpdated.
  - now apply calm_milestonesUpdated.
  - eapply drawUpdates_calm; eauto.
Qed.


End Network.

Local Open Scope string_scope.

(** The component after the graph is set up and the item [a] came in. *)
Definition mounted : State :=
  itemsUpdated None 0 [child "a" "" 0] (setupGraph constructed).



























Local Close Scope string_scope.

(** *** Connected components *)

(** Two nodes are adjacent when a link joins them, in either
    direction. *)
Definition adj (ls : list Link) (x y : string) : Prop :=
  exists l, In l ls
    /\ ((fromId l = x /\ toId l = y) \/ (fromId l = y /\ toId l = x)).

Definition connected (ls : list Link) : string -> string -> Prop :=
  clos_refl_trans string (adj ls).

(** [members] lists the connected component of [x], every node once. *)
Definition component (g : Graph) (x : string) (members : list string) : Prop :=
  NoDup members /\ forall y, In y members <-> connected (links g) x y.

(** The latest [added] among the members, and at least 0. *)
Definition maxAdded (g : Graph) (members : list string) : Z :=
  fold_left (fun m y =>
               match getNode g y with
               | Some d => Z.max m (added d)
               | None => m
               end) members 0%Z.

(** What a pass never changes in a node. *)
Definition stamps (g : Graph) : list (string * (IFeedItem * Z)) :=
  map (fun n => (fst n, (feedItem (snd n), added (snd n)))) (nodes g).

Definition isUnmarked (g : Graph) (y : string) : bool :=
  match getNode g y with
  | Some d => noGraphId d
  | None => false
  end.

Lemma adj_sym (ls : list Link) (x y : string) : adj ls x y -> adj ls y x.
Proof. intros [l [Hin H]]. exists l. tauto. Qed.

Lemma connected_sym (ls : list Link) (x y : string) :
  connected ls x y -> connected ls y x.
Proof.
  induction 1.
  - apply rt_step. now apply adj_sym.
  - apply rt_refl.
  - eapply rt_trans; eauto.
Qed.

Lemma connected_step (ls : list Link) (x y z : string) :
  connected ls x y -> adj ls y z -> connected ls x z.
Proof. intros H1 H2. eapply rt_trans; [exact H1|now apply rt_step]. Qed.

Lemma adj_linkedIds (g : Graph) (y z : string) :
  In y (nodeIds g) -> (In z (linkedIds g y) <-> adj (links g) y z).
Proof.
  intros Hy. unfold linkedIds. apply getNode_Some in Hy as [d Hd].
  rewrite Hd. rewrite in_map_iff. split.
  - intros [l [Ho Hin]]. apply nodeLinks_In in Hin as [Hin Ht].
    exists l. split; [exact Hin|]. unfold otherEnd in Ho. unfold touches in Ht.
    destruct (String.eqb (fromId l) y) eqn:E1.
    + apply String.eqb_eq in E1. auto.
    + simpl in Ht. apply String.eqb_eq in Ht. auto.
  - intros [l [Hin H]]. exists l. split.
    + unfold otherEnd. destruct H as [[H1 H2]|[H1 H2]].
      * now rewrite H1, String.eqb_refl.
      * destruct (String.eqb (fromId l) y) eqn:E1; [|exact H1].
        apply String.eqb_eq in E1. congruence.
    + apply nodeLinks_In. split; [exact Hin|]. unfold touches.
      destruct H as [[H1 H2]|[H1 H2]].
      * now rewrite H1, String.eqb_refl.
      * rewrite H2, String.eqb_refl. apply orb_true_r.
Qed.

Lemma stamps_ids (g : Graph) : map fst (stamps g) = nodeIds g.
Proof. unfold stamps, nodeIds. rewrite map_map. now apply map_ext. Qed.

Lemma stamps_updateNode (g : Graph) (x : string) (f : INodeData -> INodeData) :
  (forall d, feedItem (f d) = feedItem d /\ added (f d) = added d) ->
  stamps (updateNode g x f) = stamps g.
Proof.
  intros Hf. unfold stamps, updateNode. simpl.
  induction (nodes g) as [|[k d] r IH]; simpl; [reflexivity|].
  destruct (String.eqb k x); simpl.
  - destruct (Hf d) as [H1 H2]. now rewrite H1, H2.
  - now rewrite IH.
Qed.

Lemma stamps_getNode (g g' : Graph) (y : string) (d' : INodeData) :
  stamps g' = stamps g -> getNode g' y = Some d' ->
  exists d, getNode g y = Some d
    /\ feedItem d' = feedItem d /\ added d' = added d.
Proof.
  unfold stamps, getNode. revert g'. generalize (nodes g) as ns.
  intros ns g'. generalize (nodes g') as ns'. clear g g'.
  induction ns as [|[k d] ns IH]; intros [|[k' e] ns'] H Hd;
    simpl in *; try discriminate.
  injection H as Hk Hf Ha Hr. subst k'.
  destruct (String.eqb k y).
  - simpl in Hd. injection Hd as <-. exists d. auto.
  - eauto.
Qed.

Lemma isUnmarked_node (g : Graph) (y : string) :
  isUnmarked g y = true -> In y (nodeIds g).
Proof.
  unfold isUnmarked. destruct (getNode g y) eqn:E; [|discriminate].
  intros _. apply getNode_Some. eauto.
Qed.

Lemma isUnmarked_mark (g : Graph) (y z : string) (gid : nat) :
  isUnmarked (updateNode g y (setGraphId (Some (S gid)))) z
  = isUnmarked g z && negb (String.eqb y z).
Proof.
  unfold isUnmarked. destruct (String.eqb y z) eqn:E.
  - apply String.eqb_eq in E. subst z. rewrite getNode_updateNode_same.
    destruct (getNode g y); simpl; [apply eq_sym, andb_false_r|reflexivity].
  - apply String.eqb_neq in E. rewrite getNode_updateNode_other by exact E.
    now rewrite andb_true_r.
Qed.

Lemma enqueueLinked_eq (g : Graph) (tv : list string) (z : string) :
  enqueueLinked g tv z
  = if isUnmarked g z && negb (includes tv z) then tv ++ [z] else tv.
Proof.
  unfold enqueueLinked, isUnmarked. now destruct (getNode g z).
Qed.

(** What the links of one node add to the queue: the linked nodes
    without a graph id that are not waiting yet, each once. *)
Lemma enqueue_spec (g : Graph) (cand tv : list string) :
  exists news,
    fold_left (enqueueLinked g) cand tv = tv ++ news
    /\ NoDup news
    /\ (forall z, In z news ->
          In z cand /\ isUnmarked g z = true /\ ~ In z tv)
    /\ (forall z, In z cand -> isUnmarked g z = true ->
          In z (tv ++ news)).
Proof.
  revert tv. induction cand as [|c cs IH]; intros tv; simpl.
  - exists []. rewrite app_nil_r. repeat split; [constructor|easy..].
  - rewrite enqueueLinked_eq.
    destruct (isUnmarked g c && negb (includes tv c)) eqn:E.
    + apply andb_true_iff in E as [Eu Ei].
      apply negb_true_iff in Ei.
      assert (Hc : ~ In c tv)
        by (intros Hc; apply includes_iff in Hc; congruence).
      destruct (IH (tv ++ [c])) as [news [Hf [Hnd [Hel Hcov]]]].
      exists (c :: news). rewrite Hf, <- app_assoc. simpl.
      split; [reflexivity|]. split; [|split].
      * constructor; [|exact Hnd]. intros Hin.
        destruct (Hel c Hin) as [_ [_ Hn]]. apply Hn.
        apply in_or_app. right. now left.
      * intros z [<-|Hz]; [auto|].
        destruct (Hel z Hz) as [H1 [H2 H3]]. repeat split; auto.
        intros Hin. apply H3. apply in_or_app. now left.
      * intros z [<-|Hz] Hu.
        -- apply in_or_app. right. now left.
        -- specialize (Hcov z Hz Hu). rewrite <- app_assoc in Hcov. exact Hcov.
    + destruct (IH tv) as [news [Hf [Hnd [Hel Hcov]]]].
      exists news. split; [exact Hf|]. split; [exact Hnd|]. split.
      * intros z Hz. destruct (Hel z Hz) as [H1 [H2 H3]]. auto.
      * intros z [<-|Hz] Hu; [|auto].
        rewrite Hu in E. simpl in E. apply negb_false_iff in E.
        apply includes_iff in E. apply in_or_app. now left.
Qed.

Lemma maxAdded_snoc (g : Graph) (vis : list string) (y : string) :
  maxAdded g (vis ++ [y])
  = match getNode g y with
    | Some d => Z.max (maxAdded g vis) (added d)
    | None => maxAdded g vis
    end.
Proof. unfold maxAdded. now rewrite fold_left_app. Qed.

(** The graph ids set so far mark whole components. *)
Definition closedMarks (g : Graph) : Prop :=
  forall l, In l (links g) ->
    isUnmarked g (fromId l) = isUnmarked g (toId l).

Lemma adj_nodes (g : Graph) (y z : string) :
  sound g -> adj (links g) y z -> In y (nodeIds g) /\ In z (nodeIds g).
Proof.
  intros [[_ Hl] _] [l [Hin H]]. destruct (Hl l Hin) as [Hf Ht].
  destruct H as [[<- <-]|[<- <-]]; auto.
Qed.

Lemma closedMarks_adj (g : Graph) (y z : string) :
  closedMarks g -> adj (links g) y z -> isUnmarked g y = isUnmarked g z.
Proof.
  intros Hc [l [Hin H]]. specialize (Hc l Hin).
  destruct H as [[<- <-]|[<- <-]]; congruence.
Qed.

Section Traversal.
(** The traversal starts at [x0], a node of [g] without a graph id. *)
Variable g : Graph.
Variable x0 : string.
Variable gid : nat.
Hypothesis g_sound : sound g.
Hypothesis g_closed : closedMarks g.
Hypothesis x0_unmarked : isUnmarked g x0 = true.

(** The state of the loop of [calculateSubGraph]. *)
Record visiting (g' : Graph) (toVisit visited : list string) (mrc : Z)
  : Prop := {
  v_links : links g' = links g;
  v_stamps : stamps g' = stamps g;
  v_marks : forall y, isUnmarked g' y = true <->
                      isUnmarked g y = true /\ ~ In y visited;
  v_nodup : NoDup (visited ++ toVisit);
  v_queue : forall y, In y toVisit ->
    isUnmarked g y = true /\ connected (links g) x0 y;
  v_seen : forall y, In y visited ->
    isUnmarked g y = true /\ connected (links g) x0 y;
  v_front : forall y z, In y visited -> adj (links g) y z ->
    In z visited \/ In z toVisit;
  v_start : In x0 (visited ++ toVisit);
  v_recent : mrc = maxAdded g visited
}.

Lemma visiting_start : visiting g [x0] [] 0.
Proof.
  constructor; simpl; auto;
    try (intros y; tauto);
    try (repeat constructor; intros []);
    try (intros y [<-|[]]; split; [exact x0_unmarked|apply rt_refl]);
    try (intros y []); try (intros y z []).
Qed.

Lemma visiting_ids (g' : Graph) (tv vis : list string) (mrc : Z) :
  visiting g' tv vis mrc -> nodeIds g' = nodeIds g.
Proof. intros H. rewrite <- !stamps_ids. now rewrite (v_stamps _ _ _ _ H). Qed.

Lemma visiting_step (g' : Graph) (y : string) (rest vis : list string)
    (mrc : Z) :
  visiting g' (y :: rest) vis mrc ->
  exists d, getNode g' y = Some d /\ noGraphId d = true
    /\ truthy y = true
    /\ visiting (updateNode g' y (setGraphId (Some (S gid))))
         (fold_left
            (enqueueLinked (updateNode g' y (setGraphId (Some (S gid)))))
            (linkedIds (updateNode g' y (setGraphId (Some (S gid)))) y) rest)
         (vis ++ [y])
         (if (mrc <? added d)%Z then added d else mrc).
Proof.
  intros H. pose proof H as [Hl Hst Hm Hnd Hq Hseen Hfront Hstart Hrec].
  destruct (Hq y (or_introl eq_refl)) as [Hyu Hyc].
  assert (Hyvis : ~ In y vis).
  { intros Hin. apply NoDup_remove_2 in Hnd. apply Hnd.
    apply in_or_app. now left. }
  assert (Hyrest : ~ In y rest).
  { intros Hin. apply NoDup_remove_2 in Hnd. apply Hnd.
    apply in_or_app. now right. }
  assert (Hy' : isUnmarked g' y = true) by (apply Hm; auto).
  unfold isUnmarked in Hy'.
  destruct (getNode g' y) as [d|] eqn:Ed; [|discriminate].
  exists d. split; [reflexivity|]. split; [exact Hy'|].
  assert (Hynode : In y (nodeIds g)) by now apply isUnmarked_node.
  split; [now apply g_sound|].
  set (g2 := updateNode g' y (setGraphId (Some (S gid)))).
  assert (Hids : nodeIds g2 = nodeIds g).
  { unfold g2. rewrite nodeIds_updateNode. eapply visiting_ids; eauto. }
  assert (Hl2 : links g2 = links g) by exact Hl.
  assert (Hm2 : forall z, isUnmarked g2 z = true <->
                          isUnmarked g z = true /\ ~ In z (vis ++ [y])).
  { intros z. unfold g2. rewrite isUnmarked_mark, andb_true_iff, Hm.
    rewrite negb_true_iff, String.eqb_neq, in_app_iff. simpl.
    intuition congruence. }
  assert (Hcand : forall z, In z (linkedIds g2 y) <-> adj (links g) y z).
  { intros z. rewrite <- Hl2. apply adj_linkedIds. now rewrite Hids. }
  destruct (enqueue_spec g2 (linkedIds g2 y) rest)
    as [news [Hf [Hnn [Hel Hcov]]]].
  rewrite Hf.
  assert (Hnd' : NoDup ((vis ++ [y]) ++ rest)).
  { rewrite <- app_assoc. exact Hnd. }
  constructor.
  - exact Hl2.
  - unfold g2. rewrite stamps_updateNode; [exact Hst|]. intros d0. now split.
  - exact Hm2.
  - rewrite app_assoc. apply NoDup_app; auto.
    intros z Hz1 Hz2. destruct (Hel z Hz2) as [_ [Hu Hr]].
    apply Hm2 in Hu as [_ Hu]. apply in_app_or in Hz1 as [Hz1|Hz1]; auto.
  - intros z Hz. apply in_app_or in Hz as [Hz|Hz].
    + apply Hq. now right.
    + destruct (Hel z Hz) as [Hc [Hu _]]. apply Hm2 in Hu as [Hu _].
      split; [exact Hu|]. eapply connected_step; [exact Hyc|].
      now apply Hcand.
  - intros z Hz. apply in_app_or in Hz as [Hz|[<-|[]]]; auto.
  - intros v z Hv Ha. apply in_app_or in Hv as [Hv|[<-|[]]].
    + destruct (Hfront v z Hv Ha) as [Hz|[<-|Hz]].
      * left. apply in_or_app. now left.
      * left. apply in_or_app. right. now left.
      * right. apply in_or_app. now left.
    + destruct (in_dec string_dec z (vis ++ [y])) as [Hz|Hz]; [now left|].
      right. apply Hcov; [now apply Hcand|]. apply Hm2. split; [|exact Hz].
      rewrite <- (closedMarks_adj g y z g_closed Ha). exact Hyu.
  - apply in_app_or in Hstart as [Hs|[<-|Hs]].
    + apply in_or_app. left. apply in_or_app. now left.
    + apply in_or_app. left. apply in_or_app. right. now left.
    + apply in_or_app. right. apply in_or_app. now left.
  - rewrite maxAdded_snoc.
    destruct (stamps_getNode g g' y d Hst Ed) as [d0 [Hd0 [_ Ha]]].
    rewrite Hd0, <- Ha, Hrec.
    destruct (maxAdded g vis <? added d)%Z eqn:E.
    + apply Z.ltb_lt in E. lia.
    + apply Z.ltb_ge in E. lia.
Qed.

(** With one unit of fuel for every node that has not been visited, the
    loop comes to its end. *)
Lemma visit_runs (fuel : nat) (g' : Graph) (tv vis : list string) (mrc : Z) :
  visiting g' tv vis mrc ->
  (length (nodeIds g) < fuel + length vis)%nat ->
  exists g2 vis2 mrc2,
    visit fuel (S gid) g' tv vis mrc = Some (g2, vis2, mrc2)
    /\ visiting g2 [] vis2 mrc2.
Proof.
  revert g' tv vis mrc.
  induction fuel as [|fuel IH]; intros g' tv vis mrc H Hfuel.
  - destruct tv as [|y rest]; [simpl; eauto|].
    exfalso.
    assert (Hle : (length (vis ++ [y]) <= length (nodeIds g))%nat).
    { apply NoDup_incl_length.
      - pose proof (v_nodup _ _ _ _ H) as Hnd.
        replace (vis ++ y :: rest) with ((vis ++ [y]) ++ rest) in Hnd
          by now rewrite <- app_assoc.
        now apply NoDup_app_remove_r in Hnd.
      - intros z Hz. apply isUnmarked_node.
        apply in_app_or in Hz as [Hz|[<-|[]]].
        + now apply (v_seen _ _ _ _ H).
        + apply (v_queue _ _ _ _ H). now left. }
    rewrite length_app in Hle. simpl in Hle, Hfuel. lia.
  - destruct tv as [|y rest]; [simpl; eauto|].
    destruct (visiting_step _ _ _ _ _ H) as [d [Ed [Hn [Ht Hv]]]].
    simpl. rewrite Ht, Ed, Hn.
    apply IH; [exact Hv|]. rewrite length_app. simpl. lia.
Qed.

(** What the loop returns: the component of [x0], each node once, and
    the latest [added] in it; the nodes of the component have a graph id
    now, and nothing else has changed. *)
Lemma visited_component (g2 : Graph) (vis : list string) (mrc : Z) :
  visiting g2 [] vis mrc ->
  component g x0 vis
  /\ mrc = maxAdded g vis
  /\ links g2 = links g
  /\ stamps g2 = stamps g
  /\ closedMarks g2
  /\ (forall y, isUnmarked g2 y = true <->
                isUnmarked g y = true /\ ~ In y vis).
Proof.
  intros [Hl Hst Hm Hnd Hq Hseen Hfront Hstart Hrec].
  rewrite app_nil_r in Hnd, Hstart.
  assert (Hcomp : forall y, In y vis <-> connected (links g) x0 y).
  { intros y. split; [apply Hseen|].
    intros Hc. apply clos_rt_rtn1 in Hc.
    induction Hc as [|y z Ha Hc IH]; [exact Hstart|].
    destruct (Hfront y z IH Ha) as [Hz|[]]. exact Hz. }
  split; [split; assumption|]. split; [exact Hrec|].
  split; [exact Hl|]. split; [exact Hst|]. split; [|exact Hm].
  intros l Hin. rewrite Hl in Hin.
  assert (Ha : adj (links g) (fromId l) (toId l)) by (exists l; auto).
  assert (Hv : In (fromId l) vis <-> In (toId l) vis).
  { rewrite !Hcomp. split; intros Hc.
    - eapply connected_step; eauto.
    - eapply connected_step; [exact Hc|now apply adj_sym]. }
  pose proof (g_closed l Hin) as Hg.
  destruct (isUnmarked g2 (fromId l)) eqn:E1,
    (isUnmarked g2 (toId l)) eqn:E2; try reflexivity; exfalso.
  - apply Hm in E1 as [Hu Hn].
    assert (isUnmarked g2 (toId l) = true) by (apply Hm; split; [congruence|tauto]).
    congruence.
  - apply Hm in E2 as [Hu Hn].
    assert (isUnmarked g2 (fromId l) = true) by (apply Hm; split; [congruence|tauto]).
    congruence.
Qed.

End Traversal.

Lemma maxAdded_stamps (g g' : Graph) (members : list string) :
  stamps g' = stamps g -> maxAdded g' members = maxAdded g members.
Proof.
  intros Hst. unfold maxAdded. generalize 0%Z as m.
  induction members as [|y members IH]; intros m; simpl; [reflexivity|].
  assert (E : match getNode g' y with Some d => Z.max m (added d) | None => m end
              = match getNode g y with Some d => Z.max m (added d) | None => m end).
  { destruct (getNode g' y) as [d'|] eqn:E'.
    - destruct (stamps_getNode g g' y d' Hst E') as [d [Hd [_ Ha]]].
      now rewrite Hd, Ha.
    - destruct (getNode g y) as [d|] eqn:E0; [|reflexivity].
      destruct (stamps_getNode g' g y d (eq_sym Hst) E0) as [d' [Hd' _]].
      congruence. }
  rewrite E. apply IH.
Qed.

Lemma component_links (g g' : Graph) (x : string) (members : list string) :
  links g' = links g -> component g x members -> component g' x members.
Proof. unfold component. now intros ->. Qed.

Lemma sound_shape (g g' : Graph) :
  links g' = links g -> stamps g' = stamps g -> sound g -> sound g'.
Proof.
  intros Hl Hst. apply sameShape_sound. split; [|exact Hl].
  now rewrite <- !stamps_ids, Hst.
Qed.

Section Discovery.
(** The graph at the start of the second [forEachNode] of a pass: no
    node has a graph id. *)
Variable gb : Graph.
Variable fuel : nat.
Hypothesis gb_sound : sound gb.
Hypothesis fuel_enough : (length (nodeIds gb) < fuel)%nat.

(** The state of the second [forEachNode]. *)
Record discovered (g' : Graph) (subs : list SubGraph) : Prop := {
  d_links : links g' = links gb;
  d_stamps : stamps g' = stamps gb;
  d_closed : closedMarks g';
  d_subs : forall sub, In sub subs ->
    exists x, In x (nodeIds gb)
      /\ component gb x (subNodes sub)
      /\ mostRecentChange sub = maxAdded gb (subNodes sub);
  d_marked : forall y, In y (nodeIds gb) ->
    (isUnmarked g' y = false <->
     exists sub, In sub subs /\ In y (subNodes sub))
}.

Lemma discover_step (g' : Graph) (subs : list SubGraph) (x : string)
    (gid : nat) :
  discovered g' subs -> isUnmarked g' x = true ->
  exists g2 sub,
    calculateSubGraph fuel g' x (S gid) = Some (g2, sub)
    /\ discovered g2 (subs ++ [sub])
    /\ In x (subNodes sub).
Proof.
  intros [Hl Hst Hc Hsubs Hm] Hx.
  assert (Hs' : sound g') by (eapply sound_shape; eauto).
  assert (Hids : nodeIds g' = nodeIds gb)
    by now rewrite <- !stamps_ids, Hst.
  destruct (visit_runs g' x gid Hs' Hc Hx fuel g' [x] [] 0
              (visiting_start g' x Hx))
    as [g2 [vis [mrc [Hv Hfin]]]].
  { simpl. rewrite Hids. lia. }
  destruct (visited_component g' x Hc g2 vis mrc Hfin)
    as [Hcomp [Hmrc [Hl2 [Hst2 [Hc2 Hm2]]]]].
  exists g2, (mkSub vis mrc). unfold calculateSubGraph. rewrite Hv.
  split; [reflexivity|]. split.
  - constructor.
    + congruence.
    + congruence.
    + exact Hc2.
    + intros sub Hin. apply in_app_or in Hin as [Hin|[<-|[]]]; [auto|].
      exists x. simpl. split; [|split].
      * rewrite <- Hids. now apply isUnmarked_node.
      * now apply (component_links g' gb).
      * rewrite Hmrc. now apply maxAdded_stamps.
    + intros y Hy. split.
      * intros Hu.
        destruct (isUnmarked g' y) eqn:E.
        -- exists (mkSub vis mrc). split; [apply in_or_app; right; now left|].
           simpl. destruct (in_dec string_dec y vis) as [Hin|Hin]; [exact Hin|].
           assert (isUnmarked g2 y = true) by (apply Hm2; auto). congruence.
        -- apply (Hm y Hy) in E as [sub [Hin Hys]].
           exists sub. split; [apply in_or_app; now left|exact Hys].
      * intros [sub [Hin Hys]]. apply not_true_is_false. intros Hu.
        apply Hm2 in Hu as [Hu Hn].
        apply in_app_or in Hin as [Hin|[<-|[]]].
        -- assert (isUnmarked g' y = false) by (apply (Hm y Hy); eauto).
           congruence.
        -- contradiction.
  - simpl. apply Hcomp. apply rt_refl.
Qed.

Lemma discover_runs (ids : list string) (g' : Graph) (gid : nat)
    (subs : list SubGraph) :
  discovered g' subs ->
  (forall y, In y ids -> In y (nodeIds gb)) ->
  exists g2 subs2,
    discover fuel ids g' gid subs = Some (g2, subs2)
    /\ discovered g2 subs2
    /\ (forall sub, In sub subs -> In sub subs2)
    /\ (forall y, In y ids ->
          exists sub, In sub subs2 /\ In y (subNodes sub)).
Proof.
  revert g' gid subs. induction ids as [|x ids IH];
    intros g' gid subs Hd Hids; simpl.
  - exists g', subs.
    split; [reflexivity|split; [exact Hd|split; [auto|intros y []]]].
  - assert (Hx : In x (nodeIds gb)) by (apply Hids; now left).
    assert (Hrest : forall y, In y ids -> In y (nodeIds gb))
      by (intros y Hy; apply Hids; now right).
    assert (Hn : nodeIds g' = nodeIds gb)
      by now rewrite <- !stamps_ids, (d_stamps _ _ Hd).
    destruct (getNode g' x) as [d|] eqn:Ed.
    + destruct (noGraphId d) eqn:En.
      * assert (Hu : isUnmarked g' x = true)
          by (unfold isUnmarked; now rewrite Ed).
        destruct (discover_step g' subs x gid Hd Hu)
          as [g1 [sub [Hc [Hd1 Hxs]]]].
        rewrite Hc.
        destruct (IH g1 (S gid) (subs ++ [sub]) Hd1 Hrest)
          as [g2 [subs2 [Hr [Hd2 [Hmono Hcov]]]]].
        exists g2, subs2. split; [exact Hr|]. split; [exact Hd2|]. split.
        -- intros s0 Hs0. apply Hmono. apply in_or_app. now left.
        -- intros y [<-|Hy]; [|auto].
           exists sub. split; [|exact Hxs].
           apply Hmono. apply in_or_app. right. now left.
      * destruct (IH g' gid subs Hd Hrest)
          as [g2 [subs2 [Hr [Hd2 [Hmono Hcov]]]]].
        exists g2, subs2. split; [exact Hr|]. split; [exact Hd2|].
        split; [exact Hmono|].
        intros y [<-|Hy]; [|auto].
        assert (Hu : isUnmarked g' x = false)
          by (unfold isUnmarked; now rewrite Ed, En).
        apply (d_marked _ _ Hd x Hx) in Hu as [sub [Hin Hxs]].
        exists sub. split; [now apply Hmono|exact Hxs].
    + exfalso. apply getNode_None in Ed. rewrite Hn in Ed. contradiction.
Qed.

End Discovery.

Lemma isUnmarked_clear (g : Graph) (y : string) :
  In y (nodeIds g) -> isUnmarked (clearGraphIds g) y = true.
Proof.
  intros Hy. unfold isUnmarked, getNode, clearGraphIds. simpl.
  unfold nodeIds in Hy. induction (nodes g) as [|[k d] r IH]; simpl in *;
    [contradiction|].
  destruct (String.eqb k y) eqn:E; simpl; [reflexivity|].
  destruct Hy as [Hy|Hy]; [|auto]. subst. now rewrite String.eqb_refl in E.
Qed.

Lemma stamps_clear (g : Graph) : stamps (clearGraphIds g) = stamps g.
Proof.
  unfold stamps, clearGraphIds. simpl. rewrite map_map. now apply map_ext.
Qed.

(** The discovery of a pass lists the components of the graph: every
    sub graph is a component with its latest [added], and every node is
    in one of them. *)
Lemma discover_components (fuel : nat) (g : Graph) :
  sound g -> (length (nodeIds g) < fuel)%nat ->
  exists g2 subs,
    discover fuel (nodeIds (clearGraphIds g)) (clearGraphIds g) 0 []
    = Some (g2, subs)
    /\ links g2 = links g /\ stamps g2 = stamps g
    /\ (forall sub, In sub subs ->
          exists x, In x (nodeIds g)
            /\ component g x (subNodes sub)
            /\ mostRecentChange sub = maxAdded g (subNodes sub))
    /\ (forall y, In y (nodeIds g) ->
          exists sub, In sub subs /\ In y (subNodes sub)).
Proof.
  intros Hs Hfuel. set (gb := clearGraphIds g).
  assert (Hshape : sameShape g gb) by apply sameShape_clearGraphIds.
  destruct Hshape as [Hn Hl].
  assert (Hsb : sound gb) by (eapply sameShape_sound; [split|]; eauto).
  assert (Hst : stamps gb = stamps g) by apply stamps_clear.
  assert (H0 : discovered gb gb []).
  { constructor; auto.
    - intros l Hin. destruct Hsb as [[_ Hends] _].
      destruct (Hends l Hin) as [Hf Ht]. unfold gb in *.
      rewrite Hn in Hf, Ht. now rewrite !isUnmarked_clear.
    - intros sub [].
    - intros y Hy. unfold gb in *. rewrite Hn in Hy.
      rewrite isUnmarked_clear by exact Hy.
      split; [discriminate|]. intros [sub [[] _]]. }
  destruct (discover_runs gb fuel Hsb ltac:(rewrite Hn; exact Hfuel)
              (nodeIds gb) gb 0 [] H0 (fun y H => H))
    as [g2 [subs [Hr [Hd [_ Hcov]]]]].
  exists g2, subs. split; [exact Hr|].
  destruct Hd as [Hl2 Hst2 _ Hsubs _].
  split; [congruence|]. split; [congruence|]. split.
  - intros sub Hin. destruct (Hsubs sub Hin) as [x [Hx [Hc Hm]]].
    exists x. split; [now rewrite <- Hn|]. split.
    + now apply (component_links gb g).
    + rewrite Hm. now apply maxAdded_stamps.
  - intros y Hy. apply Hcov. now rewrite Hn.
Qed.

(** *** Small components *)

(** The test of the pass, on the members of a component. *)
Definition smallAt (now : Z) (total : nat) (g : Graph)
    (members : list string) : bool :=
  isSmall now total (mkSub members (maxAdded g members)).

(** The component of [y] passes the test. *)
Definition isSmallComponent (now : Z) (total : nat) (g : Graph) (y : string)
  : Prop :=
  exists members, component g y members /\ smallAt now total g members = true.

Lemma maxAdded_fold_bounds (g : Graph) (members : list string) (m0 : Z) :
  let r := fold_left (fun m y =>
                        match getNode g y with
                        | Some d => Z.max m (added d)
                        | None => m
                        end) members m0 in
  (m0 <= r)%Z
  /\ (forall y d, In y members -> getNode g y = Some d -> (added d <= r)%Z)
  /\ (r = m0 \/ exists y d, In y members /\ getNode g y = Some d /\ added d = r).
Proof.
  revert m0. induction members as [|x members IH]; intros m0; cbv zeta; simpl.
  - split; [lia|]. split; [intros y d []|now left].
  - set (m1 := match getNode g x with
               | Some d => Z.max m0 (added d) | None => m0 end).
    destruct (IH m1) as [H1 [H2 H3]]. cbv zeta in H1, H2, H3.
    assert (Hm : (m0 <= m1)%Z) by (unfold m1; destruct (getNode g x); lia).
    split; [lia|]. split.
    + intros y d [<-|Hy] Hd; [|eauto].
      assert ((added d <= m1)%Z) by (unfold m1; rewrite Hd; lia). lia.
    + destruct H3 as [H3|[y [d [Hy [Hd He]]]]].
      * destruct (getNode g x) as [d|] eqn:Ed; [|left; rewrite H3; reflexivity].
        destruct (Z.max_spec m0 (added d)) as [[_ Hmax]|[_ Hmax]].
        -- right. exists x, d. split; [now left|]. split; [exact Ed|].
           rewrite H3. unfold m1. lia.
        -- left. rewrite H3. unfold m1. lia.
      * right. exists y, d. auto.
Qed.

Lemma maxAdded_le (g : Graph) (m1 m2 : list string) :
  incl m1 m2 -> (maxAdded g m1 <= maxAdded g m2)%Z.
Proof.
  intros Hi. unfold maxAdded.
  destruct (maxAdded_fold_bounds g m1 0) as [_ [_ Hatt]].
  destruct (maxAdded_fold_bounds g m2 0) as [Hge [Hub _]].
  cbv zeta in *.
  destruct Hatt as [->|[y [d [Hy [Hd <-]]]]]; [exact Hge|].
  apply (Hub y d); auto.
Qed.

Lemma maxAdded_same_set (g : Graph) (m1 m2 : list string) :
  (forall y, In y m1 <-> In y m2) -> maxAdded g m1 = maxAdded g m2.
Proof.
  intros H. apply Z.le_antisymm; apply maxAdded_le; intros y Hy; now apply H.
Qed.

Lemma component_same_size (g : Graph) (x y : string) (m1 m2 : list string) :
  component g x m1 -> component g y m2 -> connected (links g) x y ->
  length m1 = length m2 /\ forall z, In z m1 <-> In z m2.
Proof.
  intros [Hn1 H1] [Hn2 H2] Hc.
  assert (Hs : forall z, In z m1 <-> In z m2).
  { intros z. rewrite H1, H2. split; intros Hz.
    - eapply rt_trans; [apply connected_sym; exact Hc|exact Hz].
    - eapply rt_trans; eauto. }
  split; [|exact Hs].
  apply Nat.le_antisymm; apply NoDup_incl_length; auto;
    intros z Hz; now apply Hs.
Qed.

Lemma smallAt_component (now : Z) (total : nat) (g : Graph) (x y : string)
    (m1 m2 : list string) :
  component g x m1 -> component g y m2 -> connected (links g) x y ->
  smallAt now total g m1 = smallAt now total g m2.
Proof.
  intros H1 H2 Hc.
  destruct (component_same_size g x y m1 m2 H1 H2 Hc) as [Hl Hs].
  unfold smallAt, isSmall. simpl.
  now rewrite Hl, (maxAdded_same_set g m1 m2 Hs).
Qed.

Lemma component_reroot (g : Graph) (x y : string) (members : list string) :
  component g x members -> connected (links g) x y -> component g y members.
Proof.
  intros [Hn H] Hc. split; [exact Hn|].
  intros z. rewrite H. split; intros Hz.
  - eapply rt_trans; [apply connected_sym; exact Hc|exact Hz].
  - eapply rt_trans; eauto.
Qed.

Lemma isSmallComponent_connected (now : Z) (total : nat) (g : Graph)
    (x y : string) :
  connected (links g) x y ->
  (isSmallComponent now total g x <-> isSmallComponent now total g y).
Proof.
  intros Hc. split; intros [m [Hm Hs]]; exists m; split; auto.
  - eapply component_reroot; eauto.
  - eapply component_reroot; [exact Hm|now apply connected_sym].
Qed.

Lemma find_filter_keep (keep : string -> bool) (y : string)
    (ns : list (string * INodeData)) :
  keep y = true ->
  List.find (fun n => String.eqb (fst n) y)
            (filter (fun n => keep (fst n)) ns)
  = List.find (fun n => String.eqb (fst n) y) ns.
Proof.
  intros Hk. induction ns as [|[k d] ns IH]; simpl; [reflexivity|].
  destruct (keep k) eqn:Ek; simpl.
  - destruct (String.eqb k y); [reflexivity|exact IH].
  - destruct (String.eqb k y) eqn:E; [|exact IH].
    apply String.eqb_eq in E. congruence.
Qed.

(** What draining a union of whole components leaves of the graph. *)
Lemma drain_components (queue : list string) (g2 : Graph) (ms : MsIndex)
    (sel : option IFeedItem) :
  sound g2 ->
  (forall l, In l (links g2) ->
     (In (fromId l) queue <-> In (toId l) queue)) ->
  let g3 := fst (fst (drain queue (g2, ms, sel))) in
  sound g3
  /\ (forall y, In y (nodeIds g3) <-> In y (nodeIds g2) /\ ~ In y queue)
  /\ (forall y, In y (nodeIds g3) -> getNode g3 y = getNode g2 y)
  /\ (forall l, In l (links g3) <->
        In l (links g2) /\ In (fromId l) (nodeIds g3)
        /\ In (toId l) (nodeIds g3)).
Proof.
  intros Hs Hcl g3.
  assert (Hs3 : sound g3) by (apply (sound_drain queue (g2, ms, sel)); exact Hs).
  assert (Hw : within (fun x => In x queue) g2 g3).
  { apply (@within_drain (fun x => In x queue) g2 Hcl queue (g2, ms, sel)).
    - apply within_refl.
    - auto. }
  assert (Hout : forall y, In y queue -> ~ In y (nodeIds g3)).
  { intros y Hy Hin. destruct (truthy y) eqn:Et.
    - revert Hin. now apply drain_removes.
    - destruct Hs3 as [_ Ht]. rewrite (Ht y Hin) in Et. discriminate. }
  destruct Hw as [[keep [Hn Hp]] Hl Hk].
  assert (Hkeep : forall y, In y (nodeIds g3) -> keep y = true).
  { intros y Hy. unfold nodeIds in Hy. rewrite Hn in Hy.
    apply in_map_iff in Hy as [n [<- Hin]]. now apply filter_In in Hin. }
  split; [exact Hs3|]. split; [|split].
  - intros y. split.
    + intros Hy. split; [|intros Hq; now apply (Hout y)].
      unfold nodeIds in *. rewrite Hn in Hy.
      apply in_map_iff in Hy as [n [<- Hin]]. apply filter_In in Hin as [Hin _].
      now apply in_map.
    + intros [Hy Hq]. destruct (keep y) eqn:Ek.
      * unfold nodeIds in *. rewrite Hn.
        apply in_map_iff in Hy as [n [<- Hin]].
        apply in_map. apply filter_In. auto.
      * exfalso. apply Hq. now apply Hp.
  - intros y Hy. unfold getNode. rewrite Hn.
    now rewrite find_filter_keep by (apply Hkeep; exact Hy).
  - intros l. split.
    + intros Hin. split; [now apply Hl|].
      destruct Hs3 as [[_ Hends] _]. now apply Hends.
    + intros [Hin [Hf Ht]]. apply Hk; [exact Hin| |]; intros Hq;
        eapply Hout; eauto.
Qed.

(** One pass removes the nodes of the small components, those and no
    others, and reports whether there was one. *)
Lemma pass_spec (fuel : nat) (now : Z) (s : State) (g : Graph) :
  calm s -> _graph s = Some g -> (length (nodeIds g) < fuel)%nat ->
  exists removed s' g',
    smallNetworksPass fuel now g s = Some (removed, s')
    /\ _graph s' = Some g'
    /\ (forall y, In y (nodeIds g') <->
          In y (nodeIds g)
          /\ ~ isSmallComponent now (length (_existingIds s)) g y)
    /\ (forall y d', getNode g' y = Some d' ->
          exists d, getNode g y = Some d
            /\ feedItem d' = feedItem d /\ added d' = added d)
    /\ (forall l, In l (links g') <->
          In l (links g) /\ In (fromId l) (nodeIds g')
          /\ In (toId l) (nodeIds g'))
    /\ (removed = true <->
        exists y, In y (nodeIds g)
          /\ isSmallComponent now (length (_existingIds s)) g y).
Proof.
  intros Hc Hg Hfuel. pose proof Hc as [Hq _ _ Hgr].
  destruct (Hgr g Hg) as [Hs _].
  destruct (discover_components fuel g Hs Hfuel)
    as [g2 [subs [Hdisc [Hl2 [Hst2 [Hsubs Hcov]]]]]].
  set (total := length (_existingIds s)).
  assert (Hn2 : nodeIds g2 = nodeIds g) by now rewrite <- !stamps_ids, Hst2.
  assert (Hs2 : sound g2) by (eapply sound_shape; eauto).
  set (small := filter (isSmall now total) subs).
  set (Q := flat_map subNodes small).
  assert (F1 : forall sub, In sub subs ->
            isSmall now total sub = smallAt now total g (subNodes sub)).
  { intros sub Hin. destruct (Hsubs sub Hin) as [x [_ [_ Hm]]].
    unfold smallAt, isSmall. simpl. now rewrite Hm. }
  assert (F2 : forall y, In y (nodeIds g) ->
            (In y Q <-> isSmallComponent now total g y)).
  { intros y Hy. split.
    - intros Hin. apply in_flat_map in Hin as [sub [Hsm Hys]].
      apply filter_In in Hsm as [Hin Hsm].
      destruct (Hsubs sub Hin) as [x [Hx [Hcomp Hm]]].
      exists (subNodes sub). split.
      + eapply component_reroot; [exact Hcomp|]. now apply Hcomp.
      + now rewrite <- F1.
    - intros [m [Hm Hsm]].
      destruct (Hcov y Hy) as [sub [Hin Hys]].
      destruct (Hsubs sub Hin) as [x [Hx [Hcomp _]]].
      assert (Hcy : component g y (subNodes sub)).
      { eapply component_reroot; [exact Hcomp|]. now apply Hcomp. }
      apply in_flat_map. exists sub. split; [|exact Hys].
      apply filter_In. split; [exact Hin|]. rewrite F1 by exact Hin.
      rewrite <- Hsm. apply (smallAt_component now total g y y); auto.
      apply rt_refl. }
  assert (F3 : forall l, In l (links g2) ->
            (In (fromId l) Q <-> In (toId l) Q)).
  { intros l Hl. rewrite Hl2 in Hl.
    assert (Ha : adj (links g) (fromId l) (toId l)) by (exists l; auto).
    split; intros Hin; apply in_flat_map in Hin as [sub [Hsm Hys]];
      apply in_flat_map; exists sub; (split; [exact Hsm|]);
      apply filter_In in Hsm as [Hin _];
      destruct (Hsubs sub Hin) as [x [_ [[_ Hcomp] _]]];
      apply Hcomp; apply Hcomp in Hys.
    - eapply connected_step; eauto.
    - eapply connected_step; [exact Hys|now apply adj_sym]. }
  unfold smallNetworksPass. rewrite Hdisc. fold total. fold small.
  rewrite Hq. cbn [app]. fold Q.
  destruct (0 <? length small)%nat eqn:El.
  - (* something is removed *)
    set (mid := mkState (Some g2) (_existingIds s) (_newItems s) Q
                        (_msIndexToNode s) (_smallNetworkInterval s)
                        (itemCount s) (selectedFeedItem s)).
    destruct (drain_components Q g2 (_msIndexToNode s) (selectedFeedItem s)
                Hs2 F3) as [Hs3 [Hids [Hdata Hlinks]]].
    exists true, (removeNodes mid).
    unfold removeNodes. cbn [_graph mid _removeNodes _msIndexToNode
                             selectedFeedItem].
    destruct (drain Q (g2, _msIndexToNode s, selectedFeedItem s))
      as [[g3 ms3] sel3]. cbn [fst snd] in *.
    exists g3. split; [reflexivity|]. split; [reflexivity|].
    split; [|split; [|split]].
    + intros y. rewrite Hids, Hn2. split.
      * intros [Hy Hn]. split; [exact Hy|]. now rewrite <- F2.
      * intros [Hy Hn]. split; [exact Hy|]. now rewrite F2.
    + intros y d' Hd.
      assert (Hy : In y (nodeIds g3)) by (apply getNode_Some; eauto).
      rewrite Hdata in Hd by exact Hy.
      now apply (stamps_getNode g g2 y d' Hst2).
    + intros l. now rewrite Hlinks, Hl2.
    + split; [intros _|reflexivity].
      destruct small as [|sub rest] eqn:Esm; [discriminate|].
      assert (Hsm : In sub small) by (rewrite Esm; now left).
      unfold small in Hsm. apply filter_In in Hsm as [Hin Hsm].
      destruct (Hsubs sub Hin) as [x [Hx [Hcomp _]]].
      exists x. split; [exact Hx|]. exists (subNodes sub).
      split; [exact Hcomp|]. now rewrite <- F1.
  - (* nothing is small *)
    assert (Hsm : small = []) by (destruct small; [reflexivity|discriminate]).
    assert (HQ : Q = []) by (unfold Q; now rewrite Hsm).
    exists false. eexists. exists g2.
    split; [reflexivity|]. split; [reflexivity|].
    split; [|split; [|split]].
    + intros y. rewrite Hn2. split; [|tauto].
      intros Hy. split; [exact Hy|]. rewrite <- F2 by exact Hy.
      now rewrite HQ.
    + intros y d' Hd. now apply (stamps_getNode g g2 y d' Hst2).
    + intros l. rewrite Hl2. split; [|tauto].
      intros Hin. split; [exact Hin|].
      destruct Hs as [[_ Hends] _]. rewrite Hn2. now apply Hends.
    + split; [discriminate|].
      intros [y [Hy Hsmall]]. apply F2 in Hsmall; [|exact Hy].
      now rewrite HQ in Hsmall.
Qed.

(** *** The threshold is three percent *)

(** The least count that is not below three percent of [total] is not
    below the rounded product, and the count before it is. *)
Definition thresholdAgrees (total : Z) : bool :=
  let c := ((3 * total + 99) / 100)%Z in
  ((Binary64.times_0_03 total <=? Z.shiftl c 58)
   && (Z.shiftl (c - 1) 58 <? Binary64.times_0_03 total))%Z.

Fixpoint agreesFrom (total : Z) (count : nat) : bool :=
  match count with
  | O => true
  | S count' => thresholdAgrees total && agreesFrom (total + 1) count'
  end.

Lemma agreesFrom_spec (count : nat) : forall total i,
  agreesFrom total count = true -> (i < count)%nat ->
  thresholdAgrees (total + Z.of_nat i) = true.
Proof.
  induction count as [|count IH]; intros total i H Hi; [lia|].
  simpl in H. apply andb_true_iff in H as [H0 H1].
  destruct i as [|i].
  - now rewrite Z.add_0_r.
  - replace (total + Z.of_nat (S i))%Z with (total + 1 + Z.of_nat i)%Z by lia.
    apply IH; [exact H1|lia].
Qed.

Lemma thresholdAgrees_to_cap : agreesFrom 0 (S MAX_ITEMS) = true.
Proof. vm_compute. reflexivity. Qed.

(** Up to the cap, the floating-point test [count < total * 0.03] is
    the exact comparison of [count] with three percent of [total]. *)
Lemma lt_times_0_03_exact (count total : nat) :
  (total <= MAX_ITEMS)%nat ->
  Binary64.lt_times_0_03 count total = (100 * count <? 3 * total)%nat.
Proof.
  intros Hle.
  pose proof (agreesFrom_spec (S MAX_ITEMS) 0 total thresholdAgrees_to_cap
                ltac:(lia)) as Hok.
  rewrite Z.add_0_l in Hok. unfold thresholdAgrees in Hok.
  apply andb_true_iff in Hok as [Hup Hlow].
  apply Z.leb_le in Hup. apply Z.ltb_lt in Hlow.
  rewrite !Z.shiftl_mul_pow2 in Hup, Hlow by lia.
  unfold Binary64.lt_times_0_03, Binary64.e003.
  rewrite Z.shiftl_mul_pow2 by lia.
  set (t := Binary64.times_0_03 (Z.of_nat total)) in *.
  set (c := ((3 * Z.of_nat total + 99) / 100)%Z) in *.
  assert (Hc : forall k : Z, (k < c <-> 100 * k < 3 * Z.of_nat total)%Z).
  { intros k. unfold c.
    pose proof (Z.div_mod (3 * Z.of_nat total + 99) 100 ltac:(lia)) as Hd.
    pose proof (Z.mod_pos_bound (3 * Z.of_nat total + 99) 100 ltac:(lia)).
    lia. }
  apply eq_true_iff_eq. rewrite Z.ltb_lt, Nat.ltb_lt.
  assert (Hp : (0 < 2 ^ 58)%Z) by lia.
  specialize (Hc (Z.of_nat count)).
  split; intros H.
  - assert (Z.of_nat count < c)%Z by nia. lia.
  - assert (Z.of_nat count < c)%Z by lia. nia.
Qed.

Lemma smallAt_exact (now : Z) (total : nat) (g : Graph)
    (members : list string) :
  (total <= MAX_ITEMS)%nat ->
  (smallAt now total g members = true <->
   (100 * length members < 3 * total)%nat
   /\ (60000 < now - maxAdded g members)%Z).
Proof.
  intros Hle. unfold smallAt, isSmall. simpl.
  rewrite lt_times_0_03_exact by exact Hle.
  now rewrite andb_true_iff, Nat.ltb_lt, Z.ltb_lt.
Qed.

(** *** The loop of passes *)

(** The graph [g'] is [g] without its small components. *)
Record pruned (now : Z) (total : nat) (g g' : Graph) : Prop := {
  p_nodes : forall y, In y (nodeIds g') <->
    In y (nodeIds g) /\ ~ isSmallComponent now total g y;
  p_data : forall y d', getNode g' y = Some d' ->
    exists d, getNode g y = Some d
      /\ feedItem d' = feedItem d /\ added d' = added d;
  p_links : forall l, In l (links g') <->
    In l (links g) /\ In (fromId l) (nodeIds g')
    /\ In (toId l) (nodeIds g')
}.

Lemma connected_node (g : Graph) (y z : string) :
  sound g -> In y (nodeIds g) -> connected (links g) y z -> In z (nodeIds g).
Proof.
  intros Hs Hy Hc. apply clos_rt_rtn1 in Hc.
  induction Hc as [|u v Ha Hc IH]; [exact Hy|].
  now destruct (adj_nodes g u v Hs Ha).
Qed.

Section Pruned.
Variable now : Z.
Variable total : nat.
Variables g g' : Graph.
Hypothesis g_sound : sound g.
Hypothesis g_pruned : pruned now total g g'.

Lemma pruned_connected (y z : string) :
  In y (nodeIds g') ->
  (connected (links g') y z <-> connected (links g) y z).
Proof.
  intros Hy. destruct g_pruned as [Hn Hd Hl]. split; intros Hc.
  - clear Hy.
    induction Hc as [u v [l [Hin H]]| |]; [|apply rt_refl|eapply rt_trans; eauto].
    apply rt_step. exists l. split; [|exact H]. now apply Hl in Hin.
  - apply clos_rt_rtn1 in Hc.
    induction Hc as [|u v Ha Hc IH]; [apply rt_refl|].
    apply clos_rtn1_rt in Hc.
    assert (Hsurv : forall w, connected (links g) y w -> In w (nodeIds g')).
    { intros w Hw. apply Hn. apply Hn in Hy as [Hy Hns]. split.
      - eapply connected_node; eauto.
      - intros Hsm. apply Hns.
        now apply (isSmallComponent_connected now total g y w Hw). }
    eapply connected_step; [exact IH|].
    destruct Ha as [l [Hin H]]. exists l. split; [|exact H].
    apply Hl. split; [exact Hin|].
    assert (Hu : In u (nodeIds g')) by now apply Hsurv.
    assert (Hv : In v (nodeIds g')).
    { apply Hsurv. eapply connected_step; [exact Hc|]. now exists l. }
    destruct H as [[-> ->]|[-> ->]]; auto.
Qed.

Lemma pruned_maxAdded (y : string) (members : list string) :
  In y (nodeIds g') -> component g y members ->
  maxAdded g' members = maxAdded g members.
Proof.
  intros Hy [_ Hm]. destruct g_pruned as [Hn Hd Hl].
  assert (Hall : forall z, In z members ->
            option_map added (getNode g' z) = option_map added (getNode g z)).
  { intros z Hz. apply Hm in Hz.
    assert (Hz' : In z (nodeIds g')).
    { apply Hn. apply Hn in Hy as [Hy Hns]. split.
      - eapply connected_node; eauto.
      - intros Hsm. apply Hns.
        now apply (isSmallComponent_connected now total g y z Hz). }
    apply getNode_Some in Hz' as [d' Hd'].
    destruct (Hd z d' Hd') as [d [Hdz [_ Ha]]].
    rewrite Hd', Hdz. simpl. now rewrite Ha. }
  unfold maxAdded. generalize 0%Z as m0. clear Hm.
  induction members as [|z members IH]; intros m0; simpl; [reflexivity|].
  assert (Hz := Hall z (or_introl eq_refl)).
  assert (E : match getNode g' z with Some d => Z.max m0 (added d) | None => m0 end
            = match getNode g z with Some d => Z.max m0 (added d) | None => m0 end).
  { destruct (getNode g' z), (getNode g z); simpl in Hz; try discriminate;
      [injection Hz as ->|]; reflexivity. }
  rewrite E. apply IH. intros w Hw. apply Hall. now right.
Qed.

Lemma pruned_component (y : string) (members : list string) :
  In y (nodeIds g') -> (component g' y members <-> component g y members).
Proof.
  intros Hy. unfold component.
  split; intros [Hnd H]; (split; [exact Hnd|]); intros z; rewrite H;
    [|symmetry]; now apply pruned_connected.
Qed.

(** What is left has no small component. *)
Lemma pruned_fixed (y : string) :
  In y (nodeIds g') -> ~ isSmallComponent now total g' y.
Proof.
  intros Hy [m [Hm Hsm]].
  apply (pruned_component y m Hy) in Hm.
  apply (p_nodes _ _ _ _ g_pruned) in Hy as Hy'. destruct Hy' as [_ Hns].
  apply Hns. exists m. split; [exact Hm|].
  unfold smallAt in *. now rewrite <- (pruned_maxAdded y m Hy Hm).
Qed.

End Pruned.

Lemma pruned_again (now : Z) (total : nat) (g g1 g2 : Graph) :
  sound g -> pruned now total g g1 -> pruned now total g1 g2 ->
  pruned now total g g2.
Proof.
  intros Hs H1 H2.
  assert (Hsame : forall y, In y (nodeIds g2) <-> In y (nodeIds g1)).
  { intros y. rewrite (p_nodes _ _ _ _ H2). split; [tauto|].
    intros Hy. split; [exact Hy|].
    now apply (pruned_fixed now total g g1 Hs H1). }
  constructor.
  - intros y. rewrite Hsame. apply (p_nodes _ _ _ _ H1).
  - intros y d2 Hd2. destruct (p_data _ _ _ _ H2 y d2 Hd2) as [d1 [Hd1 [Hf Ha]]].
    destruct (p_data _ _ _ _ H1 y d1 Hd1) as [d [Hd [Hf' Ha']]].
    exists d. repeat split; congruence.
  - intros l. rewrite (p_links _ _ _ _ H2), (p_links _ _ _ _ H1), !Hsame.
    tauto.
Qed.

(** The loop ends after at most two passes: the first removes the small
    components, and the second, when there is one, finds none. *)
Lemma loop_spec (fuel rounds : nat) (now : Z) (s : State) (g : Graph) :
  calm s -> _graph s = Some g ->
  (length (nodeIds g) < fuel)%nat -> (2 <= rounds)%nat ->
  exists s' g',
    smallNetworksLoop fuel rounds now s = Some s'
    /\ _graph s' = Some g'
    /\ calm s'
    /\ _existingIds s' = _existingIds s
    /\ pruned now (length (_existingIds s)) g g'.
Proof.
  intros Hc Hg Hfuel Hrounds.
  destruct rounds as [|[|rounds]]; try lia.
  destruct (proj1 (calm_graph s Hc g Hg)) as [[Hnd _] _].
  destruct (pass_spec fuel now s g Hc Hg Hfuel)
    as [removed [s1 [g1 [Hp [Hg1 [Hn1 [Hd1 [Hl1 Hr1]]]]]]]].
  destruct (smallNetworksPass_calm fuel now g s s1 removed Hc Hg Hp)
    as [Hc1 [He1 _]].
  assert (Hpr1 : pruned now (length (_existingIds s)) g g1)
    by (constructor; assumption).
  assert (Hs : sound g) by apply (calm_graph s Hc g Hg).
  cbn [smallNetworksLoop]. rewrite Hg, Hp.
  destruct removed.
  - (* a second pass *)
    rewrite Hg1.
    assert (Hfuel1 : (length (nodeIds g1) < fuel)%nat).
    { eapply Nat.le_lt_trans; [|exact Hfuel].
      apply NoDup_incl_length.
      - apply (calm_graph s1 Hc1 g1 Hg1).
      - intros y Hy. now apply Hn1 in Hy. }
    destruct (pass_spec fuel now s1 g1 Hc1 Hg1 Hfuel1)
      as [removed2 [s2 [g2 [Hp2 [Hg2 [Hn2 [Hd2 [Hl2 Hr2]]]]]]]].
    destruct (smallNetworksPass_calm fuel now g1 s1 s2 removed2 Hc1 Hg1 Hp2)
      as [Hc2 [He2 _]].
    rewrite He1 in *.
    assert (Hpr2 : pruned now (length (_existingIds s)) g1 g2)
      by (constructor; assumption).
    rewrite Hp2.
    destruct removed2.
    + exfalso. destruct (proj1 Hr2 eq_refl) as [y [Hy Hsm]].
      now apply (pruned_fixed now (length (_existingIds s)) g g1 Hs Hpr1 y Hy).
    + exists s2, g2. split; [reflexivity|]. split; [exact Hg2|].
      split; [exact Hc2|]. split; [congruence|].
      now apply (pruned_again now _ g g1 g2).
  - exists s1, g1. auto.
Qed.

(** Every node has a component that can be listed. *)
Lemma component_exists (g : Graph) (x : string) :
  sound g -> In x (nodeIds g) -> exists members, component g x members.
Proof.
  intros Hs Hx.
  destruct (discover_components (S (length (nodeIds g))) g Hs (Nat.lt_succ_diag_r _))
    as [g2 [subs [_ [_ [_ [Hsubs Hcov]]]]]].
  destruct (Hcov x Hx) as [sub [Hin Hxs]].
  destruct (Hsubs sub Hin) as [x' [_ [Hcomp _]]].
  exists (subNodes sub). eapply component_reroot; [exact Hcomp|].
  now apply Hcomp.
Qed.

(** X1. On a calm state with enough fuel, [removeSmallNetworks] comes to
    an end. A node is removed exactly when its connected component (in
    the graph the call starts from) has fewer members than three percent
    of the number of ids in the arrival sequence and its latest [added]
    is more than 60000 ms before [now]; both must hold. What is left has
    no such component any more, so a further pass finds nothing; the
    nodes that stay keep their item and time stamp, and the links that
    stay are those between them. *)
Theorem small_components_pruned (fuel : nat) (now : Z) (s : State)
    (g : Graph) :
  calm s -> _graph s = Some g ->
  (length (nodes g) < fuel)%nat -> (2 <= fuel)%nat ->
  exists s' g',
    removeSmallNetworks fuel now s = Some s'
    /\ _graph s' = Some g'
    /\ (forall x, In x (nodeIds g) -> exists members, component g x members)
    /\ (forall x members, In x (nodeIds g) -> component g x members ->
          (In x (nodeIds g') <->
           ~ ((100 * length members < 3 * length (_existingIds s))%nat
              /\ (60000 < now - maxAdded g members)%Z)))
    /\ (forall x members, In x (nodeIds g') -> component g' x members ->
          ~ ((100 * length members < 3 * length (_existingIds s'))%nat
             /\ (60000 < now - maxAdded g' members)%Z))
    /\ (forall x d', getNode g' x = Some d' ->
          exists d, getNode g x = Some d
            /\ feedItem d' = feedItem d /\ added d' = added d)
    /\ (forall l, In l (links g') <->
          In l (links g) /\ In (fromId l) (nodeIds g')
          /\ In (toId l) (nodeIds g')).
Proof.
  intros Hc Hg Hfuel Hrounds.
  assert (Hfuel' : (length (nodeIds g) < fuel)%nat)
    by (unfold nodeIds; now rewrite length_map).
  destruct (loop_spec fuel fuel now s g Hc Hg Hfuel' Hrounds)
    as [s' [g' [Hloop [Hg' [Hc' [He Hpr]]]]]].
  assert (Hs : sound g) by apply (calm_graph s Hc g Hg).
  pose proof (calm_cap s Hc) as Hcap.
  exists s', g'. unfold removeSmallNetworks. rewrite Hg.
  split; [exact Hloop|]. split; [exact Hg'|].
  split; [intros x Hx; now apply component_exists|].
  split; [|split; [|split]].
  - intros x m Hx Hm. rewrite <- (smallAt_exact now _ g m Hcap).
    rewrite (p_nodes _ _ _ _ Hpr). split.
    + intros [_ Hn] Hsm. apply Hn. now exists m.
    + intros Hn. split; [exact Hx|]. intros [m' [Hm' Hsm]]. apply Hn.
      rewrite <- Hsm. apply (smallAt_component now _ g x x); auto.
      apply rt_refl.
  - intros x m Hx Hm. rewrite He, <- (smallAt_exact now _ g' m Hcap).
    intros Hsm.
    apply (pruned_fixed now (length (_existingIds s)) g g' Hs Hpr x Hx).
    now exists m.
  - apply (p_data _ _ _ _ Hpr).
  - apply (p_links _ _ _ _ Hpr).
Qed.

Local Open Scope string_scope.

(** A chain of forty transactions and one transaction on its own, all
    drawn at time 0. *)
Definition islandItems : list IFeedItem := child "alone" "" 0 :: chain 40.

Definition island : State :=
  mkState (Some (fst (drawItems 0 islandItems Viva.empty)))
          (snd (drawItems 0 islandItems Viva.empty)) [] [] [] 1 41 None.

Lemma some_eq (A : Type) (a b : A) : Some a = Some b -> a = b.
Proof. intros H. now injection H. Qed.

Lemma island_calm : calm island.
Proof.
  assert (Hempty : sound (@Viva.empty INodeData)).
  { split; [split|]; [constructor|intros l []|intros x []]. }
  assert (Hids : forall it, In it islandItems -> truthy (id it) = true).
  { apply (proj1 (forallb_forall (fun it => truthy (id it)) _)).
    vm_compute. reflexivity. }
  pose proof (@drawItems_sound 0 islandItems Viva.empty Hempty Hids) as H.
  constructor.
  - reflexivity.
  - apply Nat.leb_le. vm_compute. reflexivity.
  - intros it [].
  - intros g Hg. unfold island in Hg. cbn [_graph] in Hg.
    apply some_eq in Hg. subst g. split; [exact (proj2 H)|].
    unfold island. cbn [_existingIds]. rewrite (proj1 H).
    change (nodeIds (@Viva.empty INodeData)) with (@nil string).
    rewrite app_nil_l. apply incl_refl.
Qed.

Lemma small_components_pruned_witness :
  exists s',
    removeSmallNetworks 50 100000 island = Some s'
    /\ option_map (fun g => includes (nodeIds g) "alone") (_graph s')
       = Some false
    /\ option_map (fun g => length (nodes g)) (_graph s') = Some 40%nat.
Proof.
  assert (Hfuel : (length (nodes (fst (drawItems 0 islandItems Viva.empty)))
                   < 50)%nat)
    by (apply Nat.ltb_lt; vm_compute; reflexivity).
  assert (Hrounds : (2 <= 50)%nat) by (apply Nat.leb_le; reflexivity).
  destruct (small_components_pruned 50 100000 island
              (fst (drawItems 0 islandItems Viva.empty))
              island_calm eq_refl Hfuel Hrounds)
    as [s' [g' [Hr _]]].
  exists s'. split; [exact Hr|].
  vm_compute in Hr. apply some_eq in Hr. subst s'.
  vm_compute. split; reflexivity.
Defined.

(** One frame for every item: the item comes in and a frame is
    drawn. *)
Definition replay (frames : list (Z * IFeedItem)) (s : State) : option State :=
  fold_left (fun os frame =>
               match os with
               | Some s =>
                   drawUpdates 300 (fst frame)
                               (itemsUpdated None (fst frame) [snd frame] s)
               | None => None
               end) frames (Some s).

Definition fiveChain : list string := ["0f"; "1f"; "2f"; "3f"; "4f"].

Definition countNodes (s : State) : option nat :=
  option_map (fun g => length (nodes g)) (_graph s).

Definition linksOf (ids : list string) (s : State) : option (list Link) :=
  option_map (fun g => filter (fun l => existsb (fun x => touches x l) ids)
                              (links g)) (_graph s).

Definition allNodes (ids : list string) (s : State) : option bool :=
  option_map (fun g => forallb (hasNode g) ids) (_graph s).

Definition noneNodes (ids : list string) (s : State) : option bool :=
  option_map (fun g => forallb (fun x => negb (hasNode g x)) ids) (_graph s).

(** C3 fails on the code. After two hundred frames the graph has 160
    nodes, among them the chain of five drawn at time 100000, linked
    among themselves only; the arrival sequence has 200 ids, forty of
    them of nodes that the pruning of frame 100 removed. Frame 200, at
    time 200000, draws [y] and prunes: the chain of five is removed,
    although five is not below three percent of the 161 nodes of the
    graph; it is below three percent of the 201 ids of the arrival
    sequence, which is what the code compares with. *)
Theorem stale_count_prunes_five_of_161 :
  match replay twoHundredFrames (setupGraph constructed) with
  | Some s199 =>
      match drawUpdates 300 200000
              (itemsUpdated None 200000 [child "y" "" 0] s199) with
      | Some s200 =>
          countNodes s199 = Some 160%nat
          /\ length (_existingIds s199) = 200%nat
          /\ _smallNetworkInterval s199 = 200%nat
          /\ allNodes fiveChain s199 = Some true
          /\ linksOf fiveChain s199
             = Some [mkLink "0f" "1f"; mkLink "1f" "2f"; mkLink "2f" "3f";
                     mkLink "3f" "4f"]
          /\ noneNodes fiveChain s200 = Some true
          /\ countNodes s200 = Some 155%nat
          /\ length (_existingIds s200) = 201%nat
          /\ ~ (100 * length fiveChain < 3 * 161)%nat
          /\ (100 * length fiveChain < 3 * 201)%nat
      | None => False
      end
  | None => False
  end.
Proof.
  vm_compute. repeat split; try reflexivity.
  - intros H. repeat (apply le_S_n in H). inversion H.
  - repeat constructor.
Qed.

End VisualizerFacts.

(** ** The feed client: the window over a run of events *)

Module FeedWindowFacts.

Unset Implicit Arguments.

Import JS JSFacts FeedClient FeedClientFacts.

Section Client.
Variable convertItem : string -> IFeedItem.
Variable protocolVersion : option string.

Local Abbreviation sweep := (sweep protocolVersion).
Local Abbreviation categories := (categories protocolVersion).
Local Abbreviation onTransactions := (onTransactions convertItem protocolVersion).
Local Abbreviation filteredNewItems := (filteredNewItems convertItem).
Local Abbreviation step := (step convertItem protocolVersion).
Local Abbreviation run := (run convertItem protocolVersion).

(** *** The window stays small *)

Lemma step_category_bounded (s : State) (e : Event) (p : IFeedItem -> bool) :
  In p categories ->
  (length (filter p (_items s)) <= MIN)%nat ->
  (length (filter p (_items (step s e))) <= MIN)%nat.
Proof.
  intros Hp H. destruct e as [sid cb|err sid|sid|m]; simpl; auto.
  - unfold onSubscribe. now destruct err.
  - unfold FeedClient.onTransactions.
    destruct (_subscriptionId s) as [mine|]; [|exact H].
    destruct (String.eqb (subscriptionId m) mine); [|exact H].
    simpl. destruct (0 <? length (filteredNewItems s m))%nat; simpl.
    + rewrite (sweep_category protocolVersion p _ Hp).
      rewrite length_firstn. lia.
    + rewrite (filter_shape_length p (mergeMetadata (itemsMetadata m) (_items s))
                 (_items s)); [exact H| |apply mergeMetadata_shape].
      apply (category_shape protocolVersion). now left.
Qed.

Lemma length_by_payload (l : list IFeedItem) :
  length l
  = (length (filter (isPayload Transaction) l)
     + length (filter (isPayload Index) l)
     + length (filter (isPayload MS) l)
     + length (filter (isPayload NonePayload) l))%nat.
Proof.
  induction l as [|t l IH]; [reflexivity|].
  assert (H : forall ty, filter (isPayload ty) (t :: l)
                         = if PayloadType_eqb (payloadType t) ty
                           then t :: filter (isPayload ty) l
                           else filter (isPayload ty) l) by reflexivity.
  rewrite !H. destruct (payloadType t); cbn [PayloadType_eqb length]; lia.
Qed.

(** X2. Whatever the feed sends, a category of the retention sweep never
    holds more than [MIN_ITEMS_PER_TYPE] items of the window. *)
Theorem window_category_is_bounded (es : list Event) (p : IFeedItem -> bool) :
  In p categories ->
  (length (filter p (_items (run es))) <= MIN)%nat.
Proof.
  intros Hp. unfold FeedClient.run.
  assert (F : forall s, (length (filter p (_items s)) <= MIN)%nat ->
            (length (filter p (_items (fold_left step es s))) <= MIN)%nat).
  { induction es as [|e es' IH]; intros s Hs; simpl; [exact Hs|].
    apply IH. now apply step_category_bounded. }
  apply F. simpl. lia.
Qed.

(** X3. On a network that is not "og" the four payload types are the
    categories, and the window never holds more than four times
    [MIN_ITEMS_PER_TYPE] items. *)
Theorem window_is_bounded (es : list Event) :
  isOg protocolVersion = false ->
  (length (_items (run es)) <= 4 * MIN)%nat.
Proof.
  intros Hog. rewrite length_by_payload.
  assert (G : forall ty,
            (length (filter (isPayload ty) (_items (run es))) <= MIN)%nat).
  { intros ty. unfold FeedClient.run.
    assert (Hc : In (isPayload ty) categories).
    { unfold FeedClient.categories. rewrite Hog. destruct ty; simpl; auto. }
    assert (F : forall s,
              (length (filter (isPayload ty) (_items s)) <= MIN)%nat ->
              (length (filter (isPayload ty) (_items (fold_left step es s)))
               <= MIN)%nat).
    { induction es as [|e es' IH]; intros s Hs; simpl; [exact Hs|].
      apply IH. now apply step_category_bounded. }
    apply F. simpl. lia. }
  pose proof (G Transaction). pose proof (G Index).
  pose proof (G MS). pose proof (G NonePayload). lia.
Qed.

(** *** No id twice *)

Lemma NoDup_map_filter (B C : Type) (f : B -> C) (p : B -> bool)
    (l : list B) :
  NoDup (map f l) -> NoDup (map f (filter p l)).
Proof.
  induction l as [|a l IH]; simpl; intros H; [constructor|].
  inversion H as [|? ? Hn Hd]; subst.
  destruct (p a); simpl; [|now apply IH].
  constructor; [|now apply IH].
  intros Hin. apply Hn. apply in_map_iff in Hin as [x [Hx Hin]].
  apply filter_In in Hin as [Hin _]. apply in_map_iff. now exists x.
Qed.

Lemma kept_subsequence (B C : Type) (f : B -> C) (q : nat * B -> bool)
    (l : list B) : forall ns,
  (forall x, In x (map f (map snd (filter q (combine ns l)))) ->
             In x (map f l))
  /\ (NoDup (map f l) -> NoDup (map f (map snd (filter q (combine ns l))))).
Proof.
  induction l as [|a l IH]; intros ns.
  - destruct ns; simpl; split; auto; constructor.
  - destruct ns as [|n ns]; [simpl; split; [intros x []|constructor]|].
    destruct (IH ns) as [Hin Hnd]. cbn [combine filter].
    destruct (q (n, a)); cbn [map snd].
    + split.
      * intros x [<-|Hx]; [now left|right; now apply Hin].
      * intros H. inversion H as [|? ? Hn Hd]; subst.
        constructor; [|now apply Hnd]. intros Hc. apply Hn. now apply Hin.
    + split.
      * intros x Hx. right. now apply Hin.
      * intros H. inversion H; subst. now apply Hnd.
Qed.

Lemma sweep_NoDup (l : list IFeedItem) :
  NoDup (map id l) -> NoDup (map id (sweep l)).
Proof.
  unfold FeedClient.sweep. apply kept_subsequence.
Qed.

(** The raw items of a message decode to items with different ids. *)
Definition distinctItems (m : IFeedSubscriptionMessage) : Prop :=
  NoDup (map (fun raw => id (convertItem raw)) (items m)).

Lemma step_NoDup (s : State) (e : Event) :
  match e with Transactions m => distinctItems m | _ => True end ->
  _existingIds s = map id (_items s) ->
  NoDup (map id (_items s)) -> NoDup (map id (_items (step s e))).
Proof.
  intros He Hex H. destruct e as [sid cb|err sid|sid|m]; simpl; auto.
  - unfold onSubscribe. now destruct err.
  - unfold FeedClient.onTransactions.
    destruct (_subscriptionId s) as [mine|]; [|exact H].
    destruct (String.eqb (subscriptionId m) mine); [|exact H].
    simpl. destruct (0 <? length (filteredNewItems s m))%nat; simpl.
    + apply sweep_NoDup. rewrite map_app, mergeMetadata_ids.
      apply NoDup_app.
      * unfold FeedClient.filteredNewItems. apply NoDup_map_filter.
        unfold distinctItems in He. now rewrite map_map.
      * exact H.
      * intros x Hx Hold. unfold FeedClient.filteredNewItems in Hx.
        apply in_map_iff in Hx as [t [<- Ht]].
        apply filter_In in Ht as [_ Ht].
        apply negb_true_iff in Ht.
        rewrite <- Hex in Hold. apply (includes_In _ _) in Hold. congruence.
    + now rewrite mergeMetadata_ids.
Qed.

(** X4. As long as no single message carries the same item twice, the
    window never holds two items with the same id. *)
Theorem window_ids_are_distinct (es : list Event) :
  (forall m, In (Transactions m) es -> distinctItems m) ->
  NoDup (_existingIds (run es)).
Proof.
  intros Hd. rewrite run_existingIds. unfold FeedClient.run.
  assert (F : forall s,
            (forall m, In (Transactions m) es -> distinctItems m) ->
            _existingIds s = map id (_items s) ->
            NoDup (map id (_items s)) ->
            NoDup (map id (_items (fold_left step es s)))).
  { clear Hd. induction es as [|e es' IH]; intros s Hd Hex Hs; simpl;
      [exact Hs|].
    apply IH.
    - intros m Hm. apply Hd. now right.
    - now apply step_existingIds.
    - apply step_NoDup; [|exact Hex|exact Hs].
      destruct e; auto. apply Hd. now left. }
  apply F; [exact Hd|reflexivity|constructor].
Qed.

(** *** Unsubscribing *)

(** The events that do not give the client a subscription id: anything
    but an answer of the feed without an error. *)
Definition givesNoId (e : Event) : bool :=
  match e with
  | SubscribeAnswer false _ => false
  | _ => true
  end.

(** X5. After any call of [unsubscribe], also one that leaves other
    subscribers behind, the client has no subscription id, and until the
    feed answers a request to subscribe again every message is dropped:
    the window stays as it is and no subscriber is called. *)
Theorem unsubscribe_silences_the_feed (s : State) (sid : string)
    (es : list Event) (m : IFeedSubscriptionMessage) :
  forallb givesNoId es = true ->
  let s' := fold_left step es (unsubscribe sid s) in
  _subscriptionId s' = None
  /\ _items s' = _items s
  /\ _existingIds s' = _existingIds s
  /\ onTransactions m s' = (s', []).
Proof.
  intros Hes s'.
  assert (F : forall s0, _subscriptionId s0 = None ->
            _subscriptionId (fold_left step es s0) = None
            /\ _items (fold_left step es s0) = _items s0
            /\ _existingIds (fold_left step es s0) = _existingIds s0).
  { induction es as [|e es' IH]; intros s0 H0; simpl; [auto|].
    simpl in Hes. apply andb_true_iff in Hes as [He Hes].
    assert (H1 : _subscriptionId (step s0 e) = None
                 /\ _items (step s0 e) = _items s0
                 /\ _existingIds (step s0 e) = _existingIds s0).
    { destruct e as [sid' cb|err sid'|sid'|m']; simpl; auto.
      - destruct err; [simpl; auto|discriminate].
      - unfold FeedClient.onTransactions. rewrite H0. auto. }
    destruct H1 as [H1 [H2 H3]].
    destruct (IH Hes (step s0 e) H1) as [G1 [G2 G3]].
    rewrite G2, G3. auto. }
  destruct (F (unsubscribe sid s) eq_refl) as [H1 [H2 H3]].
  fold s' in H1, H2, H3.
  repeat split; try assumption.
  unfold FeedClient.onTransactions. now rewrite H1.
Qed.

(** *** Metadata *)

Lemma mergeMetadata_ids_one (k : string) (upd : IFeedItemMetadata)
    (l : list IFeedItem) :
  NoDup (map id l) -> NoDup (map id (mergeInto k upd l)).
Proof.
  intros H.
  pose proof (mergeMetadata_ids (Some [(k, upd)]) l) as E. simpl in E.
  now rewrite E.
Qed.

(** [o[k]] for a metadata object. *)
Definition field (k : string) (o : IFeedItemMetadata) : option Scalar :=
  option_map snd (List.find (fun kv => String.eqb (fst kv) k) o).

Lemma field_assign (k k' : string) (v : Scalar) (o : IFeedItemMetadata) :
  field k (assign k' v o) = if String.eqb k' k then Some v else field k o.
Proof.
  unfold field. induction o as [|[j w] o IH]; simpl.
  - now destruct (String.eqb k' k).
  - destruct (String.eqb k' j) eqn:E; simpl.
    + apply String.eqb_eq in E. subst j.
      now destruct (String.eqb k' k).
    + destruct (String.eqb j k) eqn:E'; simpl.
      * apply String.eqb_eq in E'. subst j. now rewrite E.
      * exact IH.
Qed.

Lemma field_app (k : string) (o1 o2 : IFeedItemMetadata) :
  field k (o1 ++ o2)
  = match field k o1 with Some v => Some v | None => field k o2 end.
Proof.
  unfold field. rewrite VivaFacts.find_app_fst.
  now destruct (List.find _ o1).
Qed.

(** X6. [{ ...a, ...b }[k]] is [b[k]] when [b] has the field and [a[k]]
    otherwise. *)
Theorem spread_reads_the_update_first (a : option IFeedItemMetadata)
    (b : IFeedItemMetadata) (k : string) :
  field k (spread a b)
  = match field k (rev b) with
    | Some v => Some v
    | None => field k (match a with Some o => o | None => [] end)
    end.
Proof.
  unfold spread. generalize (match a with Some o => o | None => [] end).
  induction b as [|[j w] b IH]; intros o; [reflexivity|].
  cbn [fold_left fst snd rev]. rewrite IH, field_assign, field_app.
  destruct (field k (rev b)); [reflexivity|].
  unfold field. simpl. now destruct (String.eqb j k).
Qed.

Definition withMetaData (t : IFeedItem) (md : IFeedItemMetadata) : IFeedItem :=
  mkItem (id t) (value t) (parents t) (properties t) (payloadType t)
         (Some md).

Definition mergedItem (updates : list (string * IFeedItemMetadata))
    (t : IFeedItem) : IFeedItem :=
  match List.find (fun kv => String.eqb (fst kv) (id t)) updates with
  | Some kv => withMetaData t (spread (metaData t) (snd kv))
  | None => t
  end.

Lemma mergeInto_by_id (mid : string) (upd : IFeedItemMetadata)
    (l : list IFeedItem) :
  NoDup (map id l) ->
  mergeInto mid upd l
  = map (fun t => if String.eqb (id t) mid
                  then withMetaData t (spread (metaData t) upd) else t) l.
Proof.
  induction l as [|c l IH]; simpl; intros H; [reflexivity|].
  inversion H as [|? ? Hn Hd]; subst.
  destruct (String.eqb (id c) mid) eqn:E.
  - apply String.eqb_eq in E. subst mid. f_equal.
    symmetry. rewrite <- (map_id l) at 2. apply map_ext_in. intros t Ht.
    destruct (String.eqb (id t) (id c)) eqn:E'; [|reflexivity].
    apply String.eqb_eq in E'. exfalso. apply Hn. rewrite <- E'.
    now apply in_map.
  - f_equal. now apply IH.
Qed.

(** X7. When the window has no id twice, the metadata of a message goes
    to the items by id: an item whose id is a key of the update gets the
    update spread over its metadata, every other item is left as it is,
    and an update for an id that is not in the window is dropped. *)
Theorem metadata_goes_by_id (updates : list (string * IFeedItemMetadata))
    (l : list IFeedItem) :
  NoDup (map id l) -> NoDup (map fst updates) ->
  mergeMetadata (Some updates) l = map (mergedItem updates) l.
Proof.
  unfold mergeMetadata. revert l.
  induction updates as [|[k upd] u IH]; intros l Hl Hu.
  - simpl. symmetry. apply map_id.
  - cbn [fold_left fst snd]. inversion Hu as [|? ? Hk Hu']; subst.
    rewrite IH; [|now apply mergeMetadata_ids_one|exact Hu'].
    rewrite mergeInto_by_id by exact Hl. rewrite map_map.
    apply map_ext. intros t. unfold mergedItem. cbn [List.find fst snd].
    destruct (String.eqb k (id t)) eqn:E.
    + apply String.eqb_eq in E. subst k. rewrite String.eqb_refl.
      cbn [withMetaData id].
      destruct (List.find _ u) as [kv|] eqn:F; [|reflexivity].
      exfalso. apply find_some in F as [Hin He].
      apply String.eqb_eq in He. apply Hk. rewrite <- He.
      now apply in_map.
    + rewrite String.eqb_sym, E. reflexivity.
Qed.

End Client.

Import Samples.
Local Open Scope string_scope.

(** The feed answers, and sixty zero-value transactions come in. *)
Definition sixtyZeros : list Event :=
  [SubscribeAnswer false "feed";
   Transactions (mkMessage "feed" (numbered "Z" 60) None)]%list.

Lemma window_category_is_bounded_witness :
  (length (filter (isPayload Transaction)
                  (_items (run decode (Some "chrysalis") sixtyZeros)))
   <= MIN)%nat.
Proof.
  apply (window_category_is_bounded decode (Some "chrysalis") sixtyZeros).
  simpl. left. reflexivity.
Defined.

Lemma window_is_bounded_witness :
  (length (_items (run decode (Some "chrysalis") sixtyZeros)) <= 4 * MIN)%nat.
Proof.
  apply (window_is_bounded decode (Some "chrysalis") sixtyZeros).
  reflexivity.
Defined.

(** Two messages that share an item. *)
Definition overlapping : list Event :=
  [SubscribeAnswer false "feed";
   Transactions (mkMessage "feed" ["Z1"; "I2"]%list None);
   Transactions (mkMessage "feed" ["I2"; "Z3"]%list None)]%list.

Lemma window_ids_are_distinct_witness :
  NoDup (_existingIds (run decode (Some "chrysalis") overlapping)).
Proof.
  apply (window_ids_are_distinct decode (Some "chrysalis") overlapping).
  intros m [H|[H|[H|[]]]]; try discriminate; injection H as <-;
    unfold distinctItems; simpl;
    repeat constructor; simpl; intuition discriminate.
Defined.

Lemma unsubscribe_silences_the_feed_witness :
  let s := run decode (Some "chrysalis")
               [Subscribe "A" returns; Subscribe "B" returns;
                SubscribeAnswer false "feed";
                Transactions (mkMessage "feed" ["I0"]%list None)]%list in
  let s' := fold_left (step decode (Some "chrysalis"))
                      [Subscribe "C" returns;
                       Transactions (mkMessage "feed" ["I1"]%list None)]%list
                      (unsubscribe "A" s) in
  map fst (_subscribers s') = ["B"; "C"]%list
  /\ snd (onTransactions decode (Some "chrysalis")
                         (mkMessage "feed" ["I2"]%list None) s') = []%list.
Proof.
  intros s s'. split; [reflexivity|].
  destruct (unsubscribe_silences_the_feed decode (Some "chrysalis") s "A"
              [Subscribe "C" returns;
               Transactions (mkMessage "feed" ["I1"]%list None)]%list
              (mkMessage "feed" ["I2"]%list None) eq_refl)
    as [_ [_ [_ H]]].
  fold s' in H. now rewrite H.
Defined.

Lemma metadata_goes_by_id_witness :
  map metaData
      (mergeMetadata (Some [("Z1", [("confirmed", SBool true)]%list);
                            ("Z9", [("confirmed", SBool true)]%list)]%list)
                     [decode "I0"; decode "Z1"]%list)
  = [None; Some [("confirmed", SBool true)]%list]%list.
Proof.
  rewrite metadata_goes_by_id.
  - reflexivity.
  - simpl. repeat constructor; simpl; intuition discriminate.
  - simpl. repeat constructor; simpl; intuition discriminate.
Defined.

End FeedWindowFacts.

(** ** The earlier revision of the feed client *)

Module FeedClient003Facts.

Unset Implicit Arguments.

Import JS JSFacts Model FeedClient003.

Section Client.
Variable convertItem : string -> bool -> IFeedItem.

Local Abbreviation onTransactions := (onTransactions convertItem).
Local Abbreviation filteredNewItems := (filteredNewItems convertItem).

Lemma sweep_of_the_window (l : list IFeedItem) :
  sweep l = Retention.keep MIN_ITEMS_PER_TYPE categories l.
Proof.
  unfold sweep, categories, Retention.keep, Retention.removeItems, toRemove.
  simpl. now rewrite ?app_nil_r, ?app_assoc.
Qed.

(** An item that is in none of the four categories of the sweep: one
    with the payload type "No Payload", or with none at all. *)
Definition uncategorised (t : IFeedItem) : bool :=
  negb (isZero t || isNonZero t || isPayload Index t || isPayload MS t).

Lemma uncategorised_payload (t : IFeedItem) :
  uncategorised t = true <->
  payloadType t = Some NoPayload \/ payloadType t = None.
Proof.
  unfold uncategorised, isZero, isNonZero, isPayload.
  destruct (payloadType t) as [[| | |]|]; simpl;
    destruct (value t) as [v|]; simpl; try destruct (v =? 0)%Z; simpl;
    split; intros H; auto; try discriminate;
    destruct H as [H|H]; discriminate.
Qed.

Definition shape (t : IFeedItem) : string * option Z * option PayloadType :=
  (id t, value t, payloadType t).

Lemma confirmIn_shape (cid : string) (l : list IFeedItem) :
  map shape (confirmIn cid l) = map shape l.
Proof.
  induction l as [|c l IH]; simpl; [reflexivity|].
  destruct (String.eqb (id c) cid); simpl; [reflexivity|now rewrite IH].
Qed.

Lemma confirmed_shape (cids : list string) (l : list IFeedItem) :
  map shape (fold_left (fun acc c => confirmIn c acc) cids l) = map shape l.
Proof.
  revert l. induction cids as [|c cids IH]; intros l; simpl; [reflexivity|].
  now rewrite IH, confirmIn_shape.
Qed.

Lemma filter_shape_ids (p : IFeedItem -> bool) (l l' : list IFeedItem) :
  (forall a b, shape a = shape b -> p a = p b) ->
  map shape l = map shape l' ->
  map id (filter p l) = map id (filter p l').
Proof.
  intros Hp. revert l'. induction l as [|a l IH]; intros [|b l'] H;
    cbn [map] in H; try discriminate; [reflexivity|].
  pose proof (f_equal (hd (shape a)) H) as Hab.
  pose proof (f_equal (@tl _) H) as Hl. cbn [hd tl] in Hab, Hl.
  cbn [filter].
  rewrite (Hp a b Hab). destruct (p b); cbn [map]; [|now apply IH].
  f_equal; [|now apply IH]. unfold shape in Hab. now injection Hab.
Qed.

Lemma uncategorised_by_shape (a b : IFeedItem) :
  shape a = shape b -> uncategorised a = uncategorised b.
Proof.
  unfold shape. intros H. injection H as Hi Hv Ht.
  unfold uncategorised, isZero, isNonZero, isPayload. now rewrite Hv, Ht.
Qed.

(** X8. In the earlier revision the sweep has no category for an item
    without a payload: whatever a message brings, the items without a
    payload that the window holds stay, in their order, behind those
    that the message adds. *)
Theorem items_without_payload_are_kept (m : IFeedSubscriptionMessage)
    (s : State) :
  exists newer,
    map id (filter uncategorised (_items (fst (onTransactions m s))))
    = newer ++ map id (filter uncategorised (_items s)).
Proof.
  unfold FeedClient003.onTransactions.
  destruct (_subscriptionId s) as [mine|]; [|now exists []].
  destruct (String.eqb (subscriptionId m) mine); [|now exists []].
  cbn [fst].
  set (marked := fold_left (fun acc c => confirmIn c acc) (msgConfirmed m)
                           (_items s)).
  assert (Hm : map id (filter uncategorised marked)
               = map id (filter uncategorised (_items s))).
  { apply filter_shape_ids; [apply uncategorised_by_shape|].
    apply confirmed_shape. }
  destruct (0 <? length (filteredNewItems s m))%nat; cbn [_items].
  - exists (map id (filter uncategorised (filteredNewItems s m))).
    rewrite sweep_of_the_window, RetentionFacts.keep_uncategorised.
    + now rewrite filter_app, map_app, Hm.
    + intros q x Hq Hx. unfold uncategorised in Hx.
      apply negb_true_iff in Hx.
      apply orb_false_iff in Hx as [Hx H4].
      apply orb_false_iff in Hx as [Hx H3].
      apply orb_false_iff in Hx as [H1 H2].
      unfold categories in Hq.
      destruct Hq as [<-|[<-|[<-|[<-|[]]]]]; assumption.
  - exists []. exact Hm.
Qed.

(** *** Confirmations *)

Lemma confirmIn_by_id (cid : string) (l : list IFeedItem) :
  NoDup (map id l) ->
  confirmIn cid l
  = map (fun t => if String.eqb (id t) cid then setConfirmed t else t) l.
Proof.
  induction l as [|c l IH]; simpl; intros H; [reflexivity|].
  inversion H as [|? ? Hn Hd]; subst.
  destruct (String.eqb (id c) cid) eqn:E.
  - apply String.eqb_eq in E. subst cid. f_equal.
    symmetry. rewrite <- (map_id l) at 2. apply map_ext_in. intros t Ht.
    destruct (String.eqb (id t) (id c)) eqn:E'; [|reflexivity].
    apply String.eqb_eq in E'. exfalso. apply Hn. rewrite <- E'.
    now apply in_map.
  - f_equal. now apply IH.
Qed.

(** X9. When the window has no id twice, the confirmations of a message
    go to the items by id: the items whose ids are listed are confirmed,
    every other item is left as it is, and a confirmation for an id that
    is not in the window is dropped. *)
Theorem confirmations_go_by_id (cids : list string) (l : list IFeedItem) :
  NoDup (map id l) ->
  fold_left (fun acc c => confirmIn c acc) cids l
  = map (fun t => if includes cids (id t) then setConfirmed t else t) l.
Proof.
  revert l. induction cids as [|c cids IH]; intros l Hl.
  - simpl. symmetry. apply map_id.
  - cbn [fold_left]. rewrite IH.
    + rewrite confirmIn_by_id by exact Hl. rewrite map_map.
      apply map_ext. intros t. unfold includes. cbn [existsb].
      rewrite (String.eqb_sym (id t) c).
      destruct (String.eqb c (id t)); cbn [orb id setConfirmed];
        [|reflexivity].
      now destruct (existsb _ cids).
    + pose proof (confirmIn_shape c l) as E.
      apply (f_equal (map (fun x => fst (fst x)))) in E.
      rewrite !map_map in E. unfold shape in E. cbn [fst] in E.
      change (map id (confirmIn c l) = map id l) in E. now rewrite E.
Qed.

End Client.

Import Samples.
Local Open Scope string_scope.

Lemma confirmations_go_by_id_witness :
  map confirmed
      (fold_left (fun acc c => confirmIn c acc) ["b"; "zz"]%list
                 [child "a" "" 0; child "b" "a" 0]%list)
  = [false; true]%list.
Proof.
  rewrite confirmations_go_by_id.
  - reflexivity.
  - simpl. repeat constructor; simpl; intuition discriminate.
Defined.

End FeedClient003Facts.

(** ** The visualizer: traversals, removals and updates *)

Module GraphOperationsFacts.

Unset Implicit Arguments.

Import JS JSFacts Model Viva VivaFacts Visualizer VisualizerFacts.
(** *** One traversal *)

(** X10. Started at a node without a graph id, in a graph whose graph
    ids mark whole components, with more fuel than the graph has nodes,
    [calculateSubGraph] comes to an end and returns the connected
    component of the node, every member once, with the latest [added]
    time among the members (and at least 0); the members have a graph id
    afterwards, and nothing else has changed. *)
Theorem calculateSubGraph_returns_the_component (fuel gid : nat) (g : Graph)
    (startNodeId : string) :
  sound g -> closedMarks g -> isUnmarked g startNodeId = true ->
  (length (nodeIds g) < fuel)%nat ->
  exists g' sub,
    calculateSubGraph fuel g startNodeId (S gid) = Some (g', sub)
    /\ component g startNodeId (subNodes sub)
    /\ mostRecentChange sub = maxAdded g (subNodes sub)
    /\ nodeIds g' = nodeIds g
    /\ links g' = links g
    /\ stamps g' = stamps g
    /\ (forall y, isUnmarked g' y = true <->
                  isUnmarked g y = true /\ ~ In y (subNodes sub)).
Proof.
  intros Hs Hc Hu Hfuel.
  pose proof (visiting_start g startNodeId Hu) as H0.
  destruct (visit_runs g startNodeId gid Hs Hc Hu fuel g [startNodeId] [] 0
              H0 ltac:(simpl; lia)) as [g2 [vis [mrc [Hr Hv]]]].
  destruct (visited_component g startNodeId Hc g2 vis mrc Hv)
    as [Hcomp [Hmrc [Hl [Hst [_ Hm]]]]].
  exists g2, (mkSub vis mrc). unfold calculateSubGraph. rewrite Hr.
  split; [reflexivity|]. cbn [subNodes mostRecentChange].
  split; [exact Hcomp|]. split; [exact Hmrc|]. split.
  - apply (f_equal (map fst)) in Hst. unfold stamps in Hst.
    rewrite !map_map in Hst. exact Hst.
  - auto.
Qed.

(** *** Draining the removal queue *)

Lemma drain_selection (queue : list string) :
  forall (st : Graph * MsIndex * option IFeedItem),
  snd (drain queue st)
  = match snd st with
    | Some item =>
        if existsb (fun x => truthy x && String.eqb (id item) x) queue
        then None else Some item
    | None => None
    end.
Proof.
  unfold drain. induction queue as [|x queue IH]; intros [[g ms] sel].
  - simpl. now destruct sel.
  - cbn [fold_left existsb]. rewrite IH. unfold removeOne.
    destruct (truthy x) eqn:Ht; cbn [andb orb].
    + destruct (unlinkAll x (g, ms)) as [g1 ms1]. cbn [snd]. unfold deselect.
      destruct sel as [item|]; [|reflexivity].
      destruct (String.eqb (id item) x); reflexivity.
    + cbn [snd]. now destruct sel.
Qed.

Lemma getNode_filtered (g g0 : Graph) (keep : string -> bool) (x : string)
    (d : INodeData) :
  nodes g = filter (fun n => keep (fst n)) (nodes g0) ->
  NoDup (nodeIds g0) ->
  getNode g x = Some d -> getNode g0 x = Some d.
Proof.
  intros Hn Hnd H. apply getNode_In in H. rewrite Hn in H.
  apply filter_In in H as [H _].
  destruct (getNode g0 x) as [d0|] eqn:E.
  - apply getNode_In in E. f_equal.
    unfold nodeIds in Hnd.
    assert (G : forall (l : list (string * INodeData)),
              NoDup (map fst l) -> In (x, d) l -> In (x, d0) l -> d0 = d).
    { clear. induction l as [|[k v] l IH]; simpl; intros Hnd H1 H2; [easy|].
      inversion Hnd as [|? ? Hn Hd]; subst.
      destruct H1 as [H1|H1], H2 as [H2|H2].
      - congruence.
      - injection H1 as -> ->. exfalso. apply Hn.
        apply in_map_iff. now exists (x, d0).
      - injection H2 as -> ->. exfalso. apply Hn.
        apply in_map_iff. now exists (x, d).
      - now apply IH. }
    now apply (G (nodes g0)).
  - apply getNode_None in E. exfalso. apply E.
    unfold nodeIds. apply in_map_iff. now exists (x, d).
Qed.

(** X11. [removeNodes] on a sound graph empties the queue. Every id of
    the queue, the empty string apart, is out of the graph afterwards;
    no node and no link is added, the nodes that stay keep their data,
    and every link that stays still joins two nodes. The selection is
    cleared exactly when the selected item is one of the queued ids; the
    arrival sequence and the pending items are not touched. *)
Theorem removeNodes_drains_the_queue (s : State) (g : Graph) :
  _graph s = Some g -> sound g ->
  exists g',
    _graph (removeNodes s) = Some g'
    /\ _removeNodes (removeNodes s) = []
    /\ (forall x, In x (_removeNodes s) -> truthy x = true ->
          ~ In x (nodeIds g'))
    /\ (forall x d, getNode g' x = Some d -> getNode g x = Some d)
    /\ (forall l, In l (links g') ->
          In l (links g)
          /\ In (fromId l) (nodeIds g') /\ In (toId l) (nodeIds g'))
    /\ selectedFeedItem (removeNodes s)
       = match selectedFeedItem s with
         | Some item =>
             if existsb (fun x => truthy x && String.eqb (id item) x)
                        (_removeNodes s)
             then None else Some item
         | None => None
         end
    /\ _existingIds (removeNodes s) = _existingIds s
    /\ _newItems (removeNodes s) = _newItems s.
Proof.
  intros Hg Hs. unfold removeNodes. rewrite Hg.
  set (st := (g, _msIndexToNode s, selectedFeedItem s)).
  pose proof (sound_drain (_removeNodes s) st Hs) as H1.
  pose proof (drain_removes (_removeNodes s) st) as H3.
  pose proof (drain_selection (_removeNodes s) st) as H4.
  assert (Hw : within (fun _ => True) g (fst (fst (drain (_removeNodes s) st)))).
  { apply within_drain; [tauto|apply within_refl|auto]. }
  destruct (drain (_removeNodes s) st) as [[g' ms'] sel'].
  cbn [fst snd] in *.
  exists g'. cbn [_graph _removeNodes selectedFeedItem _existingIds _newItems].
  split; [reflexivity|]. split; [reflexivity|]. split; [exact H3|].
  destruct Hw as [[keep [Hn _]] Hl _].
  split; [|split; [|split; [exact H4|split; reflexivity]]].
  - intros x d. apply (getNode_filtered g' g keep x d Hn).
    apply Hs.
  - intros l Hin. split; [now apply Hl|]. apply H1. exact Hin.
Qed.

(** *** Confirmations *)

Definition confirm (d : INodeData) : INodeData :=
  mkData (setConfirmed (feedItem d)) (added d) (graphId d).

Lemma setData_by_id (x : string) (f : INodeData -> INodeData)
    (ns : list (string * INodeData)) :
  NoDup (map fst ns) ->
  setData x f ns
  = map (fun n => (fst n, if String.eqb (fst n) x then f (snd n) else snd n))
        ns.
Proof.
  induction ns as [|[k d] ns IH]; simpl; intros H; [reflexivity|].
  inversion H as [|? ? Hn Hd]; subst.
  destruct (String.eqb k x) eqn:E.
  - apply String.eqb_eq in E. subst k. f_equal.
    symmetry. rewrite <- (map_id ns) at 2. apply map_ext_in.
    intros [k d'] Hin. cbn [fst snd].
    destruct (String.eqb k x) eqn:E'; [|reflexivity].
    apply String.eqb_eq in E'. subst k. exfalso. apply Hn.
    apply in_map_iff. now exists (x, d').
  - f_equal. now apply IH.
Qed.

Lemma confirm_fold (ids : list string) : forall (g : Graph),
  NoDup (nodeIds g) ->
  fold_left (fun g sn => updateNode g sn confirm) ids g
  = mkGraph (map (fun n => (fst n, if includes ids (fst n)
                                   then confirm (snd n) else snd n))
                 (nodes g))
            (links g).
Proof.
  induction ids as [|c ids IH]; intros g Hnd.
  - simpl. rewrite map_ext with (g := fun n => n);
      [rewrite map_id; now destruct g|].
    intros [k d]. reflexivity.
  - cbn [fold_left]. rewrite IH by now rewrite nodeIds_updateNode.
    unfold updateNode. cbn [nodes links].
    rewrite setData_by_id by exact Hnd. rewrite map_map. f_equal.
    apply map_ext. intros [k d]. cbn [fst snd]. unfold includes.
    cbn [existsb]. rewrite (String.eqb_sym k c).
    destruct (String.eqb c k); cbn [orb]; [|reflexivity].
    now destruct (existsb _ ids).
Qed.

Lemma confirmations_mark_the_listed_nodes_aux (ids : list string) (s : State)
    (g : Graph) :
  _graph s = Some g -> NoDup (nodeIds g) ->
  confirmedUpdated ids s
  = mkState
      (Some (mkGraph
               (map (fun n => (fst n, if includes ids (fst n)
                                      then confirm (snd n) else snd n))
                    (nodes g))
               (links g)))
      (_existingIds s) (_newItems s) (_removeNodes s) (_msIndexToNode s)
      (_smallNetworkInterval s) (itemCount s) (selectedFeedItem s).
Proof.
  intros Hg Hnd. unfold confirmedUpdated. rewrite Hg.
  f_equal. f_equal. apply (confirm_fold ids g Hnd).
Qed.


(** X13. A confirmation that arrives before its item is lost: when none
    of the ids is a node, [confirmedUpdated] leaves the state as it is,
    so the item is drawn later with the flag it brings. And confirming
    again what has been confirmed changes nothing. *)
Theorem confirmations_of_unknown_ids_are_lost (ids : list string) (s : State)
    (g : Graph) :
  _graph s = Some g -> NoDup (nodeIds g) ->
  ((forall x, In x ids -> ~ In x (nodeIds g)) -> confirmedUpdated ids s = s)
  /\ confirmedUpdated ids (confirmedUpdated ids s) = confirmedUpdated ids s.
Proof.
  intros Hg Hnd.
  rewrite (confirmations_mark_the_listed_nodes_aux ids s g Hg Hnd).
  split.
  - intros Hnone. destruct s as [gr ex ni rm ms iv ic sel].
    cbn [_graph] in Hg. subst gr. cbn. f_equal. f_equal.
    destruct g as [ns ls]. cbn [nodes links nodeIds] in *. f_equal.
    rewrite <- (map_id ns) at 2. apply map_ext_in. intros [k d] Hin.
    cbn [fst snd].
    destruct (includes ids k) eqn:E; [|reflexivity].
    apply includes_iff in E. exfalso. apply (Hnone k E).
    apply in_map_iff. now exists (k, d).
  - set (g1 := mkGraph _ (links g)).
    assert (Hnd1 : NoDup (nodeIds g1)).
    { unfold g1, nodeIds. cbn [nodes]. rewrite map_map. cbn [fst].
      exact Hnd. }
    match goal with
    | |- confirmedUpdated ids ?s1 = _ =>
        rewrite (confirmations_mark_the_listed_nodes_aux ids s1 g1 eq_refl Hnd1)
    end.
    cbn [_existingIds _newItems _removeNodes _msIndexToNode
         _smallNetworkInterval itemCount selectedFeedItem].
    f_equal. f_equal. unfold g1. cbn [nodes links]. f_equal.
    rewrite map_map. apply map_ext. intros [k d]. cbn [fst snd].
    now destruct (includes ids k).
Qed.

(** *** Frames without arrivals *)

Lemma linkParent_adds_one (now : Z) (parent child : string)
    (ga : Graph * list string) :
  (length (snd (linkParent now parent child ga)) <= S (length (snd ga)))%nat.
Proof.
  destruct ga as [g added]. unfold linkParent.
  destruct (getNode g parent); simpl; rewrite ?length_app; simpl; lia.
Qed.

Lemma drawItem_adds_three (now : Z) (ga : Graph * list string)
    (item : IFeedItem) :
  (length (snd (drawItem now ga item)) <= 3 + length (snd ga))%nat.
Proof.
  destruct ga as [g added]. unfold drawItem.
  destruct (getNode g (id item)); cbn [snd]; [lia|].
  set (ga1 := (addNode g (id item) (mkData item now None), added ++ [id item])).
  assert (H1 : (length (snd ga1) = S (length added))%nat).
  { unfold ga1. cbn [snd]. rewrite length_app. simpl. lia. }
  set (ga2 := if truthy (parent1 item)
              then linkParent now (parent1 item) (id item) ga1 else ga1).
  assert (H2 : (length (snd ga2) <= S (length (snd ga1)))%nat).
  { unfold ga2. destruct (truthy (parent1 item));
      [apply linkParent_adds_one|apply Nat.le_succ_diag_r]. }
  clearbody ga1 ga2.
  destruct (truthy (parent2 item) && _).
  - pose proof (linkParent_adds_one now (parent2 item) (id item) ga2). lia.
  - lia.
Qed.

Lemma drawItems_adds_three_each (now : Z) (items : list IFeedItem) :
  forall ga,
  (length (snd (fold_left (drawItem now) items ga))
   <= 3 * length items + length (snd ga))%nat.
Proof.
  induction items as [|it items IH]; intros ga; simpl; [lia|].
  pose proof (IH (drawItem now ga it)).
  pose proof (drawItem_adds_three now ga it). lia.
Qed.

Lemma ceil_div_50 (n : nat) :
  (n <= 50 * 1666 -> ceil_div n 50 <= 1666)%nat
  /\ (0 < n -> 0 < ceil_div n 50)%nat
  /\ (ceil_div n 50 <= n)%nat.
Proof.
  unfold ceil_div.
  pose proof (Nat.div_mod (n + 50 - 1) 50 ltac:(lia)) as Hd.
  pose proof (Nat.mod_upper_bound (n + 50 - 1) 50 ltac:(lia)) as Hm.
  repeat split; intros; lia.
Qed.

(** A frame on a calm state with a backlog of at most 83300 (50 times 1666) items adds
    at most [MAX_ITEMS] - 2 nodes. *)
Lemma addedByFrame_small (now : Z) (s : State) :
  (length (_newItems s) <= 50 * 1666)%nat ->
  (addedByFrame now s <= MAX_ITEMS)%nat.
Proof.
  intros Hn. unfold addedByFrame. destruct (_graph s) as [g|]; [|lia].
  unfold drawItems.
  pose proof (drawItems_adds_three_each now
                (slice_to (ceil_div (length (_newItems s)) 50) (_newItems s))
                (g, [])) as H.
  cbn [snd length] in H. unfold slice_to in H at 2.
  rewrite length_firstn in H.
  destruct (ceil_div_50 (length (_newItems s))) as [H1 _].
  specialize (H1 Hn). unfold MAX_ITEMS. lia.
Qed.

(** A frame on a calm state comes to an end when it adds no more nodes
    than the cap allows for and the fuel exceeds the cap; it takes the
    first [ceil (n / 50)] of the [n] pending items. *)
Lemma drawUpdates_runs (fuel : nat) (now : Z) (s : State) (g : Graph) :
  calm s -> _graph s = Some g ->
  (addedByFrame now s <= MAX_ITEMS)%nat -> (MAX_ITEMS < fuel)%nat ->
  exists s' g',
    drawUpdates fuel now s = Some s'
    /\ _graph s' = Some g'
    /\ _newItems s'
       = skipn (ceil_div (length (_newItems s)) 50) (_newItems s).
Proof.
  intros Hc Hg Hadd Hfuel. pose proof Hc as [Hq Hcap Hp Hgr].
  unfold drawUpdates. unfold addedByFrame in Hadd. rewrite Hg in *.
  destruct (0 <? length (_newItems s))%nat eqn:E0.
  2:{ exists s, g. split; [reflexivity|]. split; [exact Hg|].
      apply Nat.ltb_ge in E0.
      destruct (_newItems s); [reflexivity|simpl in E0; lia]. }
  destruct (Hgr g eq_refl) as [Hsound Hincl].
  set (items := slice_to (ceil_div (length (_newItems s)) 50) (_newItems s))
    in *.
  assert (Hitems : forall it, In it items -> truthy (id it) = true).
  { intros it Hit. apply Hp. unfold items, slice_to in Hit.
    rewrite <- (firstn_skipn (ceil_div (length (_newItems s)) 50)).
    apply in_or_app. now left. }
  destruct (@drawItems_sound now items g Hsound Hitems) as [Hn1 Hs1].
  destruct (drawItems now items g) as [g1 added] eqn:Ed.
  cbn [fst snd] in Hn1, Hs1, Hadd. cbv beta iota.
  rewrite evict_spec, Hq. cbn [app]. cbv beta iota.
  set (E1 := _existingIds s ++ added) in *.
  set (k := (length E1 - MAX_ITEMS)%nat) in *.
  set (queue := filter (evictable added) (firstn k E1)) in *.
  set (mid := mkState (Some g1) (skipn k E1) _ queue _ _ _ _) in *.
  destruct (removeNodes_state mid g1 eq_refl Hs1)
    as [g2 [Hg2 [Hs2 [Hi2 [Hrem2 [Hq2 [He2 [Hn2 Hv2]]]]]]]].
  set (s2 := mkState (_graph (removeNodes mid)) _ _ _ _ _ _ _) in *.
  assert (Hc2 : calm s2).
  { constructor; simpl.
    - exact Hq2.
    - rewrite He2. simpl. apply length_skipn_cap.
    - rewrite Hn2. simpl. intros it Hit. apply Hp.
      unfold slice_from in Hit.
      rewrite <- (firstn_skipn (ceil_div (length (_newItems s)) 50)).
      apply in_or_app. now right.
    - intros g3 H3. rewrite Hg2 in H3. injection H3 as <-.
      split; [exact Hs2|]. rewrite He2. simpl.
      intros x Hx. apply survivor_in_window.
      + exact Hadd.
      + apply Hi2 in Hx. rewrite Hn1 in Hx. unfold E1.
        apply in_app_or in Hx as [Hx|Hx]; apply in_or_app; auto.
      + destruct Hs2 as [_ Ht2]. auto.
      + intros Hin. apply (Hrem2 x); auto. destruct Hs2 as [_ Ht2]. auto. }
  assert (Hg2' : _graph s2 = Some g2) by exact Hg2.
  assert (Hn2' : _newItems s2
                 = skipn (ceil_div (length (_newItems s)) 50) (_newItems s))
    by (unfold s2; cbn [_newItems]; rewrite Hn2; reflexivity).
  destruct (_smallNetworkInterval s mod 100 =? 0)%nat.
  - assert (Hlen : (length (nodeIds g2) < fuel)%nat).
    { eapply Nat.le_lt_trans; [|exact Hfuel].
      etransitivity; [|exact (calm_cap s2 Hc2)].
      apply NoDup_incl_length.
      - apply Hs2.
      - apply (calm_graph s2 Hc2 g2 Hg2'). }
    destruct (loop_spec fuel fuel now s2 g2 Hc2 Hg2' Hlen)
      as [s3 [g3 [Hloop [Hg3 [Hc3 [He3 _]]]]]].
    { unfold MAX_ITEMS in Hfuel. lia. }
    assert (Hr : removeSmallNetworks fuel now s2 = Some s3).
    { unfold removeSmallNetworks. rewrite Hg2'. exact Hloop. }
    destruct (removeSmallNetworks_calm fuel now s2 s3 Hc2 Hr)
      as [_ [_ [Hn3 _]]].
    rewrite Hr. eexists. exists g3. split; [reflexivity|].
    cbn [_graph _newItems]. split; [exact Hg3|]. congruence.
  - eexists. exists g2. split; [reflexivity|].
    cbn [_graph _newItems]. split; [exact Hg2'|exact Hn2'].
Qed.

Section Network.
Variable protocolVersion : option string.

(** X14. With no arrivals in between, a backlog of [n] pending items, at
    most 83300 (50 times 1666) of them, is drawn completely within [n]
    frames: every frame comes to an end, takes its share from the front
    of the backlog, and leaves a state in which the cap holds. *)
Theorem backlog_is_drawn (fuel : nat) (times : list Z) : forall (s : State),
  reach protocolVersion s -> _graph s <> None ->
  (length (_newItems s) <= 50 * 1666)%nat ->
  (MAX_ITEMS < fuel)%nat ->
  (length (_newItems s) <= length times)%nat ->
  exists s',
    frames fuel times s = Some s'
    /\ _newItems s' = []
    /\ reach protocolVersion s'.
Proof.
  induction times as [|now rest IH]; intros s Hr Hg Hn Hfuel Hlen.
  - exists s. split; [reflexivity|]. split; [|exact Hr].
    destruct (_newItems s); [reflexivity|simpl in Hlen; lia].
  - destruct (_graph s) as [g|] eqn:Eg; [|congruence].
    pose proof (addedByFrame_small now s Hn) as Hadd.
    destruct (drawUpdates_runs fuel now s g (reach_calm protocolVersion s Hr)
                Eg Hadd Hfuel) as [s1 [g1 [Hd [Hg1 Hn1]]]].
    cbn [frames]. rewrite Hd.
    assert (Hlen1 : (length (_newItems s1) <= length rest)%nat
                    /\ (length (_newItems s1) <= 50 * 1666)%nat).
    { rewrite Hn1, length_skipn.
      destruct (ceil_div_50 (length (_newItems s))) as [_ [Hpos Hle]].
      simpl in Hlen. lia. }
    apply IH.
    + eapply reach_drawUpdates; eauto.
    + congruence.
    + apply Hlen1.
    + exact Hfuel.
    + apply Hlen1.
Qed.

End Network.

(** *** Milestones on the graph *)

(** The data of a node after [highlightMilestones] has written the
    index [k] into its item. *)
Definition marked (k : Z) (d : INodeData) : INodeData :=
  mkData (setMS k (feedItem d)) (added d) (graphId d).

Lemma marked_twice (k k' : Z) (d : INodeData) :
  marked k (marked k' d) = marked k d.
Proof. reflexivity. Qed.

Section Marking.
Variable now : Z.
Variable g0 : Graph.
Variable ms0 : MsIndex.

(** What holds while the keys are gone through. *)
Record marking (done : list Z) (acc : Graph * MsIndex * list Z) : Prop := {
  mk_nodes : nodeIds (fst (fst acc)) = nodeIds g0;
  mk_links : links (fst (fst acc)) = links g0;
  mk_ids : forall k, option_map msId (ms_get k (snd (fst acc)))
                     = option_map msId (ms_get k ms0);
  mk_data : forall x d, getNode g0 x = Some d ->
    (getNode (fst (fst acc)) x = Some d
     /\ forall k e, In k done -> ms_get k ms0 = Some e -> msId e <> x)
    \/ (exists k e, In k done /\ ms_get k ms0 = Some e /\ msId e = x
          /\ getNode (fst (fst acc)) x = Some (marked k d))
}.

Lemma marking_step (done : list Z) (acc : Graph * MsIndex * list Z) (k : Z) :
  marking done acc -> marking (done ++ [k]) (highlightOne now acc k).
Proof.
  destruct acc as [[g ms] rem]. intros [Hn Hl Hi Hd]. cbn [fst snd] in *.
  unfold highlightOne.
  destruct (ms_get k ms) as [entry|] eqn:Ek.
  - assert (Hk0 : exists e0, ms_get k ms0 = Some e0 /\ msId e0 = msId entry).
    { specialize (Hi k). rewrite Ek in Hi. cbn in Hi.
      destruct (ms_get k ms0) as [e0|]; [|discriminate].
      exists e0. split; [reflexivity|]. cbn in Hi. congruence. }
    destruct Hk0 as [e0 [Hk0 Hid]].
    destruct (getNode g (msId entry)) as [node|] eqn:En.
    + constructor; cbn [fst snd].
      * now rewrite nodeIds_updateNode.
      * exact Hl.
      * intros k'. destruct (Z.eq_dec k k') as [<-|Hne].
        -- rewrite ms_get_set_same, Hk0. cbn. now rewrite Hid.
        -- rewrite ms_get_set_other by exact Hne. apply Hi.
      * intros x d Hx. destruct (String.eqb (msId entry) x) eqn:Ex.
        -- apply String.eqb_eq in Ex. subst x. right.
           exists k, e0. split; [apply in_or_app; right; now left|].
           split; [exact Hk0|]. split; [exact Hid|].
           rewrite getNode_updateNode_same.
           destruct (Hd (msId entry) d Hx) as [[Hg _]|[k1 [e1 [_ [_ [_ Hg]]]]]];
             rewrite Hg; reflexivity.
        -- apply String.eqb_neq in Ex.
           rewrite getNode_updateNode_other by exact Ex.
           destruct (Hd x d Hx) as [[Hg Hno]|[k1 [e1 [H1 [H2 [H3 Hg]]]]]].
           ++ left. split; [exact Hg|]. intros k' e' Hin He'.
              apply in_app_or in Hin as [Hin|[<-|[]]]; [eauto|].
              assert (e' = e0) by congruence. subst e'. congruence.
           ++ right. exists k1, e1. split; [apply in_or_app; now left|].
              auto.
    + assert (Hsame : marking (done ++ [k]) (g, ms, rem)).
      { constructor; cbn [fst snd]; auto.
        intros x d Hx.
        destruct (Hd x d Hx) as [[Hg Hno]|[k1 [e1 [H1 [H2 [H3 Hg]]]]]].
        - left. split; [exact Hg|]. intros k' e' Hin He'.
          apply in_app_or in Hin as [Hin|[<-|[]]]; [eauto|].
          assert (e' = e0) by congruence. subst e'.
          intros Hc. rewrite Hid in Hc. subst x. congruence.
        - right. exists k1, e1. split; [apply in_or_app; now left|]. auto. }
      destruct (300000 <? now - lastSeen entry)%Z.
      * destruct Hsame as [A B C D]. constructor; auto.
      * exact Hsame.
  - constructor; cbn [fst snd]; auto.
    intros x d Hx.
    destruct (Hd x d Hx) as [[Hg Hno]|[k1 [e1 [H1 [H2 [H3 Hg]]]]]].
    + left. split; [exact Hg|]. intros k' e' Hin He'.
      apply in_app_or in Hin as [Hin|[<-|[]]]; [eauto|].
      specialize (Hi k). rewrite Ek, He' in Hi. discriminate.
    + right. exists k1, e1. split; [apply in_or_app; now left|]. auto.
Qed.

Lemma marking_fold (keys : list Z) : forall done acc,
  marking done acc ->
  marking (done ++ keys) (fold_left (highlightOne now) keys acc).
Proof.
  induction keys as [|k keys IH]; intros done acc H; simpl.
  - now rewrite app_nil_r.
  - replace (done ++ k :: keys) with ((done ++ [k]) ++ keys)
      by now rewrite <- app_assoc.
    apply IH. now apply marking_step.
Qed.

Lemma highlightIn_marks (x : string) (d : INodeData) :
  getNode g0 x = Some d ->
  links (fst (highlightIn now g0 ms0)) = links g0
  /\ ((forall k e, ms_get k ms0 = Some e -> msId e <> x) ->
      getNode (fst (highlightIn now g0 ms0)) x = Some d)
  /\ (forall k e, ms_get k ms0 = Some e -> msId e = x ->
      exists k' e', ms_get k' ms0 = Some e' /\ msId e' = x
        /\ getNode (fst (highlightIn now g0 ms0)) x = Some (marked k' d)).
Proof.
  intros Hx. unfold highlightIn.
  assert (H0 : marking [] (g0, ms0, [])).
  { constructor; cbn [fst snd]; auto. }
  pose proof (marking_fold (map fst ms0) [] _ H0) as H.
  rewrite app_nil_l in H.
  destruct (fold_left (highlightOne now) (map fst ms0) (g0, ms0, []))
    as [[g ms] rem].
  destruct H as [Hn Hl Hi Hd]. cbn [fst snd] in *.
  split; [exact Hl|]. split.
  - intros Hno.
    destruct (Hd x d Hx) as [[Hg _]|[k1 [e1 [_ [H2 [H3 _]]]]]]; [exact Hg|].
    exfalso. exact (Hno k1 e1 H2 H3).
  - intros k e Hk He.
    destruct (Hd x d Hx) as [[_ Hno]|[k1 [e1 [_ [H2 [H3 Hg]]]]]].
    + exfalso. apply (Hno k e); [|exact Hk|exact He].
      eapply ms_get_In; eauto.
    + exists k1, e1. auto.
Qed.

End Marking.

Lemma ms_set_fold (now : Z) (milestones : list (string * Z)) :
  forall (m : MsIndex), NoDup (map snd milestones) ->
  forall k,
    (forall x, In (x, k) milestones ->
       ms_get k (fold_left (fun m mi => ms_set (snd mi) (mkEntry (fst mi) now) m)
                           milestones m)
       = Some (mkEntry x now))
    /\ (~ In k (map snd milestones) ->
        ms_get k (fold_left (fun m mi => ms_set (snd mi) (mkEntry (fst mi) now) m)
                            milestones m)
        = ms_get k m).
Proof.
  induction milestones as [|[y j] rest IH]; intros m Hnd k.
  - split; [intros x []|reflexivity].
  - cbn [map snd] in Hnd. inversion Hnd as [|? ? Hj Hnd']; subst.
    cbn [fold_left fst snd].
    destruct (IH (ms_set j (mkEntry y now) m) Hnd' k) as [H1 H2].
    split.
    + intros x [Heq|Hin]; [|now apply H1].
      injection Heq as -> ->. rewrite H2 by exact Hj.
      apply ms_get_set_same.
    + intros Hk. cbn [map snd] in Hk.
      rewrite H2 by (intros Hc; apply Hk; now right).
      apply ms_get_set_other. intros ->. apply Hk. now left.
Qed.

Section Announced.
Variable protocolVersion : option string.

(** X15. On an "og" network, a milestone of the feed whose transaction
    is a node of the graph is registered under its index with the time
    of the call, and the node is drawn as a milestone from then on: its
    item carries a milestone index, so its colour is the milestone
    colour (when it is not a search result) and its size is large. The
    indexes of the list are distinct, and no index, old or new, is zero;
    the nodes and the links of the graph stay as they are. *)
Theorem announced_milestone_is_drawn (now : Z) (milestones : list (string * Z))
    (s : State) (g : Graph) (x : string) (k : Z) (d : INodeData) :
  isProtocol protocolVersion "og" = true ->
  _graph s = Some g ->
  NoDup (map snd milestones) ->
  (forall mi, In mi milestones -> snd mi <> 0%Z) ->
  (forall k' e, ms_get k' (_msIndexToNode s) = Some e -> k' <> 0%Z) ->
  In (x, k) milestones ->
  getNode g x = Some d ->
  let s' := milestonesUpdated protocolVersion now milestones s in
  ms_get k (_msIndexToNode s') = Some (mkEntry x now)
  /\ exists g' k',
       _graph s' = Some g'
       /\ nodeIds g' = nodeIds g /\ links g' = links g
       /\ k' <> 0%Z
       /\ getNode g' x = Some (marked k' d)
       /\ calculateNodeStyle (getNode g' x) false
          = (COLOR_MILESTONE, VERTEX_SIZE_LARGE).
Proof.
  intros Hog Hg Hnd Hnz Hold Hin Hx s'.
  unfold s', milestonesUpdated. rewrite Hog.
  set (T := fold_left (fun m mi => ms_set (snd mi) (mkEntry (fst mi) now) m)
                      milestones (_msIndexToNode s)).
  assert (HT : ms_get k T = Some (mkEntry x now)).
  { unfold T. now apply (ms_set_fold now milestones _ Hnd k). }
  assert (HTnz : forall k' e, ms_get k' T = Some e -> k' <> 0%Z).
  { intros k' e He.
    destruct (in_dec Z.eq_dec k' (map snd milestones)) as [Hi|Hi].
    - apply in_map_iff in Hi as [mi [<- Hmi]]. now apply Hnz.
    - unfold T in He.
      rewrite (proj2 (ms_set_fold now milestones _ Hnd k') Hi) in He.
      now apply (Hold k' e). }
  unfold highlightMilestones.
  cbn [_graph _existingIds _newItems _removeNodes _msIndexToNode
       _smallNetworkInterval itemCount selectedFeedItem].
  rewrite Hg. fold T.
  destruct (highlightIn_spec now g T k) as [Hn Hk].
  rewrite HT in Hk. cbn [msId] in Hk. rewrite Hx in Hk.
  destruct (highlightIn_marks now g T x d Hx) as [Hl [_ Hm]].
  destruct (Hm k (mkEntry x now) HT eq_refl) as [k' [e' [Hk' [_ Hd']]]].
  destruct (highlightIn now g T) as [g' T'] eqn:Eh.
  cbn [fst snd _graph _msIndexToNode] in *.
  split; [exact Hk|].
  exists g', k'. split; [reflexivity|]. split; [exact Hn|].
  split; [exact Hl|].
  assert (Hk0 : k' <> 0%Z) by now apply (HTnz k' e').
  split; [exact Hk0|]. split; [exact Hd'|].
  rewrite Hd'. unfold calculateNodeStyle, isMilestone, truthyMS, marked, setMS.
  cbn [feedItem metaData metaMS].
  apply Z.eqb_neq in Hk0. rewrite Hk0. reflexivity.
Qed.

End Announced.

(** *** Drawing an item that is not known *)

Lemma linkParent_spec (now : Z) (parent child : string) (g : Graph)
    (added : list string) :
  let r := linkParent now parent child (g, added) in
  ((forall l, In l (links g) -> In l (links (fst r)))
   /\ In (mkLink parent child) (links (fst r)))
  /\ (forall y d, getNode g y = Some d -> getNode (fst r) y = Some d)
  /\ In parent (nodeIds (fst r))
  /\ (getNode g parent = None ->
      getNode (fst r) parent = Some (mkData (placeholder parent) now None))
  /\ (forall y, In y added -> In y (snd r)).
Proof.
  unfold linkParent. destruct (getNode g parent) as [dp|] eqn:Ep; cbn [fst snd].
  - split.
    { unfold addLink. cbn [links]. split.
      - intros l Hl. apply in_or_app. now left.
      - apply in_or_app. right. now left. }
    split; [auto|]. split.
    + apply getNode_Some. eauto.
    + split; [discriminate|auto].
  - split.
    { unfold addLink, addNode, hasNode. rewrite Ep. cbn [links]. split.
      - intros l Hl. apply in_or_app. now left.
      - apply in_or_app. right. now left. }
    split.
    { intros y d Hy. rewrite getNode_addLink, getNode_addNode_new by exact Ep.
      destruct (String.eqb parent y) eqn:E; [|exact Hy].
      apply String.eqb_eq in E. subst. congruence. }
    split.
    { unfold addLink. cbn [nodeIds nodes].
      change (In parent (nodeIds (addNode g parent
                (mkData (placeholder parent) now None)))).
      rewrite nodeIds_addNode_new by exact Ep.
      apply in_or_app. right. now left. }
    split.
    { intros _. rewrite getNode_addLink, getNode_addNode_new by exact Ep.
      now rewrite String.eqb_refl. }
    intros y Hy. apply in_or_app. now left.
Qed.

(** X16. An item that is not a node when its turn comes in the batch
    becomes a node that carries the item and the time of the frame, and
    is reported as added. It is linked from each of its parents (the
    second one when it differs from the first); a parent that is not a
    node yet becomes a placeholder node with the time of the frame. All
    of this is still so at the end of the batch. *)
Theorem unknown_item_is_drawn_with_its_parents (now : Z) (g : Graph)
    (pre post : list IFeedItem) (item : IFeedItem) :
  getNode (fst (drawItems now pre g)) (id item) = None ->
  let before := fst (drawItems now pre g) in
  let after := fst (drawItems now (pre ++ item :: post) g) in
  getNode after (id item) = Some (mkData item now None)
  /\ In (id item) (snd (drawItems now (pre ++ item :: post) g))
  /\ (truthy (parent1 item) = true ->
      In (mkLink (parent1 item) (id item)) (links after)
      /\ In (parent1 item) (nodeIds after)
      /\ (getNode before (parent1 item) = None ->
          parent1 item <> id item ->
          getNode after (parent1 item)
          = Some (mkData (placeholder (parent1 item)) now None)))
  /\ (truthy (parent2 item) = true -> parent1 item <> parent2 item ->
      In (mkLink (parent2 item) (id item)) (links after)
      /\ In (parent2 item) (nodeIds after)
      /\ (getNode before (parent2 item) = None ->
          parent2 item <> id item ->
          getNode after (parent2 item)
          = Some (mkData (placeholder (parent2 item)) now None))).
Proof.
  intros Hnew before after.
  unfold after, drawItems. rewrite fold_left_app. cbn [fold_left].
  fold (drawItems now pre g).
  destruct (drawItems now pre g) as [g1 added1] eqn:E1.
  cbn [fst] in Hnew. unfold before. cbn [fst]. clear before after.
  set (one := drawItem now (g1, added1) item).
  pose proof (grows_fold now post one) as Hgrow.
  destruct Hgrow as [[extra [Hn [Ha _]]] [newLinks [Hl _]] Hdata].
  (* the single step *)
  set (g2 := addNode g1 (id item) (mkData item now None)).
  assert (Hg2 : getNode g2 (id item) = Some (mkData item now None)).
  { unfold g2. rewrite getNode_addNode_new by exact Hnew.
    now rewrite String.eqb_refl. }
  assert (Hg2o : forall y, y <> id item -> getNode g2 y = getNode g1 y).
  { intros y Hy. unfold g2. rewrite getNode_addNode_new by exact Hnew.
    destruct (String.eqb (id item) y) eqn:E; [|reflexivity].
    apply String.eqb_eq in E. congruence. }
  set (ga2 := (g2, added1 ++ [id item])).
  set (ga3 := if truthy (parent1 item)
              then linkParent now (parent1 item) (id item) ga2 else ga2).
  assert (Hone : one = if truthy (parent2 item)
                          && negb (String.eqb (parent1 item) (parent2 item))
                       then linkParent now (parent2 item) (id item) ga3
                       else ga3).
  { unfold one, drawItem. rewrite Hnew. reflexivity. }
  (* after the first parent *)
  assert (H3 : getNode (fst ga3) (id item) = Some (mkData item now None)
               /\ In (id item) (snd ga3)
               /\ (forall y d, getNode g2 y = Some d ->
                               getNode (fst ga3) y = Some d)
               /\ (forall l, In l (links g2) -> In l (links (fst ga3)))
               /\ (truthy (parent1 item) = true ->
                   In (mkLink (parent1 item) (id item)) (links (fst ga3))
                   /\ In (parent1 item) (nodeIds (fst ga3))
                   /\ (getNode g2 (parent1 item) = None ->
                       getNode (fst ga3) (parent1 item)
                       = Some (mkData (placeholder (parent1 item)) now None)))).
  { unfold ga3. destruct (truthy (parent1 item)) eqn:T1.
    - destruct (linkParent_spec now (parent1 item) (id item) g2
                  (added1 ++ [id item])) as [[A1 A2] [B [C [D F]]]].
      split; [now apply B|]. split.
      { apply F. apply in_or_app. right. now left. }
      split; [exact B|]. split; [exact A1|].
      intros _. split; [exact A2|]. split; [exact C|exact D].
    - unfold ga2. cbn [fst snd]. split; [exact Hg2|]. split.
      { apply in_or_app. right. now left. }
      split; [auto|]. split; [auto|discriminate]. }
  destruct H3 as [H3a [H3b [H3c [H3d H3e]]]].
  (* after the second parent *)
  assert (H4 : getNode (fst one) (id item) = Some (mkData item now None)
               /\ In (id item) (snd one)
               /\ (forall y d, getNode (fst ga3) y = Some d ->
                               getNode (fst one) y = Some d)
               /\ (forall l, In l (links (fst ga3)) -> In l (links (fst one)))
               /\ (truthy (parent2 item) = true ->
                   parent1 item <> parent2 item ->
                   In (mkLink (parent2 item) (id item)) (links (fst one))
                   /\ In (parent2 item) (nodeIds (fst one))
                   /\ (getNode (fst ga3) (parent2 item) = None ->
                       getNode (fst one) (parent2 item)
                       = Some (mkData (placeholder (parent2 item)) now None)))).
  { rewrite Hone.
    destruct (truthy (parent2 item)) eqn:T2; cbn [andb].
    - destruct (String.eqb (parent1 item) (parent2 item)) eqn:E12;
        cbn [negb].
      + split; [exact H3a|]. split; [exact H3b|]. split; [auto|].
        split; [auto|]. intros _ Hne. apply String.eqb_eq in E12.
        contradiction.
      + destruct ga3 as [g3 added3]. cbn [fst snd] in *.
        destruct (linkParent_spec now (parent2 item) (id item) g3 added3)
          as [[A1 A2] [B [C [D F]]]].
        split; [now apply B|]. split; [now apply F|].
        split; [exact B|]. split; [exact A1|].
        intros _ _. split; [exact A2|]. split; [exact C|exact D].
    - split; [exact H3a|]. split; [exact H3b|]. split; [auto|].
      split; [auto|discriminate]. }
  destruct H4 as [H4a [H4b [H4c [H4d H4e]]]].
  assert (Hkeep : forall l, In l (links (fst one)) ->
            In l (links (fst (fold_left (drawItem now) post one)))).
  { intros l Hl'. rewrite Hl. apply in_or_app. now left. }
  assert (Hids : forall y, In y (nodeIds (fst one)) ->
            In y (nodeIds (fst (fold_left (drawItem now) post one)))).
  { intros y Hy. rewrite Hn. apply in_or_app. now left. }
  split; [now apply Hdata|]. split.
  { rewrite Ha. apply in_or_app. now left. }
  split.
  - intros T1. destruct (H3e T1) as [L [N P]].
    split; [apply Hkeep, H4d, L|]. split.
    + apply Hids. apply getNode_Some in N as [dn Hdn].
      apply getNode_Some. exists dn. now apply H4c.
    + intros Hb Hne. apply Hdata, H4c, P. now rewrite Hg2o.
  - intros T2 Hne. destruct (H4e T2 Hne) as [L [N P]].
    split; [apply Hkeep, L|]. split; [apply Hids, N|].
    intros Hb Hne2. apply Hdata, P.
    (* the second parent is still unknown after the first *)
    unfold ga3. destruct (truthy (parent1 item)) eqn:T1.
    + unfold linkParent, ga2.
      destruct (getNode g2 (parent1 item)) eqn:Ep1; cbn [fst].
      * rewrite getNode_addLink. now rewrite Hg2o.
      * rewrite getNode_addLink, getNode_addNode_new by exact Ep1.
        apply String.eqb_neq in Hne. rewrite Hne. now rewrite Hg2o.
    + unfold ga2. cbn [fst]. now rewrite Hg2o.
Qed.

(** *** The cones of a node *)

Definition opposite (field : Field) : Field :=
  match field with FromId => ToId | ToId => FromId end.

(** One step along a link, from the end named by [field] to the other
    end. *)
Definition arrow (field : Field) (ls : list Link) (x y : string) : Prop :=
  exists l, In l ls /\ fieldOf field l = x /\ fieldOf (opposite field) l = y.

Definition leads (field : Field) (ls : list Link) : string -> string -> Prop :=
  clos_refl_trans string (arrow field ls).

Lemma otherEnd_opposite (field : Field) (c : string) (l : Link) :
  fieldOf field l = c -> otherEnd c l = fieldOf (opposite field) l.
Proof.
  unfold otherEnd. destruct field; cbn [fieldOf opposite]; intros <-.
  - now rewrite String.eqb_refl.
  - destruct (String.eqb (fromId l) (toId l)) eqn:E; [|reflexivity].
    apply String.eqb_eq in E. now rewrite E.
Qed.

(** What the links of one node add: the other ends that have not been
    used, each once, with the links that lead to them. *)
Lemma connect_spec (field : Field) (c : string) (ls : list Link) :
  forall tp used conns,
  exists nl,
    fold_left (connectLink field c) ls (tp, used, conns)
    = (tp ++ map (fieldOf (opposite field)) nl,
       used ++ map (fieldOf (opposite field)) nl,
       conns ++ nl)
    /\ NoDup (map (fieldOf (opposite field)) nl)
    /\ (forall l, In l nl ->
          In l ls /\ fieldOf field l = c
          /\ ~ In (fieldOf (opposite field) l) used)
    /\ (forall l, In l ls -> fieldOf field l = c ->
          In (fieldOf (opposite field) l)
             (used ++ map (fieldOf (opposite field)) nl)).
Proof.
  induction ls as [|l ls IH]; intros tp used conns.
  - exists []. cbn. rewrite !app_nil_r.
    repeat split; [constructor|easy..].
  - cbn [fold_left]. unfold connectLink at 2.
    destruct (String.eqb (fieldOf field l) c) eqn:Ef; cbn [andb].
    + apply String.eqb_eq in Ef.
      rewrite (otherEnd_opposite field c l Ef).
      set (z := fieldOf (opposite field) l).
      destruct (includes used z) eqn:Ei; cbn [negb].
      * apply includes_iff in Ei.
        destruct (IH tp used conns) as [nl [Hf [Hnd [Hel Hcov]]]].
        exists nl. split; [exact Hf|]. split; [exact Hnd|]. split.
        -- intros l' Hl'. destruct (Hel l' Hl') as [A [B C]].
           split; [now right|]. split; assumption.
        -- intros l' [<-|Hl'] Hc; [|auto].
           apply in_or_app. left. exact Ei.
      * assert (Hz : ~ In z used)
          by (intros Hc; apply includes_iff in Hc; congruence).
        destruct (IH (tp ++ [z]) (used ++ [z]) (conns ++ [l]))
          as [nl [Hf [Hnd [Hel Hcov]]]].
        exists (l :: nl). cbn [map]. fold z.
        rewrite Hf, <- !app_assoc. cbn [app].
        split; [reflexivity|]. split; [|split].
        -- constructor; [|exact Hnd]. intros Hin.
           apply in_map_iff in Hin as [l' [Hz' Hl']].
           destruct (Hel l' Hl') as [_ [_ Hn]]. apply Hn.
           rewrite Hz'. apply in_or_app. right. now left.
        -- intros l' [<-|Hl'];
             [split; [now left|split; [exact Ef|exact Hz]]|].
           destruct (Hel l' Hl') as [A [B C]].
           split; [now right|]. split; [exact B|].
           intros Hin. apply C. apply in_or_app. now left.
        -- intros l' [<-|Hl'] Hc.
           ++ apply in_or_app. right. now left.
           ++ specialize (Hcov l' Hl' Hc).
              rewrite <- app_assoc in Hcov. exact Hcov.
    + destruct (IH tp used conns) as [nl [Hf [Hnd [Hel Hcov]]]].
      exists nl. split; [exact Hf|]. split; [exact Hnd|]. split.
      * intros l' Hl'. destruct (Hel l' Hl') as [A [B C]].
        split; [now right|]. split; assumption.
      * intros l' [<-|Hl'] Hc; [|auto].
        apply String.eqb_neq in Ef. contradiction.
Qed.

Section Cone.
Variable g : Graph.
Variable node : string.
Variable field : Field.
Hypothesis g_sound : sound g.

(** The state of the loop of [getNodeConnections]. *)
Record coning (tp used : list string) (conns : list Link) : Prop := {
  c_used : used = node :: map (fieldOf (opposite field)) conns;
  c_nodup : NoDup used;
  c_leads : forall y, In y used -> leads field (links g) node y;
  c_queue : NoDup tp /\ incl tp used;
  c_closed : forall y z, In y used -> ~ In y tp ->
    arrow field (links g) y z -> In z used;
  c_links : forall l, In l conns ->
    In l (links g) /\ leads field (links g) node (fieldOf field l)
}.

Lemma coning_start : coning [node] [node] [].
Proof.
  constructor.
  - reflexivity.
  - repeat constructor. intros [].
  - intros y [<-|[]]. apply rt_refl.
  - split; [repeat constructor; intros []|apply incl_refl].
  - intros y z [<-|[]] Hn. exfalso. apply Hn. now left.
  - intros l [].
Qed.

Lemma arrow_node (y z : string) :
  arrow field (links g) y z -> In y (nodeIds g) /\ truthy y = true.
Proof.
  intros [l [Hin [Hy _]]]. destruct g_sound as [[_ Hends] Ht].
  destruct (Hends l Hin) as [Hf Hto].
  assert (In y (nodeIds g)) by (destruct field; cbn in Hy; now subst).
  split; [assumption|now apply Ht].
Qed.

Lemma coning_skip (c : string) (tp used : list string) (conns : list Link) :
  coning (c :: tp) used conns ->
  (forall z, ~ arrow field (links g) c z) ->
  coning tp used conns.
Proof.
  intros [Hu Hnd Hl [Hq1 Hq2] Hc Hk] Hno. constructor; auto.
  - split; [now inversion Hq1|]. intros y Hy. apply Hq2. now right.
  - intros y z Hy Hn Ha. destruct (string_dec y c) as [->|Hne].
    + exfalso. exact (Hno z Ha).
    + apply (Hc y z Hy); [|exact Ha]. intros [Heq|Hin]; congruence.
Qed.

Lemma coning_step (c : string) (tp used : list string) (conns : list Link) :
  coning (c :: tp) used conns ->
  exists tp' used' conns',
    (if truthy c then
       fold_left (connectLink field c)
                 (match getNode g c with
                  | Some _ => nodeLinks g c
                  | None => []
                  end) (tp, used, conns)
     else (tp, used, conns)) = (tp', used', conns')
    /\ coning tp' used' conns'
    /\ (length used' - length tp' = S (length used - length (c :: tp)))%nat.
Proof.
  intros H. pose proof H as [Hu Hnd Hl [Hq1 Hq2] Hc Hk].
  assert (Hlen : (length (c :: tp) <= length used)%nat)
    by (apply NoDup_incl_length; assumption).
  destruct (truthy c) eqn:Ht.
  2:{ exists tp, used, conns. split; [reflexivity|]. split.
      - apply (coning_skip c); [exact H|]. intros z Ha.
        apply arrow_node in Ha as [_ Ha]. congruence.
      - simpl in *. lia. }
  destruct (getNode g c) as [d|] eqn:Eg.
  2:{ exists tp, used, conns. split; [reflexivity|]. split.
      - apply (coning_skip c); [exact H|]. intros z Ha.
        apply arrow_node in Ha as [Ha _]. apply getNode_None in Eg.
        contradiction.
      - simpl in *. lia. }
  destruct (connect_spec field c (nodeLinks g c) tp used conns)
    as [nl [Hf [Hnl [Hel Hcov]]]].
  set (news := map (fieldOf (opposite field)) nl) in *.
  exists (tp ++ news), (used ++ news), (conns ++ nl).
  split; [exact Hf|].
  assert (Hcin : In c used) by (apply Hq2; now left).
  assert (Hnew : forall z, In z news -> ~ In z used).
  { intros z Hz. unfold news in Hz. apply in_map_iff in Hz as [l [<- Hl']].
    apply (Hel l Hl'). }
  split.
  - constructor.
    + rewrite Hu. cbn [app]. now rewrite map_app.
    + apply NoDup_app; auto. intros z Hz Hz'. now apply (Hnew z).
    + intros y Hy. apply in_app_or in Hy as [Hy|Hy]; [auto|].
      unfold news in Hy. apply in_map_iff in Hy as [l [<- Hl']].
      destruct (Hel l Hl') as [Hin [Hfc _]].
      apply nodeLinks_In in Hin as [Hin _].
      eapply rt_trans; [apply (Hl c Hcin)|]. apply rt_step.
      exists l. auto.
    + split.
      * apply NoDup_app; [now inversion Hq1|exact Hnl|].
        intros z Hz Hz'. apply (Hnew z Hz'). apply Hq2. now right.
      * intros z Hz. apply in_app_or in Hz as [Hz|Hz]; apply in_or_app;
          [left; apply Hq2; now right|now right].
    + intros y z Hy Hn Ha.
      assert (Hy' : In y used).
      { apply in_app_or in Hy as [Hy|Hy]; [exact Hy|].
        exfalso. apply Hn. apply in_or_app. now right. }
      destruct (string_dec y c) as [->|Hne].
      * destruct Ha as [l [Hin [Hfc Hz]]]. rewrite <- Hz. apply Hcov; auto.
        apply nodeLinks_In. split; [exact Hin|]. unfold touches.
        destruct field; cbn [fieldOf] in Hfc; rewrite Hfc, String.eqb_refl;
          auto using orb_true_r.
      * apply in_or_app. left. apply (Hc y z Hy'); [|exact Ha].
        intros [Heq|Hin]; [congruence|]. apply Hn. apply in_or_app. now left.
    + intros l Hin. apply in_app_or in Hin as [Hin|Hin]; [auto|].
      destruct (Hel l Hin) as [Hl' [Hfc _]].
      apply nodeLinks_In in Hl' as [Hl' _]. split; [exact Hl'|].
      rewrite Hfc. now apply Hl.
  - rewrite !length_app. simpl in *. lia.
Qed.

Lemma coning_bound (tp used : list string) (conns : list Link) :
  coning tp used conns -> (length used <= S (length (nodeIds g)))%nat.
Proof.
  intros [Hu Hnd Hl _ _ _].
  change (S (length (nodeIds g))) with (length (node :: nodeIds g)).
  apply NoDup_incl_length; [exact Hnd|].
  intros y Hy. specialize (Hl y Hy). apply clos_rt_rtn1 in Hl.
  destruct Hl as [|y z Ha _]; [now left|]. right.
  destruct Ha as [l [Hin [_ Hz]]]. destruct g_sound as [[_ Hends] _].
  destruct (Hends l Hin). destruct field; cbn in Hz; now subst.
Qed.

Lemma connections_run (fuel : nat) :
  forall tp used conns,
  coning tp used conns ->
  (S (length (nodeIds g)) <= fuel + (length used - length tp))%nat ->
  exists used' conns',
    connectionsLoop fuel field g tp used conns = Some conns'
    /\ coning [] used' conns'.
Proof.
  induction fuel as [|fuel IH]; intros tp used conns H Hfuel.
  - destruct tp as [|c tp]; [simpl; eauto|]. exfalso.
    pose proof (coning_bound _ _ _ H) as Hb.
    destruct H as [_ Hnd _ [Hq1 Hq2] _ _].
    assert ((length (c :: tp) <= length used)%nat)
      by (apply NoDup_incl_length; assumption).
    simpl in *. lia.
  - destruct tp as [|c tp]; [simpl; eauto|].
    destruct (coning_step c tp used conns H)
      as [tp' [used' [conns' [Hs [Hc Hlen]]]]].
    cbn [connectionsLoop].
    destruct (truthy c).
    + rewrite Hs. apply IH; [exact Hc|]. lia.
    + injection Hs as <- <- <-. apply IH; [exact Hc|]. lia.
Qed.

End Cone.
(** X17. [getNodeConnections] on a sound graph, with more fuel than the
    graph has nodes, comes to an end. The links it returns are links of
    the graph, each starting (at its [field] end) from the node or from
    a node that the traversal reached; their other ends are exactly the
    nodes other than [node] to which a path of links leads from [node]
    in the direction of the traversal, and every such node is the end of
    one returned link only: the links form a spanning tree of the cone,
    not all of its links. *)
Theorem getNodeConnections_spans_the_cone (fuel : nat) (g : Graph)
    (node : string) (field : Field) :
  sound g -> (length (nodeIds g) < fuel)%nat ->
  exists connections,
    getNodeConnections fuel (Some g) node field = Some connections
    /\ (forall l, In l connections ->
          In l (links g) /\ leads field (links g) node (fieldOf field l))
    /\ NoDup (map (fieldOf (opposite field)) connections)
    /\ (forall y, In y (map (fieldOf (opposite field)) connections) <->
          y <> node /\ leads field (links g) node y).
Proof.
  intros Hs Hfuel.
  destruct (connections_run g node field Hs fuel [node] [node] []
              (coning_start g node field)) as [used [conns [Hr Hc]]].
  { simpl. lia. }
  exists conns. split; [exact Hr|].
  destruct Hc as [Hu Hnd Hl _ Hclosed Hk].
  split; [exact Hk|].
  rewrite Hu in Hnd. inversion Hnd as [|? ? Hnot Hnd']; subst.
  split; [exact Hnd'|].
  intros y. split.
  - intros Hy. split; [intros ->; contradiction|].
    apply Hl. now right.
  - intros [Hne Hy].
    assert (Hin : In y (node :: map (fieldOf (opposite field)) conns)).
    { apply clos_rt_rtn1 in Hy.
      induction Hy as [|y z Ha Hy IH]; [now left|].
      apply (Hclosed y z); [|intros []|exact Ha].
      destruct (string_dec y node) as [->|Hy']; [now left|].
      now apply IH. }
    destruct Hin as [Heq|Hin]; [congruence|exact Hin].
Qed.

(** *** A graph of two *)

Import Samples.
Local Open Scope string_scope.

(** One transaction, [B], drawn at time 0 with its parent [A]. *)
Definition duoItems : list IFeedItem := [child "B" "A" 0]%list.

Definition duo : Graph := fst (drawItems 0 duoItems Viva.empty).

Definition duoState : State :=
  mkState (Some duo) ["B"; "A"]%list []%list ["A"]%list []%list 1 2
          (Some (child "A" "" 0)).

Lemma empty_sound : sound (@Viva.empty INodeData).
Proof. split; [split|]; [constructor|intros l []|intros x []]. Qed.

Lemma duo_sound : sound duo.
Proof.
  assert (Hids : forall it, In it duoItems -> truthy (id it) = true).
  { intros it [<-|[]]. reflexivity. }
  exact (proj2 (@drawItems_sound 0 duoItems Viva.empty empty_sound Hids)).
Qed.

Lemma duo_distinct : NoDup (nodeIds duo).
Proof. apply duo_sound. Qed.

Lemma calculateSubGraph_returns_the_component_witness :
  exists g' sub,
    calculateSubGraph 3 duo "B" 1 = Some (g', sub)
    /\ component duo "B" (subNodes sub)
    /\ mostRecentChange sub = maxAdded duo (subNodes sub).
Proof.
  assert (Hc : closedMarks duo).
  { intros l Hl. vm_compute in Hl. destruct Hl as [<-|[]]. reflexivity. }
  assert (Hf : (length (nodeIds duo) < 3)%nat)
    by (apply Nat.ltb_lt; reflexivity).
  destruct (calculateSubGraph_returns_the_component 3 0 duo "B"
              duo_sound Hc eq_refl Hf) as [g' [sub [H1 [H2 [H3 _]]]]].
  exists g', sub. auto.
Defined.

Lemma removeNodes_drains_the_queue_witness :
  exists g',
    _graph (removeNodes duoState) = Some g'
    /\ _removeNodes (removeNodes duoState) = []%list
    /\ ~ In "A" (nodeIds g')
    /\ selectedFeedItem (removeNodes duoState) = None.
Proof.
  destruct (removeNodes_drains_the_queue duoState duo eq_refl duo_sound)
    as [g' [H1 [H2 [H3 [_ [_ [H6 _]]]]]]].
  exists g'. split; [exact H1|]. split; [exact H2|]. split.
  - apply H3; [now left|reflexivity].
  - exact H6.
Defined.


Lemma confirmations_of_unknown_ids_are_lost_witness :
  confirmedUpdated ["C"; "D"]%list duoState = duoState
  /\ confirmedUpdated ["C"; "D"]%list
       (confirmedUpdated ["C"; "D"]%list duoState)
     = confirmedUpdated ["C"; "D"]%list duoState.
Proof.
  destruct (confirmations_of_unknown_ids_are_lost ["C"; "D"]%list duoState
              duo eq_refl duo_distinct) as [H1 H2].
  split; [|exact H2]. apply H1.
  intros x [<-|[<-|[]]] [H|[H|[]]]; discriminate.
Defined.

Lemma backlog_is_drawn_witness :
  exists s',
    frames (S MAX_ITEMS) [1000; 1016]%Z mounted = Some s'
    /\ _newItems s' = []%list
    /\ reach None s'.
Proof.
  apply (backlog_is_drawn None (S MAX_ITEMS) [1000; 1016]%Z mounted).
  - apply reach_itemsUpdated.
    + apply reach_setupGraph, reach_constructed.
    + intros it [<-|[]]. reflexivity.
  - discriminate.
  - apply Nat.leb_le. vm_compute. reflexivity.
  - apply Nat.lt_succ_diag_r.
  - apply Nat.leb_le. reflexivity.
Defined.

Lemma announced_milestone_is_drawn_witness :
  let s' := milestonesUpdated (Some "og") 500 [("B", 7%Z)]%list duoState in
  ms_get 7 (_msIndexToNode s') = Some (mkEntry "B" 500)
  /\ option_map (fun g => calculateNodeStyle (getNode g "B") false)
                (_graph s')
     = Some (COLOR_MILESTONE, VERTEX_SIZE_LARGE).
Proof.
  intros s'.
  destruct (announced_milestone_is_drawn (Some "og") 500 [("B", 7%Z)]%list
              duoState duo "B" 7
              (mkData (child "B" "A" 0) 0 None)) as [H1 [g' [k' [H2 H3]]]].
  - reflexivity.
  - reflexivity.
  - simpl. repeat constructor. intros [].
  - intros mi [<-|[]]. discriminate.
  - intros k' e H. discriminate.
  - now left.
  - reflexivity.
  - fold s' in H1, H2. split; [exact H1|].
    rewrite H2. cbn [option_map]. f_equal. apply H3.
Defined.

Lemma unknown_item_is_drawn_with_its_parents_witness :
  getNode duo "B" = Some (mkData (child "B" "A" 0) 0 None)
  /\ In (mkLink "A" "B") (links duo)
  /\ getNode duo "A" = Some (mkData (placeholder "A") 0 None).
Proof.
  destruct (unknown_item_is_drawn_with_its_parents 0 Viva.empty []%list
              []%list (child "B" "A" 0) eq_refl) as [H1 [_ [H3 _]]].
  split; [exact H1|].
  destruct (H3 eq_refl) as [H4 [_ H5]].
  split; [exact H4|]. apply H5; [reflexivity|discriminate].
Defined.

Lemma getNodeConnections_spans_the_cone_witness :
  exists connections,
    getNodeConnections 3 (Some duo) "A" FromId = Some connections
    /\ (forall y, In y (map (fieldOf ToId) connections) <->
          y <> "A" /\ leads FromId (links duo) "A" y).
Proof.
  assert (Hf : (length (nodeIds duo) < 3)%nat)
    by (apply Nat.ltb_lt; reflexivity).
  destruct (getNodeConnections_spans_the_cone 3 duo "A" FromId
              duo_sound Hf) as [conns [H1 [_ [_ H4]]]].
  exists conns. split; [exact H1|exact H4].
Defined.

End GraphOperationsFacts.

(** ** The MAM page *)

Module MamFacts.

Unset Implicit Arguments.
Import Mam.

Lemma upper_tryte (c : ascii) :
  (nat_of_ascii c < 128)%nat ->
  isTryte (upper c) = true <->
  (nat_of_ascii c = 57 \/ (65 <= nat_of_ascii c <= 90)
   \/ (97 <= nat_of_ascii c <= 122))%nat.
Proof.
  intros H7. unfold isTryte, upper.
  destruct ((97 <=? nat_of_ascii c) && (nat_of_ascii c <=? 122))%nat eqn:E.
  - apply andb_true_iff in E as [E1 E2].
    apply Nat.leb_le in E1. apply Nat.leb_le in E2.
    rewrite nat_ascii_embedding by lia.
    rewrite orb_true_iff, andb_true_iff, Nat.eqb_eq, !Nat.leb_le. lia.
  - rewrite orb_true_iff, andb_true_iff, Nat.eqb_eq, !Nat.leb_le.
    apply andb_false_iff in E.
    rewrite !Nat.leb_gt in E. lia.
Qed.

Lemma length_toUpperCase (s : string) :
  String.length (toUpperCase s) = String.length s.
Proof. induction s as [|c s IH]; simpl; congruence. Qed.

Lemma allTrytes_upper (s : string) :
  isAscii7 s = true ->
  allTrytes (toUpperCase s) = true <->
  forall c, In c (list_ascii_of_string s) ->
    (nat_of_ascii c = 57 \/ (65 <= nat_of_ascii c <= 90)
     \/ (97 <= nat_of_ascii c <= 122))%nat.
Proof.
  unfold allTrytes, isAscii7. induction s as [|c s IH]; intros H7.
  - simpl. split; [intros _ c []|reflexivity].
  - cbn [list_ascii_of_string toUpperCase forallb] in *.
    apply andb_true_iff in H7 as [Hc Hs]. apply Nat.ltb_lt in Hc.
    rewrite andb_true_iff, (upper_tryte c Hc), (IH Hs).
    split.
    + intros [H1 H2] c' [<-|Hin]; auto.
    + intros H. split; [apply H; now left|].
      intros c' Hin. apply H. now right.
Qed.

Lemma trimStart_empty (s : string) :
  trimStart s = EmptyString <->
  forallb isWhiteSpace (list_ascii_of_string s) = true.
Proof.
  induction s as [|c s IH]; simpl; [tauto|].
  destruct (isWhiteSpace c); simpl; [exact IH|].
  split; discriminate.
Qed.

Lemma list_of_reverse (s : string) :
  list_ascii_of_string (reverse s) = rev (list_ascii_of_string s).
Proof. unfold reverse. apply list_ascii_of_string_of_list_ascii. Qed.

Lemma forallb_rev (A : Type) (p : A -> bool) (l : list A) :
  forallb p (rev l) = forallb p l.
Proof.
  apply eq_true_iff_eq. rewrite !forallb_forall.
  split; intros H x Hx; apply H.
  - now apply (proj1 (in_rev l x)).
  - now apply (proj2 (in_rev l x)).
Qed.

Lemma trim_empty (s : string) :
  (String.length (trim s) =? 0)%nat = true <->
  forallb isWhiteSpace (list_ascii_of_string s) = true.
Proof.
  rewrite Nat.eqb_eq. unfold trim.
  destruct (trimStart s) as [|c r] eqn:E.
  - split; [intros _; now apply trimStart_empty|reflexivity].
  - split.
    + intros H. exfalso.
      assert (Hr : reverse (trimStart (reverse (String c r))) = EmptyString).
      { destruct (reverse _); [reflexivity|discriminate]. }
      apply (f_equal list_ascii_of_string) in Hr.
      rewrite list_of_reverse in Hr. cbn [list_ascii_of_string] in Hr.
      assert (Ht : trimStart (reverse (String c r)) = EmptyString).
      { destruct (trimStart (reverse (String c r))) as [|c' r']; [reflexivity|].
        cbn [list_ascii_of_string] in Hr.
        apply (f_equal (@length _)) in Hr. rewrite length_rev in Hr.
        discriminate. }
      apply trimStart_empty in Ht.
      rewrite list_of_reverse, forallb_rev in Ht.
      cbn [list_ascii_of_string forallb] in Ht.
      apply andb_true_iff in Ht as [Hc _].
      (* the first character left by trimStart is not white space *)
      clear -E Hc. induction s as [|a s IH]; simpl in E; [discriminate|].
      destruct (isWhiteSpace a) eqn:Ea; [now apply IH|].
      injection E as -> _. congruence.
    + intros H. apply trimStart_empty in H. congruence.
Qed.

Lemma length_empty (r : string) :
  (0 <? String.length r)%nat = false <-> r = EmptyString.
Proof.
  destruct r as [|c r]; cbn; split; intros H; try reflexivity; discriminate.
Qed.

Lemma some_not_white (l : list ascii) :
  (exists c, In c l /\ isWhiteSpace c = false)
  <-> forallb isWhiteSpace l = false.
Proof.
  split.
  - intros [c [Hin Hc]]. apply not_true_is_false. intros Hall.
    rewrite forallb_forall in Hall. specialize (Hall c Hin). congruence.
  - induction l as [|a l IH]; intros Hf; [discriminate|].
    cbn [forallb] in Hf. apply andb_false_iff in Hf as [Hf|Hf].
    + exists a. split; [now left|exact Hf].
    + destruct (IH Hf) as [c [Hin Hc]]. exists c. split; [now right|auto].
Qed.

(** X18. [validate] accepts exactly the states whose root is empty or
    has 81 characters, each a 9 or a letter of either case, and whose
    side key, in restricted mode, has a character that is not white
    space. When the root has a character that is no tryte, the message
    says so, whatever the length is. *)
Theorem validate_accepts (s : State) :
  isAscii7 (root s) = true -> isAscii7 (sideKey s) = true ->
  let trytes := forall c, In c (list_ascii_of_string (root s)) ->
    (nat_of_ascii c = 57 \/ (65 <= nat_of_ascii c <= 90)
     \/ (97 <= nat_of_ascii c <= 122))%nat in
  (snd (validate s) = true <->
   (root s = EmptyString \/ (String.length (root s) = 81%nat /\ trytes))
   /\ (mode s = "restricted"%string ->
       exists c, In c (list_ascii_of_string (sideKey s))
                 /\ isWhiteSpace c = false))
  /\ isValid (fst (validate s)) = snd (validate s)
  /\ (root s <> EmptyString -> ~ trytes ->
      rootValidation (fst (validate s))
      = "Trytes must be characters A-Z or 9."%string).
Proof.
  intros H7 _ trytes.
  pose proof (allTrytes_upper (root s) H7) as Ht. fold trytes in Ht.
  unfold validate. cbn [fst snd isValid rootValidation].
  rewrite length_toUpperCase.
  pose proof (some_not_white (list_ascii_of_string (sideKey s))) as Hside.
  split; [|split; [reflexivity|]].
  - destruct (0 <? String.length (root s))%nat eqn:E0.
    + assert (Hne : root s <> EmptyString)
        by (intros Hc; apply (proj2 (length_empty _)) in Hc; congruence).
      destruct (allTrytes (toUpperCase (root s))) eqn:Ea; cbn [negb].
      * destruct (String.length (root s) =? 81)%nat eqn:E81; cbn [negb].
        -- apply Nat.eqb_eq in E81.
           destruct (String.eqb (mode s) "restricted"%string) eqn:Em.
           ++ apply String.eqb_eq in Em.
              destruct (String.length (trim (sideKey s)) =? 0)%nat eqn:Et.
              ** split; [discriminate|]. intros [_ Hs].
                 apply Hside in Hs; [|exact Em].
                 apply (proj1 (trim_empty _)) in Et. congruence.
              ** split; [|reflexivity]. intros _.
                 split; [right; split; [exact E81|now apply Ht]|].
                 intros _. apply Hside. apply not_true_is_false.
                 intros Hc. apply (proj2 (trim_empty _)) in Hc. congruence.
           ++ apply String.eqb_neq in Em. split; [|reflexivity].
              intros _. split; [right; split; [exact E81|now apply Ht]|].
              intros Hc. contradiction.
        -- apply Nat.eqb_neq in E81. split.
           ++ simpl. discriminate.
           ++ intros [[Hc|[Hc _]] _]; contradiction.
      * split; [simpl; discriminate|].
        intros [[Hc|[_ Hc]] _]; [contradiction|].
        apply Ht in Hc. congruence.
    + assert (He : root s = EmptyString) by now apply (proj1 (length_empty _)).
      destruct (String.eqb (mode s) "restricted"%string) eqn:Em.
      * apply String.eqb_eq in Em.
        destruct (String.length (trim (sideKey s)) =? 0)%nat eqn:Et.
        -- split; [discriminate|]. intros [_ Hs].
           apply Hside in Hs; [|exact Em]. apply (proj1 (trim_empty _)) in Et. congruence.
        -- split; [|reflexivity]. intros _. split; [now left|].
           intros _. apply Hside. apply not_true_is_false.
           intros Hc. apply (proj2 (trim_empty _)) in Hc. congruence.
      * apply String.eqb_neq in Em. split; [|reflexivity].
        intros _. split; [now left|]. intros Hc. contradiction.
  - intros Hne Hnt.
    destruct (0 <? String.length (root s))%nat eqn:E0.
    + destruct (allTrytes (toUpperCase (root s))) eqn:Ea; cbn [negb];
        [|reflexivity].
      exfalso. apply Hnt. now apply Ht.
    + apply (proj1 (length_empty _)) in E0. contradiction.
Qed.

(** X19. Whatever [loadNextPacket] finds, the waiting time stays between
    100 ms and 10100 ms, in steps of 500 ms; after [misses] readings
    without a packet in a row it is 100 ms plus 500 ms for each of them,
    up to twenty. *)
Theorem timeout_backs_off (readings : list Reading) (misses : nat) :
  let t := fold_left nextTimeout readings 100%Z in
  (exists k, (0 <= k <= 20)%Z /\ t = (100 + 500 * k)%Z)
  /\ fold_left nextTimeout (repeat NoPacket misses) 100%Z
     = (100 + 500 * Z.min (Z.of_nat misses) 20)%Z.
Proof.
  split.
  - assert (G : forall t0, (exists k, (0 <= k <= 20)%Z
                                      /\ t0 = (100 + 500 * k)%Z) ->
              exists k, (0 <= k <= 20)%Z
                /\ fold_left nextTimeout readings t0 = (100 + 500 * k)%Z).
    { induction readings as [|r rs IH]; intros t0 H0; [exact H0|].
      cbn [fold_left]. apply IH. destruct H0 as [k [Hk ->]].
      destruct r; cbn [nextTimeout]; try (exists 0%Z; split; lia).
      destruct (100 + 500 * k <? 10000)%Z eqn:E.
      - apply Z.ltb_lt in E. exists (k + 1)%Z. split; lia.
      - exists k. split; [lia|reflexivity]. }
    apply G. exists 0%Z. split; lia.
  - assert (G : forall n k, (0 <= k <= 20)%Z ->
              fold_left nextTimeout (repeat NoPacket n) (100 + 500 * k)%Z
              = (100 + 500 * Z.min (k + Z.of_nat n) 20)%Z).
    { induction n as [|n IH]; intros k Hk.
      - cbn [repeat fold_left]. f_equal. f_equal. lia.
      - cbn [repeat fold_left nextTimeout].
        destruct (100 + 500 * k <? 10000)%Z eqn:E.
        + apply Z.ltb_lt in E.
          replace (100 + 500 * k + 500)%Z with (100 + 500 * (k + 1))%Z by lia.
          rewrite IH by lia. f_equal. f_equal. lia.
        + apply Z.ltb_ge in E. rewrite IH by lia. f_equal. f_equal. lia. }
    specialize (G misses 0%Z ltac:(lia)).
    cbn in G. exact G.
Qed.

Lemma validate_accepts_witness :
  let s := constructed (Some "abc9"%string) (Some "restricted"%string)
                       (Some " k "%string) in
  isValid (fst (validate s)) = snd (validate s)
  /\ rootValidation (fst (validate s))
     = "The root must be 81 in length, it is 4."%string.
Proof.
  intros s.
  destruct (validate_accepts s eq_refl eq_refl) as [_ [H _]].
  split; [exact H|reflexivity].
Defined.

End MamFacts.
